(** * Verification of the graph/optimisation engine of the ridesharing visualiser

  The development embeds, as executable Rocq functions, the solvers of
  [src/algorithms/hungarian.ts], [src/algorithms/kruskal.ts],
  [src/algorithms/dijkstra.ts] and the cost-matrix helpers, and proves
  properties of these embeddings.

  Numbers.  The TypeScript code computes on IEEE doubles.  The embedding
  covers the exact fragment: finite values are integers ([Z], on which the
  additions, subtractions and comparisons of the code are exact below
  2^53) and the only non-finite value that the code produces on such inputs
  is [+Infinity].

  Loops.  A [while] loop, or a recursion whose termination depends on the
  data, takes a fuel argument and returns [None] when the fuel runs
  out; termination is then a theorem (enough fuel gives a result). *)

From Stdlib Require Import ZArith Lia.
From stdpp Require Import gmap strings list fin_maps relations sorting.

Set Default Proof Using "Type".
Local Open Scope Z_scope.

(* ===================================================================== *)
(** * Part I: the embedding of the source                                  *)
(* ===================================================================== *)

(** ** Numbers: finite values and [Infinity] *)
Module Num.

Inductive num : Type :=
| Fin (z : Z)
| Inf.

#[global] Instance num_eq_dec : EqDecision num.
Proof. solve_decision. Defined.

(** [isFinite(x)] *)
Definition isFinite (x : num) : bool :=
  match x with Fin _ => true | Inf => false end.

(** [x === 0] *)
Definition isZero (x : num) : bool :=
  match x with Fin z => Z.eqb z 0 | Inf => false end.

(** [Math.min(a, b)] *)
Definition min (a b : num) : num :=
  match a, b with
  | Fin x, Fin y => Fin (Z.min x y)
  | Fin x, Inf => Fin x
  | Inf, b => b
  end.

(** [Math.min(...l)]; [Math.min()] of no argument is [Infinity]. *)
Definition minList (l : list num) : num := foldr min Inf l.

(** [x + d] and [x - d] for a finite [d]. *)
Definition addFin (x : num) (d : Z) : num :=
  match x with Fin z => Fin (z + d) | Inf => Inf end.
Definition subFin (x : num) (d : Z) : num :=
  match x with Fin z => Fin (z - d) | Inf => Inf end.

(** [a < b] *)
Definition ltb (a b : num) : bool :=
  match a, b with
  | Fin x, Fin y => Z.ltb x y
  | Fin _, Inf => true
  | Inf, _ => false
  end.

(** [a <= b], the order in which a stable sort by [a - b] leaves finite
    keys. *)
Definition leb (a b : num) : bool := negb (ltb b a).

End Num.

(** ** Counted loops and two-dimensional arrays *)
Module Loops.

(** [for (let i = 0; i < n; i++) s = body(i, s)] *)
Definition for_range {S : Type} (n : nat) (body : nat -> S -> S) (s : S) : S :=
  foldl (fun s i => body i s) s (seq 0 n).

(** A counted loop that returns from inside its body: the value of the
    first index at which the body returns something. *)
Fixpoint first_some {A : Type} (f : nat -> option A) (l : list nat) : option A :=
  match l with
  | [] => None
  | i :: l' => match f i with Some a => Some a | None => first_some f l' end
  end.

Definition for_return {A : Type} (n : nat) (f : nat -> option A) : option A :=
  first_some f (seq 0 n).

(** [m[i][j]], with the value [d] standing for [undefined]. *)
Definition cell {A : Type} (d : A) (m : list (list A)) (i j : nat) : A :=
  nth j (nth i m []) d.

(** [m[i][j] = f(m[i][j])] on an existing cell. *)
Definition modCell {A : Type} (m : list (list A)) (i j : nat) (f : A -> A)
  : list (list A) :=
  alter (alter f j) i m.

(** [m[i][j] = x] *)
Definition setCell {A : Type} (m : list (list A)) (i j : nat) (x : A)
  : list (list A) :=
  modCell m i j (fun _ => x).

(** [a.fill(x)] *)
Definition fill {A : Type} (a : list A) (x : A) : list A :=
  replicate (length a) x.

(** [a.indexOf(x)]: the first index, [None] for [-1]. *)
Definition indexOf (a : list nat) (x : nat) : option nat :=
  for_return (length a) (fun j => if Nat.eqb (nth j a 0%nat) x then Some j else None).

End Loops.

(** ** [src/algorithms/hungarian.ts] *)
Module Hungarian.
Import Num Loops.

Record Assignment : Type := { driver : nat; passenger : nat }.

Record HungarianOutput : Type :=
  { assignments : list Assignment; totalCost : Z }.

#[global] Instance Assignment_eq_dec : EqDecision Assignment.
Proof. solve_decision. Defined.

(** [rowCover[i]], [colCover[j]] *)
Definition covered (cover : list bool) (i : nat) : bool := nth i cover false.

(** [masks[i][j]]: 0 plain, 1 starred, 2 primed. *)
Definition mask (masks : list (list nat)) (i j : nat) : nat := cell 0%nat masks i j.

(** [matrix[i][j]] *)
Definition entry (matrix : list (list num)) (i j : nat) : num := cell Inf matrix i j.

(** [costMatrix.length] and [costMatrix[0]?.length || 0] *)
Definition rowCount (costMatrix : list (list Z)) : nat := length costMatrix.
Definition colCount (costMatrix : list (list Z)) : nat :=
  match costMatrix with [] => 0%nat | row :: _ => length row end.

(** Lines 17-25: the square matrix of side [n], [Infinity] outside the
    cost matrix. *)
Definition padMatrix (costMatrix : list (list Z)) : list (list num) :=
  let n := Nat.max (rowCount costMatrix) (colCount costMatrix) in
  let matrix := replicate n (replicate n Inf) in
  for_range (rowCount costMatrix) (fun i =>
    for_range (colCount costMatrix) (fun j matrix =>
      setCell matrix i j
        (match costMatrix !! i ≫= (.!! j) with Some z => Fin z | None => Inf end)))
    matrix.

(** Lines 28-35: subtract from the finite entries of each row the least of
    them. *)
Definition subtractFinite (min : num) (x : num) : num :=
  match min, x with
  | Fin d, Fin z => Fin (z - d)
  | _, _ => x
  end.

Definition subtractRowMinima (n : nat) (matrix : list (list num)) : list (list num) :=
  for_range n (fun i matrix =>
    let min := minList (filter (fun x => isFinite x = true) (nth i matrix [])) in
    if isFinite min then
      for_range n (fun j matrix => modCell matrix i j (subtractFinite min)) matrix
    else matrix) matrix.

(** Lines 38-46: the same for each column. *)
Definition subtractColMinima (n : nat) (matrix : list (list num)) : list (list num) :=
  for_range n (fun j matrix =>
    let col := map (fun row => nth j row Inf) matrix in
    let min := minList (filter (fun x => isFinite x = true) col) in
    if isFinite min then
      for_range n (fun i matrix => modCell matrix i j (subtractFinite min)) matrix
    else matrix) matrix.

(** The mutable variables of [hungarian] that the step machine works on. *)
Record state : Type :=
  { matrix : list (list num);
    masks : list (list nat);
    rowCover : list bool;
    colCover : list bool;
    pathStart : option (nat * nat);
    step : nat }.

(** Lines 54-62: star zeros greedily, row by row. *)
Definition starZeros (n : nat) (matrix : list (list num))
    (st : list (list nat) * list bool * list bool)
  : list (list nat) * list bool * list bool :=
  for_range n (fun i =>
    for_range n (fun j '(masks, rowCover, colCover) =>
      if isZero (entry matrix i j) && negb (covered rowCover i) && negb (covered colCover j)
      then (setCell masks i j 1%nat, <[i := true]> rowCover, <[j := true]> colCover)
      else (masks, rowCover, colCover))) st.

(** Lines 146-157 *)
Definition findUncoveredZero (matrix : list (list num)) (rowCover colCover : list bool)
  : option (nat * nat) :=
  for_return (length matrix) (fun i =>
    if negb (covered rowCover i) then
      for_return (length (nth i matrix [])) (fun j =>
        if isZero (entry matrix i j) && negb (covered colCover j)
        then Some (i, j) else None)
    else None).

(** Lines 159-161 *)
Definition findStarInRow (masks : list (list nat)) (row : nat) : option nat :=
  indexOf (nth row masks []) 1.

(** Lines 163-168 *)
Definition findStarInCol (masks : list (list nat)) (col : nat) : option nat :=
  for_return (length masks) (fun i =>
    if Nat.eqb (mask masks i col) 1 then Some i else None).

(** Lines 170-172 *)
Definition findPrimeInRow (masks : list (list nat)) (row : nat) : option nat :=
  indexOf (nth row masks []) 2.

(** Lines 174-189.  The loop is [while (true)]: it takes fuel.  When a row
    on the path has no prime, [findPrimeInRow] is [-1]; the source then
    records the column [-1], in which [findStarInCol] finds nothing, so
    that the loop stops, and the later write to [masks[row][-1]] touches no
    cell of the array.  The embedding stops at that point without
    recording the cell. *)
Fixpoint augmentFrom (fuel : nat) (masks : list (list nat)) (currentCol : nat)
  : option (list (nat * nat)) :=
  match fuel with
  | O => None
  | S fuel' =>
      match findStarInCol masks currentCol with
      | None => Some []
      | Some starRow =>
          match findPrimeInRow masks starRow with
          | None => Some [(starRow, currentCol)]
          | Some primeCol =>
              match augmentFrom fuel' masks primeCol with
              | Some path => Some ((starRow, currentCol) :: (starRow, primeCol) :: path)
              | None => None
              end
          end
      end
  end.

Definition findAugmentingPath (fuel : nat) (masks : list (list nat)) (start : nat * nat)
  : option (list (nat * nat)) :=
  match augmentFrom fuel masks (snd start) with
  | Some path => Some (start :: path)
  | None => None
  end.

(** Lines 191-203 *)
Definition findMinUncoveredValue (matrix : list (list num)) (rowCover colCover : list bool)
  : num :=
  for_range (length matrix) (fun i minVal =>
    if negb (covered rowCover i) then
      for_range (length (nth i matrix [])) (fun j minVal =>
        if negb (covered colCover j) then min minVal (entry matrix i j) else minVal) minVal
    else minVal) Inf.

(** Lines 69-78 *)
Definition case1 (n : nat) (s : state) : state :=
  let colCover :=
    for_range n (fun i =>
      for_range n (fun j colCover =>
        if Nat.eqb (mask (masks s) i j) 1 then <[j := true]> colCover else colCover))
      (fill (colCover s) false) in
  let coveredCount := length (filter (fun c => c = true) colCover) in
  {| matrix := matrix s; masks := masks s; rowCover := rowCover s;
     colCover := colCover; pathStart := pathStart s;
     step := if Nat.eqb coveredCount n then 0 else 2 |}.

(** Lines 80-96 *)
Definition case2 (s : state) : state :=
  match findUncoveredZero (matrix s) (rowCover s) (colCover s) with
  | None =>
      {| matrix := matrix s; masks := masks s; rowCover := rowCover s;
         colCover := colCover s; pathStart := pathStart s; step := 6 |}
  | Some (zrow, zcol) =>
      let masks' := setCell (masks s) zrow zcol 2%nat in
      match findStarInRow masks' zrow with
      | Some starCol =>
          {| matrix := matrix s; masks := masks';
             rowCover := <[zrow := true]> (rowCover s);
             colCover := <[starCol := false]> (colCover s);
             pathStart := pathStart s; step := 2 |}
      | None =>
          {| matrix := matrix s; masks := masks'; rowCover := rowCover s;
             colCover := colCover s; pathStart := Some (zrow, zcol); step := 3 |}
      end
  end.

(** Lines 98-112.  [pathStart!] is never [null] when step 3 is entered;
    a [null] would make the source throw, which is [None] here. *)
Definition case3 (fuel : nat) (n : nat) (s : state) : option state :=
  match pathStart s with
  | None => None
  | Some start =>
      match findAugmentingPath fuel (masks s) start with
      | None => None
      | Some path =>
          let flipped :=
            foldl (fun masks '(row, col) =>
                     modCell masks row col (fun x => if Nat.eqb x 1 then 0 else 1)%nat)
                  (masks s) path in
          let cleared :=
            for_range n (fun i =>
              for_range n (fun j masks =>
                if Nat.eqb (mask masks i j) 2 then setCell masks i j 0%nat else masks))
              flipped in
          Some {| matrix := matrix s; masks := cleared;
                  rowCover := fill (rowCover s) false;
                  colCover := fill (colCover s) false;
                  pathStart := pathStart s; step := 1 |}
      end
  end.

(** Lines 114-127 *)
Definition case6 (n : nat) (s : state) : state :=
  match findMinUncoveredValue (matrix s) (rowCover s) (colCover s) with
  | Inf =>
      {| matrix := matrix s; masks := masks s; rowCover := rowCover s;
         colCover := colCover s; pathStart := pathStart s; step := 0 |}
  | Fin minVal =>
      let matrix' :=
        for_range n (fun i =>
          for_range n (fun j matrix =>
            let matrix :=
              if covered (rowCover s) i
              then modCell matrix i j (fun x => addFin x minVal) else matrix in
            if negb (covered (colCover s) j)
            then modCell matrix i j (fun x => subFin x minVal) else matrix))
          (matrix s) in
      {| matrix := matrix'; masks := masks s; rowCover := rowCover s;
         colCover := colCover s; pathStart := pathStart s; step := 2 |}
  end.

(** One turn of the [switch] of lines 68-128. *)
Definition turn (pathFuel : nat) (n : nat) (s : state) : option state :=
  match step s with
  | 1%nat => Some (case1 n s)
  | 2%nat => Some (case2 s)
  | 3%nat => case3 pathFuel n s
  | 6%nat => Some (case6 n s)
  | _ => Some s
  end.

(** Lines 66-129: [while (step !== 0)]. *)
Fixpoint run (pathFuel : nat) (fuel : nat) (n : nat) (s : state) : option state :=
  if Nat.eqb (step s) 0 then Some s
  else match fuel with
       | O => None
       | S fuel' =>
           match turn pathFuel n s with
           | Some s' => run pathFuel fuel' n s'
           | None => None
           end
       end.

(** Lines 16-64: the state in which the step machine starts. *)
Definition initialState (costMatrix : list (list Z)) : state :=
  let n := Nat.max (rowCount costMatrix) (colCount costMatrix) in
  let matrix := subtractColMinima n (subtractRowMinima n (padMatrix costMatrix)) in
  let masks := replicate n (replicate n 0%nat) in
  let rowCover := replicate n false in
  let colCover := replicate n false in
  let '(masks, rowCover, colCover) := starZeros n matrix (masks, rowCover, colCover) in
  {| matrix := matrix; masks := masks;
     rowCover := fill rowCover false; colCover := fill colCover false;
     pathStart := None; step := 1 |}.

(** Lines 131-142: read the starred cells of the original area, and add
    up the original costs. *)
Definition extract (costMatrix : list (list Z)) (masks : list (list nat))
  : HungarianOutput :=
  let '(assignments, totalCost) :=
    for_range (rowCount costMatrix) (fun i =>
      for_range (colCount costMatrix) (fun j '(assignments, totalCost) =>
        if Nat.eqb (mask masks i j) 1
        then (assignments ++ [{| driver := i; passenger := j |}],
              totalCost + cell 0 costMatrix i j)
        else (assignments, totalCost)))
      ([], 0) in
  {| assignments := assignments; totalCost := totalCost |}.

(** [hungarian], lines 15-143. *)
Definition hungarian (fuel : nat) (costMatrix : list (list Z)) : option HungarianOutput :=
  let n := Nat.max (rowCount costMatrix) (colCount costMatrix) in
  match run fuel fuel n (initialState costMatrix) with
  | Some s => Some (extract costMatrix (masks s))
  | None => None
  end.

End Hungarian.

(** ** [src/algorithms/kruskal.ts] *)
Module Kruskal.

Record Edge : Type := { u : string; v : string; weight : Z }.

Record KruskalOutput : Type := { mstEdges : list Edge; totalWeight : Z }.

#[global] Instance Edge_eq_dec : EqDecision Edge.
Proof. solve_decision. Defined.

(** The two objects of the class [UnionFind], used as maps. *)
Record UnionFind : Type :=
  { parent : gmap string string; rank : gmap string nat }.

(** Lines 18-25: [new UnionFind(nodes)]. *)
Definition newUnionFind (nodes : list string) : UnionFind :=
  foldl (fun uf node =>
           {| parent := <[node := node]> (parent uf);
              rank := <[node := 0%nat]> (rank uf) |})
        {| parent := ∅; rank := ∅ |} nodes.

(** Lines 27-38: [find], a recursion along the parent pointers; it
    returns the representative and the updated structure. *)
Fixpoint find (fuel : nat) (uf : UnionFind) (nodeId : string)
  : option (string * UnionFind) :=
  match fuel with
  | O => None
  | S fuel' =>
      let uf :=
        match parent uf !! nodeId with
        | None => {| parent := <[nodeId := nodeId]> (parent uf);
                     rank := <[nodeId := 0%nat]> (rank uf) |}
        | Some _ => uf
        end in
      match parent uf !! nodeId with
      | None => None
      | Some p =>
          if decide (p = nodeId) then Some (nodeId, uf)
          else
            match find fuel' uf p with
            | None => None
            | Some (root, uf) =>
                Some (root, {| parent := <[nodeId := root]> (parent uf);
                               rank := rank uf |})
            end
      end
  end.

(** [this.rank[x]] *)
Definition rankOf (uf : UnionFind) (x : string) : nat := default 0%nat (rank uf !! x).

(** Lines 40-57: [union]. *)
Definition union (fuel : nat) (uf : UnionFind) (nodeA nodeB : string)
  : option (bool * UnionFind) :=
  match find fuel uf nodeA with
  | None => None
  | Some (rootA, uf) =>
      match find fuel uf nodeB with
      | None => None
      | Some (rootB, uf) =>
          if decide (rootA <> rootB) then
            if (rankOf uf rootB <? rankOf uf rootA)%nat then
              Some (true, {| parent := <[rootB := rootA]> (parent uf); rank := rank uf |})
            else if (rankOf uf rootA <? rankOf uf rootB)%nat then
              Some (true, {| parent := <[rootA := rootB]> (parent uf); rank := rank uf |})
            else
              Some (true, {| parent := <[rootB := rootA]> (parent uf);
                             rank := <[rootA := S (rankOf uf rootA)]> (rank uf) |})
          else Some (false, uf)
      end
  end.

(** Line 65: [.sort((a, b) => a.weight - b.weight)].  The sort of an
    array is stable, and a stable sort is determined by its comparator:
    each element is inserted in front of the sorted rest, before the first
    element that is not lighter. *)
Fixpoint insertByWeight (e : Edge) (l : list Edge) : list Edge :=
  match l with
  | [] => [e]
  | x :: l' => if weight e <=? weight x then e :: l else x :: insertByWeight e l'
  end.

Definition sortByWeight (edges : list Edge) : list Edge :=
  foldr insertByWeight [] edges.

(** Lines 69-75: the loop over the sorted edges. *)
Fixpoint kruskalLoop (fuel : nat) (unionFind : UnionFind) (sortedEdges : list Edge)
    (mstEdges : list Edge) (totalWeight : Z) : option KruskalOutput :=
  match sortedEdges with
  | [] => Some {| mstEdges := mstEdges; totalWeight := totalWeight |}
  | edge :: rest =>
      match union fuel unionFind (u edge) (v edge) with
      | None => None
      | Some (true, unionFind) =>
          kruskalLoop fuel unionFind rest (mstEdges ++ [edge]) (totalWeight + weight edge)
      | Some (false, unionFind) =>
          kruskalLoop fuel unionFind rest mstEdges totalWeight
      end
  end.

(** [kruskal], lines 60-78, as a function of the contents of its two
    arguments. *)
Definition kruskal (fuel : nat) (nodes : list string) (edges : list Edge)
  : option KruskalOutput :=
  let sortedEdges := sortByWeight edges in
  let unionFind := newUnionFind nodes in
  kruskalLoop fuel unionFind sortedEdges [] 0.

(** *** The same function on a store of arrays

    Arrays are mutable objects, passed by reference: the store maps the
    address of an array to its contents.  The edge records are never
    written to, and are kept as values. *)
Inductive array : Type :=
| EdgeArray (es : list Edge)
| StringArray (ss : list string).

Definition alloc (h : gmap nat array) (a : array) : nat * gmap nat array :=
  let l := fresh (dom h) in (l, <[l := a]> h).

(** The loop of lines 69-75, pushing onto the array at [mst]. *)
Fixpoint kruskalLoopRef (fuel : nat) (unionFind : UnionFind) (sortedEdges : list Edge)
    (mst : nat) (totalWeight : Z) (h : gmap nat array) : option (Z * gmap nat array) :=
  match sortedEdges with
  | [] => Some (totalWeight, h)
  | edge :: rest =>
      match union fuel unionFind (u edge) (v edge) with
      | None => None
      | Some (true, unionFind) =>
          match h !! mst with
          | Some (EdgeArray es) =>
              kruskalLoopRef fuel unionFind rest mst (totalWeight + weight edge)
                             (<[mst := EdgeArray (es ++ [edge])]> h)
          | _ => None
          end
      | Some (false, unionFind) => kruskalLoopRef fuel unionFind rest mst totalWeight h
      end
  end.

(** [kruskal] called with the addresses of the two arrays; it returns the
    address of [mstEdges], the total weight and the final store. *)
Definition kruskalRef (fuel : nat) (nodes edges : nat) (h : gmap nat array)
  : option (nat * Z * gmap nat array) :=
  match h !! nodes, h !! edges with
  | Some (StringArray ns), Some (EdgeArray es) =>
      (* const mstEdges = [] *)
      let '(mst, h) := alloc h (EdgeArray []) in
      (* const sortedEdges = [...edges] *)
      let '(sorted, h) := alloc h (EdgeArray es) in
      (* .sort(...), in place on the copy *)
      let h := <[sorted := EdgeArray (sortByWeight es)]> h in
      let unionFind := newUnionFind ns in
      match h !! sorted with
      | Some (EdgeArray sortedEdges) =>
          match kruskalLoopRef fuel unionFind sortedEdges mst 0 h with
          | Some (totalWeight, h) => Some (mst, totalWeight, h)
          | None => None
          end
      | _ => None
      end
  | _, _ => None
  end.

End Kruskal.

(** ** [src/algorithms/dijkstra.ts] *)
Module Dijkstra.
Import Num.

Record Edge : Type := { neighborId : string; weight : Z }.

Record DijkstraOutput : Type :=
  { distances : gmap string num;
    predecessors : gmap string (option string) }.

Record QueueItem : Type := { nodeId : string; distance : num }.

(** Line 35: [priorityQueue.sort((a, b) => a.distance - b.distance)],
    a stable sort. *)
Fixpoint insertByDistance (x : QueueItem) (l : list QueueItem) : list QueueItem :=
  match l with
  | [] => [x]
  | y :: l' => if leb (distance x) (distance y) then x :: l else y :: insertByDistance x l'
  end.

Definition sortByDistance (q : list QueueItem) : list QueueItem :=
  foldr insertByDistance [] q.

(** The variables that the main loop updates. *)
Record state : Type :=
  { dist : gmap string num;
    pred : gmap string (option string);
    visited : gset string;
    priorityQueue : list QueueItem }.

(** Lines 47-54: the body of the loop over the edges of the current node.
    A distance that is [undefined] makes the sum or the comparison false. *)
Definition relax (currentNodeId : string) (s : state) (e : Edge) : state :=
  match dist s !! currentNodeId, dist s !! neighborId e with
  | Some dc, Some dn =>
      let newDistance := addFin dc (weight e) in
      if ltb newDistance dn then
        {| dist := <[neighborId e := newDistance]> (dist s);
           pred := <[neighborId e := Some currentNodeId]> (pred s);
           visited := visited s;
           priorityQueue :=
             priorityQueue s ++ [{| nodeId := neighborId e; distance := newDistance |}] |}
      else s
  | _, _ => s
  end.

(** Lines 33-55: [while (priorityQueue.length > 0)]. *)
Fixpoint loop (fuel : nat) (graph : gmap string (list Edge)) (s : state)
  : option state :=
  match sortByDistance (priorityQueue s) with
  | [] => Some s
  | item :: rest =>
      match fuel with
      | O => None
      | S fuel' =>
          let currentNodeId := nodeId item in
          if decide (currentNodeId ∈ visited s) then
            loop fuel' graph
                 {| dist := dist s; pred := pred s; visited := visited s;
                    priorityQueue := rest |}
          else
            let s := {| dist := dist s; pred := pred s;
                        visited := {[currentNodeId]} ∪ visited s;
                        priorityQueue := rest |} in
            match graph !! currentNodeId with
            | None => loop fuel' graph s
            | Some edges => loop fuel' graph (foldl (relax currentNodeId) s edges)
            end
      end
  end.

(** [dijkstra], lines 17-58. *)
Definition dijkstra (fuel : nat) (graph : gmap string (list Edge)) (startNode : string)
  : option DijkstraOutput :=
  let distances : gmap string num := (fun _ => Inf) <$> graph in
  let predecessors : gmap string (option string) := (fun _ => None) <$> graph in
  let distances := <[startNode := Fin 0]> distances in
  let priorityQueue := [{| nodeId := startNode; distance := Fin 0 |}] in
  match loop fuel graph {| dist := distances; pred := predecessors; visited := ∅;
                           priorityQueue := priorityQueue |} with
  | Some s => Some {| distances := dist s; predecessors := pred s |}
  | None => None
  end.

End Dijkstra.

(** ** The distance and cost-matrix helpers *)
Module CostMatrix.
Import Loops.

(** Coordinates are taken on the integer grid. *)
Record Node : Type := { id : string; lat : Z; lng : Z }.

Inductive Method : Type := euclidean | haversine.

Record BuildCostMatrixOptions : Type :=
  { method : option Method; timePerKm : option Z }.

Record Pair : Type := { driverId : string; passengerId : string; cost : Z }.

(** [euclideanDistance].  [Math.sqrt] is exact on a perfect square, where
    it is [Z.sqrt]; on other arguments [Z.sqrt] rounds down, and the
    embedding is exact only up to that rounding. *)
Definition euclideanDistance (lat1 lng1 lat2 lng2 : Z) : Z :=
  let deltaLat := lat2 - lat1 in
  let deltaLng := lng2 - lng1 in
  Z.sqrt (deltaLat * deltaLat + deltaLng * deltaLng).

Section WithHaversine.

(** [haversineDistance] is built from trigonometric functions, and is a
    parameter of the embedding. *)
Variable haversineDistance : Z -> Z -> Z -> Z -> Z.

Definition distanceFunc (m : Method) : Z -> Z -> Z -> Z -> Z :=
  match m with haversine => haversineDistance | euclidean => euclideanDistance end.

(** [buildCostMatrix] *)
Definition buildCostMatrix (drivers passengers : list Node)
    (options : BuildCostMatrixOptions) : list (list Z) * list Pair :=
  let method := default euclidean (method options) in
  let timePerKm := default 2 (timePerKm options) in
  foldl (fun '(matrix, pairs) driver =>
           let '(row, pairs) :=
             foldl (fun '(row, pairs) passenger =>
                      let distance :=
                        distanceFunc method (lat driver) (lng driver)
                                     (lat passenger) (lng passenger) in
                      let cost := distance * timePerKm in
                      (row ++ [cost],
                       pairs ++ [{| driverId := id driver;
                                    passengerId := id passenger;
                                    cost := cost |}]))
                   ([], pairs) passengers in
           (matrix ++ [row], pairs))
        ([], []) drivers.

(** [sumNaiveAssignments] *)
Definition sumNaiveAssignments (drivers passengers : list Node) (method : option Method)
  : Z :=
  let method := default euclidean method in
  let timePerKm := 2 in
  let assignmentCount := Nat.min (length drivers) (length passengers) in
  for_range assignmentCount (fun i totalCost =>
    match drivers !! i, passengers !! i with
    | Some driver, Some passenger =>
        let distance :=
          distanceFunc method (lat driver) (lng driver) (lat passenger) (lng passenger) in
        totalCost + distance * timePerKm
    | _, _ => totalCost
    end) 0.

End WithHaversine.

End CostMatrix.

(* ===================================================================== *)
(** * Part II: the theory of the embedding                                 *)
(* ===================================================================== *)

(** ** Counted loops and two-dimensional arrays *)
Module LoopFacts.
Import Loops.
Local Open Scope nat_scope.

Lemma for_range_S {S : Type} (n : nat) (body : nat -> S -> S) (s : S) :
  for_range (Datatypes.S n) body s = body n (for_range n body s).
Proof.
  unfold for_range. rewrite seq_S, foldl_app. reflexivity.
Qed.

Lemma for_range_0 {S : Type} (body : nat -> S -> S) (s : S) :
  for_range 0 body s = s.
Proof. reflexivity. Qed.

(** The rule of loop invariants. *)
Lemma for_range_ind {S : Type} (P : nat -> S -> Prop) (n : nat)
    (body : nat -> S -> S) (s : S) :
  P 0 s ->
  (forall i s, i < n -> P i s -> P (Datatypes.S i) (body i s)) ->
  P n (for_range n body s).
Proof.
  intros H0 Hstep. induction n as [|n IH].
  - exact H0.
  - rewrite for_range_S. apply Hstep; [lia|]. apply IH.
    intros i s' Hi. apply Hstep. lia.
Qed.

(** An invariant that does not mention the counter. *)
Lemma for_range_inv {S : Type} (P : S -> Prop) (n : nat)
    (body : nat -> S -> S) (s : S) :
  P s -> (forall i s, i < n -> P s -> P (body i s)) -> P (for_range n body s).
Proof.
  intros H0 Hstep. apply (for_range_ind (fun _ => P)); auto.
Qed.

Lemma first_some_Some {A : Type} (f : nat -> option A) (l : list nat) (a : A) :
  first_some f l = Some a ->
  exists l1 i l2, l = l1 ++ i :: l2 /\ f i = Some a /\ forall k, k ∈ l1 -> f k = None.
Proof.
  induction l as [|i l IH]; simpl; [discriminate|].
  destruct (f i) as [b|] eqn:E.
  - intros [= ->]. exists [], i, l. split; [reflexivity|]. split; [exact E|].
    intros k Hk. inversion Hk.
  - intros H. destruct (IH H) as (l1 & k & l2 & -> & Hk & Hl1).
    exists (i :: l1), k, l2. split; [reflexivity|]. split; [exact Hk|].
    intros k' Hk'. apply elem_of_cons in Hk' as [->|Hk']; auto.
Qed.

Lemma first_some_None {A : Type} (f : nat -> option A) (l : list nat) :
  first_some f l = None <-> forall i, i ∈ l -> f i = None.
Proof.
  induction l as [|i l IH]; simpl.
  - split; [|reflexivity]. intros _ i Hi. inversion Hi.
  - destruct (f i) as [b|] eqn:E.
    + split; [discriminate|]. intros H. rewrite <- E. apply H. left.
    + rewrite IH. split.
      * intros H k Hk. apply elem_of_cons in Hk as [->|Hk]; auto.
      * intros H k Hk. apply H. right. exact Hk.
Qed.

Lemma for_return_Some {A : Type} (n : nat) (f : nat -> option A) (a : A) :
  for_return n f = Some a ->
  exists i, i < n /\ f i = Some a /\ forall k, k < i -> f k = None.
Proof.
  unfold for_return. intros H.
  destruct (first_some_Some _ _ _ H) as (l1 & i & l2 & Hl & Hi & Hl1).
  assert (Hlen : i = length l1).
  { assert (Hlk : seq 0 n !! length l1 = Some i).
    { rewrite Hl. rewrite lookup_app_r by lia. rewrite Nat.sub_diag. reflexivity. }
    apply lookup_seq in Hlk. lia. }
  assert (Hin : i < n).
  { assert (Hel : i ∈ seq 0 n) by (rewrite Hl; set_solver).
    apply elem_of_seq in Hel. lia. }
  exists i. split; [exact Hin|]. split; [exact Hi|].
  intros k Hk. apply Hl1.
  assert (Hlk : seq 0 n !! k = Some k) by (apply lookup_seq; lia).
  rewrite Hl in Hlk. rewrite lookup_app_l in Hlk by lia.
  eapply list_elem_of_lookup_2. exact Hlk.
Qed.

Lemma for_return_None {A : Type} (n : nat) (f : nat -> option A) :
  for_return n f = None <-> forall i, i < n -> f i = None.
Proof.
  unfold for_return. rewrite first_some_None. split.
  - intros H i Hi. apply H. apply elem_of_seq. lia.
  - intros H i Hi. apply H. apply elem_of_seq in Hi. lia.
Qed.

Lemma for_return_is_Some {A : Type} (n : nat) (f : nat -> option A) (i : nat) :
  i < n -> is_Some (f i) -> is_Some (for_return n f).
Proof.
  intros Hi [a Ha]. destruct (for_return n f) eqn:E; [eauto|].
  rewrite for_return_None in E. rewrite (E i Hi) in Ha. discriminate.
Qed.

(** *** Two-dimensional arrays *)

Definition lookup2 {A : Type} (m : list (list A)) (i j : nat) : option A :=
  m !! i ≫= (.!! j).

Lemma cell_lookup2 {A : Type} (d : A) (m : list (list A)) (i j : nat) :
  cell d m i j = default d (lookup2 m i j).
Proof.
  unfold cell, lookup2. rewrite !nth_lookup.
  destruct (m !! i) as [row|]; simpl; [reflexivity|]. destruct j; reflexivity.
Qed.

Lemma lookup2_modCell {A : Type} (m : list (list A)) (i j : nat) (f : A -> A)
    (i' j' : nat) :
  lookup2 (modCell m i j f) i' j' =
    if decide (i = i' /\ j = j') then f <$> lookup2 m i j else lookup2 m i' j'.
Proof.
  unfold lookup2, modCell. rewrite list_lookup_alter.
  destruct (decide (i = i')) as [<-|Hi].
  - destruct (m !! i) as [row|]; simpl.
    + rewrite list_lookup_alter.
      destruct (decide (j = j')) as [<-|Hj].
      * rewrite decide_True by auto. reflexivity.
      * rewrite decide_False by (intros [_ ?]; auto). reflexivity.
    + destruct (decide _); reflexivity.
  - rewrite decide_False by (intros [? _]; auto). reflexivity.
Qed.

Definition square {A : Type} (n : nat) (m : list (list A)) : Prop :=
  length m = n /\ forall i row, m !! i = Some row -> length row = n.

Lemma square_replicate {A : Type} (n : nat) (x : A) :
  square n (replicate n (replicate n x)).
Proof.
  split; [apply length_replicate|].
  intros i row H. apply lookup_replicate in H as [-> _]. apply length_replicate.
Qed.

Lemma lookup2_square {A : Type} (n : nat) (m : list (list A)) (i j : nat) :
  square n m -> i < n -> j < n -> is_Some (lookup2 m i j).
Proof.
  intros [Hlen Hrows] Hi Hj. unfold lookup2.
  destruct (lookup_lt_is_Some_2 m i) as [row Hrow]; [lia|].
  rewrite Hrow. simpl. apply lookup_lt_is_Some_2. rewrite (Hrows _ _ Hrow). lia.
Qed.

Lemma lookup2_square_None {A : Type} (n : nat) (m : list (list A)) (i j : nat) :
  square n m -> n <= i \/ n <= j -> lookup2 m i j = None.
Proof.
  intros [Hlen Hrows] H. unfold lookup2.
  destruct (m !! i) as [row|] eqn:E; simpl; [|reflexivity].
  apply lookup_ge_None_2. rewrite (Hrows _ _ E).
  destruct H as [H|H]; [|lia].
  apply lookup_lt_Some in E. lia.
Qed.

Lemma cell_replicate {A : Type} (d : A) (n k : nat) (x : A) (i j : nat) :
  cell d (replicate n (replicate k x)) i j = if decide (i < n /\ j < k) then x else d.
Proof.
  rewrite cell_lookup2. unfold lookup2.
  destruct (decide (i < n /\ j < k)) as [[Hi Hj]|Hn].
  - rewrite (proj2 (lookup_replicate _ _ _ _)) by auto. simpl.
    rewrite (proj2 (lookup_replicate _ _ _ _)) by auto. reflexivity.
  - destruct (replicate n (replicate k x) !! i) as [row|] eqn:E; simpl; [|reflexivity].
    apply lookup_replicate in E as [-> Hi].
    assert (Hk : k <= j) by lia.
    apply (lookup_replicate_None k x j) in Hk. rewrite Hk. reflexivity.
Qed.

Lemma cell_out {A : Type} (d : A) (n : nat) (m : list (list A)) (i j : nat) :
  square n m -> n <= i \/ n <= j -> cell d m i j = d.
Proof.
  intros Hsq H. rewrite cell_lookup2, (lookup2_square_None n) by auto. reflexivity.
Qed.

Lemma square_modCell {A : Type} (n : nat) (m : list (list A)) (i j : nat) (f : A -> A) :
  square n m -> square n (modCell m i j f).
Proof.
  intros [Hlen Hrows]. unfold modCell. split.
  - rewrite length_alter. exact Hlen.
  - intros k row Hk. rewrite list_lookup_alter in Hk.
    destruct (decide (i = k)) as [->|Hne]; [|eauto].
    destruct (m !! k) as [r|] eqn:E; simpl in Hk; [|discriminate].
    injection Hk as <-. rewrite length_alter. eauto.
Qed.

Lemma cell_modCell {A : Type} (d : A) (n : nat) (m : list (list A))
    (i j : nat) (f : A -> A) (i' j' : nat) :
  square n m -> i < n -> j < n ->
  cell d (modCell m i j f) i' j' =
    if decide (i = i' /\ j = j') then f (cell d m i j) else cell d m i' j'.
Proof.
  intros Hsq Hi Hj. rewrite !cell_lookup2, lookup2_modCell.
  destruct (decide _) as [_|_]; [|reflexivity].
  destruct (lookup2_square n m i j Hsq Hi Hj) as [x ->]. reflexivity.
Qed.

(** A write outside the array leaves every cell as it is. *)
Lemma cell_modCell_out {A : Type} (d : A) (n : nat) (m : list (list A))
    (i j : nat) (f : A -> A) (i' j' : nat) :
  square n m -> n <= i \/ n <= j ->
  cell d (modCell m i j f) i' j' = cell d m i' j'.
Proof.
  intros Hsq H. rewrite !cell_lookup2, lookup2_modCell.
  destruct (decide _) as [[<- <-]|_]; [|reflexivity].
  rewrite (lookup2_square_None n) by auto. reflexivity.
Qed.

(** Reading a cover array. *)
Lemma nth_insert_bool (l : list bool) (i k : nat) (b : bool) :
  nth k (<[i := b]> l) false =
    if decide (i = k /\ i < length l) then b else nth k l false.
Proof.
  rewrite !nth_lookup, list_lookup_insert.
  destruct (decide (i = k /\ i < length l)); reflexivity.
Qed.

Lemma nth_fill_false (l : list bool) (k : nat) : nth k (fill l false) false = false.
Proof.
  unfold fill. rewrite nth_lookup.
  destruct (replicate (length l) false !! k) as [b|] eqn:E; [|reflexivity].
  apply lookup_replicate in E as [-> _]. reflexivity.
Qed.

Lemma length_fill {A : Type} (l : list A) (x : A) : length (fill l x) = length l.
Proof. apply length_replicate. Qed.

(** [indexOf] *)
Lemma indexOf_Some (a : list nat) (x j : nat) :
  indexOf a x = Some j ->
  j < length a /\ nth j a 0 = x /\ forall k, k < j -> nth k a 0 <> x.
Proof.
  unfold indexOf. intros H. apply for_return_Some in H as (i & Hi & Hf & Hlt).
  destruct (Nat.eqb_spec (nth i a 0) x) as [Heq|Hne]; [|discriminate].
  injection Hf as <-. split; [exact Hi|]. split; [exact Heq|].
  intros k Hk Hx. specialize (Hlt k Hk).
  rewrite Hx, Nat.eqb_refl in Hlt. discriminate.
Qed.

Lemma indexOf_None (a : list nat) (x : nat) :
  x <> 0 -> indexOf a x = None <-> forall k, nth k a 0 <> x.
Proof.
  intros Hx. unfold indexOf. rewrite for_return_None. split.
  - intros H k Hk. destruct (decide (k < length a)) as [Hlt|Hge].
    + specialize (H k Hlt). rewrite Hk, Nat.eqb_refl in H. discriminate.
    + rewrite nth_overflow in Hk by lia. congruence.
  - intros H k Hk. destruct (Nat.eqb_spec (nth k a 0) x) as [Heq|Hne]; [|reflexivity].
    exfalso. exact (H k Heq).
Qed.

End LoopFacts.

(** ** Nested loops over the cells of an array *)
Module NestedLoops.
Import Loops LoopFacts.
Local Open Scope nat_scope.

(** The cell [(i', j')] comes before [(i, j)] in row-major order, within
    rows of [b] cells. *)
Definition before (b i j i' j' : nat) : Prop :=
  (i' < i /\ j' < b) \/ (i' = i /\ j' < j).

#[global] Instance before_dec b i j i' j' : Decision (before b i j i' j').
Proof. unfold before. apply _. Defined.

Lemma before_0 b i' j' : ~ before b 0 0 i' j'.
Proof. unfold before. lia. Qed.

Lemma before_S_col b i j i' j' :
  before b i (S j) i' j' <-> before b i j i' j' \/ (i' = i /\ j' = j).
Proof. unfold before. lia. Qed.

Lemma before_S_row b i i' j' :
  before b (S i) 0 i' j' <-> before b i b i' j'.
Proof. unfold before. lia. Qed.

Lemma before_end a b i' j' :
  before b a 0 i' j' <-> i' < a /\ j' < b.
Proof. unfold before. lia. Qed.

(** The rule of invariants for two nested counted loops. *)
Lemma for2_ind {S : Type} (P : nat -> nat -> S -> Prop) (a b : nat)
    (body : nat -> nat -> S -> S) (s : S) :
  P 0 0 s ->
  (forall i j s, i < a -> j < b -> P i j s -> P i (Datatypes.S j) (body i j s)) ->
  (forall i s, i < a -> P i b s -> P (Datatypes.S i) 0 s) ->
  P a 0 (for_range a (fun i => for_range b (body i)) s).
Proof.
  intros H0 Hcol Hrow.
  apply (for_range_ind (fun i => P i 0)); [exact H0|].
  intros i s' Hi HP. apply Hrow; [exact Hi|].
  apply (for_range_ind (fun j => P i j)); [exact HP|].
  intros j s'' Hj HP'. apply Hcol; assumption.
Qed.

(** A loop body that rewrites the cell it visits, and only that one. *)
Definition cellLocal {A : Type} (d : A) (n : nat)
    (body : nat -> nat -> list (list A) -> list (list A))
    (g : nat -> nat -> A -> A) : Prop :=
  forall i j m, square n m -> i < n -> j < n ->
    square n (body i j m) /\
    forall i' j', cell d (body i j m) i' j' =
      if decide (i = i' /\ j = j') then g i j (cell d m i j) else cell d m i' j'.

Lemma for2_cellLocal {A : Type} (d : A) (n a b : nat)
    (body : nat -> nat -> list (list A) -> list (list A))
    (g : nat -> nat -> A -> A) (m : list (list A)) :
  cellLocal d n body g -> a <= n -> b <= n -> square n m ->
  square n (for_range a (fun i => for_range b (body i)) m) /\
  forall i' j', cell d (for_range a (fun i => for_range b (body i)) m) i' j' =
    if decide (i' < a /\ j' < b) then g i' j' (cell d m i' j') else cell d m i' j'.
Proof.
  intros Hloc Ha Hb Hsq.
  pose (P := fun i j (r : list (list A)) =>
    square n r /\
    forall i' j', cell d r i' j' =
      if decide (before b i j i' j') then g i' j' (cell d m i' j') else cell d m i' j').
  assert (HP : P a 0 (for_range a (fun i => for_range b (body i)) m)).
  { apply for2_ind.
    - split; [exact Hsq|]. intros i' j'.
      rewrite decide_False by apply before_0. reflexivity.
    - intros i j r Hi Hj [Hr Hc].
      destruct (Hloc i j r Hr) as [Hr' Hc']; [lia|lia|].
      split; [exact Hr'|]. intros i' j'. rewrite Hc'.
      destruct (decide (i = i' /\ j = j')) as [[<- <-]|Hne].
      + rewrite decide_True by (apply before_S_col; auto).
        rewrite Hc. rewrite decide_False by (unfold before; lia). reflexivity.
      + rewrite Hc. destruct (decide (before b i j i' j')) as [Hbf|Hnb].
        * rewrite decide_True by (apply before_S_col; auto). reflexivity.
        * rewrite decide_False; [reflexivity|].
          rewrite before_S_col. intros [?|[-> ->]]; auto.
    - intros i r Hi [Hr Hc]. split; [exact Hr|]. intros i' j'. rewrite Hc.
      destruct (decide (before b i b i' j')) as [Hbf|Hnb].
      + rewrite decide_True by (apply before_S_row; auto). reflexivity.
      + rewrite decide_False; [reflexivity|]. rewrite before_S_row. exact Hnb. }
  destruct HP as [Hr Hc]. split; [exact Hr|]. intros i' j'. rewrite Hc.
  destruct (decide (before b a 0 i' j')) as [Hbf|Hnb].
  - rewrite decide_True by (apply before_end; auto). reflexivity.
  - rewrite decide_False; [reflexivity|]. rewrite <- before_end. exact Hnb.
Qed.

Lemma cellLocal_modCell {A : Type} (d : A) (n : nat) (g : nat -> nat -> A -> A) :
  cellLocal d n (fun i j m => modCell m i j (g i j)) g.
Proof.
  intros i j m Hsq Hi Hj. split; [apply square_modCell; exact Hsq|].
  intros i' j'. apply (cell_modCell d n); assumption.
Qed.

End NestedLoops.

(** ** The Hungarian solver: the matrix before the step machine *)
Module HungarianShape.
Import Num Loops LoopFacts NestedLoops Hungarian.
Local Open Scope nat_scope.

(** Every row has the length of the first one. *)
Definition rectangular (costMatrix : list (list Z)) : Prop :=
  Forall (fun row => length row = colCount costMatrix) costMatrix.

(** The side [n] of the padded square. *)
Definition side (costMatrix : list (list Z)) : nat :=
  Nat.max (rowCount costMatrix) (colCount costMatrix).

(** The cells of the square that come from the cost matrix. *)
Definition real (costMatrix : list (list Z)) (i j : nat) : Prop :=
  i < rowCount costMatrix /\ j < colCount costMatrix.

#[global] Instance real_dec cm i j : Decision (real cm i j).
Proof. unfold real. apply _. Defined.

(** A square matrix whose finite entries are exactly the original cells. *)
Definition shaped (costMatrix : list (list Z)) (matrix : list (list num)) : Prop :=
  square (side costMatrix) matrix /\
  forall i j, isFinite (entry matrix i j) = true <-> real costMatrix i j.

Lemma rectangular_lookup (cm : list (list Z)) (i j : nat) :
  rectangular cm -> real cm i j -> is_Some (cm !! i ≫= (.!! j)).
Proof.
  intros Hrect [Hi Hj]. unfold rowCount in Hi.
  destruct (lookup_lt_is_Some_2 cm i Hi) as [row Hrow].
  rewrite Hrow. simpl. apply lookup_lt_is_Some_2.
  unfold rectangular in Hrect. rewrite Forall_forall in Hrect.
  rewrite (Hrect row); [exact Hj|]. eapply list_elem_of_lookup_2. exact Hrow.
Qed.

Lemma entry_padMatrix (cm : list (list Z)) (i j : nat) :
  square (side cm) (padMatrix cm) /\
  entry (padMatrix cm) i j =
    if decide (real cm i j)
    then match cm !! i ≫= (.!! j) with Some z => Fin z | None => Inf end
    else Inf.
Proof.
  unfold padMatrix, entry. fold (side cm).
  set (v := fun i j => match cm !! i ≫= (.!! j) with Some z => Fin z | None => Inf end).
  destruct (for2_cellLocal Inf (side cm) (rowCount cm) (colCount cm)
              (fun i j m => setCell m i j (v i j)) (fun i j _ => v i j)
              (replicate (side cm) (replicate (side cm) Inf))) as [Hsq Hc].
  - apply (cellLocal_modCell Inf (side cm) (fun i j _ => v i j)).
  - unfold side. lia.
  - unfold side. lia.
  - apply square_replicate.
  - split; [exact Hsq|]. rewrite Hc. unfold real.
    destruct (decide _) as [_|Hn]; [reflexivity|].
    rewrite cell_replicate. destruct (decide _); reflexivity.
Qed.

Lemma shaped_padMatrix (cm : list (list Z)) :
  rectangular cm -> shaped cm (padMatrix cm).
Proof.
  intros Hrect. split; [apply (entry_padMatrix cm 0 0)|].
  intros i j. rewrite (proj2 (entry_padMatrix cm i j)).
  destruct (decide (real cm i j)) as [Hr|Hn].
  - destruct (rectangular_lookup cm i j Hrect Hr) as [z ->]. simpl. tauto.
  - simpl. split; [discriminate|tauto].
Qed.

(** The finite entries stay where they are. *)
Definition sameFinite (n : nat) (m0 m : list (list num)) : Prop :=
  square n m /\ forall i j, isFinite (entry m i j) = isFinite (entry m0 i j).

Lemma sameFinite_refl n m : square n m -> sameFinite n m m.
Proof. intros H. split; [exact H|reflexivity]. Qed.

Lemma sameFinite_modCell n m0 m i j f :
  (forall x, isFinite (f x) = isFinite x) ->
  sameFinite n m0 m -> i < n -> j < n -> sameFinite n m0 (modCell m i j f).
Proof.
  intros Hf [Hsq Hfin] Hi Hj. split; [apply square_modCell; exact Hsq|].
  intros i' j'. unfold entry. rewrite (cell_modCell Inf n) by assumption.
  destruct (decide _) as [[<- <-]|_]; [|apply Hfin].
  rewrite Hf. apply Hfin.
Qed.

Lemma sameFinite_shaped cm m0 m :
  shaped cm m0 -> sameFinite (side cm) m0 m -> shaped cm m.
Proof.
  intros [_ H0] [Hsq Hfin]. split; [exact Hsq|].
  intros i j. rewrite Hfin. apply H0.
Qed.

Lemma isFinite_subtractFinite min x : isFinite (subtractFinite min x) = isFinite x.
Proof. destruct min, x; reflexivity. Qed.

Lemma sameFinite_subtractRowMinima n m :
  square n m -> sameFinite n m (subtractRowMinima n m).
Proof.
  intros Hsq. unfold subtractRowMinima.
  apply (for_range_inv (sameFinite n m)); [apply sameFinite_refl; exact Hsq|].
  intros i r Hi Hr. destruct (isFinite _); [|exact Hr].
  apply (for_range_inv (sameFinite n m)); [exact Hr|].
  intros j r' Hj Hr'. apply sameFinite_modCell; auto using isFinite_subtractFinite.
Qed.

Lemma sameFinite_subtractColMinima n m :
  square n m -> sameFinite n m (subtractColMinima n m).
Proof.
  intros Hsq. unfold subtractColMinima.
  apply (for_range_inv (sameFinite n m)); [apply sameFinite_refl; exact Hsq|].
  intros j r Hj Hr. destruct (isFinite _); [|exact Hr].
  apply (for_range_inv (sameFinite n m)); [exact Hr|].
  intros i r' Hi Hr'. apply sameFinite_modCell; auto using isFinite_subtractFinite.
Qed.

Lemma shaped_reduced (cm : list (list Z)) :
  rectangular cm ->
  shaped cm (subtractColMinima (side cm) (subtractRowMinima (side cm) (padMatrix cm))).
Proof.
  intros Hrect. pose proof (shaped_padMatrix cm Hrect) as Hp.
  assert (H1 : shaped cm (subtractRowMinima (side cm) (padMatrix cm))).
  { eapply sameFinite_shaped; [exact Hp|].
    apply sameFinite_subtractRowMinima. apply Hp. }
  eapply sameFinite_shaped; [exact H1|].
  apply sameFinite_subtractColMinima. apply H1.
Qed.

Lemma isZero_isFinite x : isZero x = true -> isFinite x = true.
Proof. destruct x; [reflexivity|discriminate]. Qed.

End HungarianShape.

(** ** The Hungarian solver: the search functions *)
Module HungarianFind.
Import Num Loops LoopFacts NestedLoops Hungarian HungarianShape.
Local Open Scope nat_scope.

Lemma mask_nth masks i j : mask masks i j = nth j (nth i masks []) 0.
Proof. reflexivity. Qed.

Lemma mask_out n masks i j : square n masks -> n <= i \/ n <= j -> mask masks i j = 0.
Proof. intros. unfold mask. eapply cell_out; eauto. Qed.

Lemma mask_bounds n masks i j :
  square n masks -> mask masks i j <> 0 -> i < n /\ j < n.
Proof.
  intros Hsq Hm. destruct (decide (i < n /\ j < n)) as [H|H]; [exact H|].
  exfalso. apply Hm. apply (mask_out n); [exact Hsq|lia].
Qed.

Lemma findStarInRow_Some masks r c :
  findStarInRow masks r = Some c -> mask masks r c = 1.
Proof. unfold findStarInRow. intros H. apply indexOf_Some in H. apply H. Qed.

Lemma findStarInRow_None masks r :
  findStarInRow masks r = None <-> forall c, mask masks r c <> 1.
Proof. unfold findStarInRow. rewrite indexOf_None by lia. reflexivity. Qed.

Lemma findPrimeInRow_Some masks r c :
  findPrimeInRow masks r = Some c ->
  mask masks r c = 2 /\ forall c', c' < c -> mask masks r c' <> 2.
Proof. unfold findPrimeInRow. intros H. apply indexOf_Some in H. apply H. Qed.

Lemma findPrimeInRow_None masks r :
  findPrimeInRow masks r = None <-> forall c, mask masks r c <> 2.
Proof. unfold findPrimeInRow. rewrite indexOf_None by lia. reflexivity. Qed.

(** The first prime of a row is found. *)
Lemma findPrimeInRow_first masks r c :
  mask masks r c = 2 -> (forall c', c' < c -> mask masks r c' <> 2) ->
  findPrimeInRow masks r = Some c.
Proof.
  intros Hc Hlt. destruct (findPrimeInRow masks r) as [c0|] eqn:E.
  - apply findPrimeInRow_Some in E as [H0 Hlt0]. f_equal.
    destruct (Nat.lt_trichotomy c0 c) as [H|[H|H]]; [|exact H|].
    + exfalso. exact (Hlt c0 H H0).
    + exfalso. exact (Hlt0 c H Hc).
  - rewrite findPrimeInRow_None in E. exfalso. exact (E c Hc).
Qed.

Lemma findStarInCol_Some masks c s :
  findStarInCol masks c = Some s -> mask masks s c = 1.
Proof.
  unfold findStarInCol. intros H. apply for_return_Some in H as (i & Hi & Hf & _).
  destruct (Nat.eqb_spec (mask masks i c) 1) as [Heq|Hne]; [|discriminate].
  injection Hf as <-. exact Heq.
Qed.

Lemma findStarInCol_None masks c :
  findStarInCol masks c = None <-> forall s, mask masks s c <> 1.
Proof.
  unfold findStarInCol. rewrite for_return_None. split.
  - intros H s Hs. destruct (decide (s < length masks)) as [Hlt|Hge].
    + specialize (H s Hlt). rewrite Hs in H. discriminate.
    + unfold mask in Hs. rewrite cell_lookup2 in Hs. unfold lookup2 in Hs.
      rewrite lookup_ge_None_2 in Hs by lia. discriminate.
  - intros H s Hs. destruct (Nat.eqb_spec (mask masks s c) 1) as [Heq|Hne];
      [|reflexivity]. exfalso. exact (H s Heq).
Qed.

Lemma findUncoveredZero_Some n matrix rowCover colCover r c :
  square n matrix ->
  findUncoveredZero matrix rowCover colCover = Some (r, c) ->
  r < n /\ c < n /\ isZero (entry matrix r c) = true /\
  covered rowCover r = false /\ covered colCover c = false.
Proof.
  intros [Hlen Hrows] H. unfold findUncoveredZero in H.
  apply for_return_Some in H as (i & Hi & Hf & _).
  destruct (covered rowCover i) eqn:Hr; simpl in Hf; [discriminate|].
  apply for_return_Some in Hf as (j & Hj & Hg & _).
  destruct (isZero (entry matrix i j)) eqn:Hz; simpl in Hg; [|discriminate].
  destruct (covered colCover j) eqn:Hc; simpl in Hg; [discriminate|].
  injection Hg as <- <-.
  destruct (lookup_lt_is_Some_2 matrix i Hi) as [row Hrow].
  rewrite (nth_lookup_Some _ _ _ _ Hrow), (Hrows _ _ Hrow) in Hj.
  repeat split; auto; lia.
Qed.

Lemma findUncoveredZero_None n matrix rowCover colCover :
  square n matrix ->
  findUncoveredZero matrix rowCover colCover = None ->
  forall i j, covered rowCover i = false -> covered colCover j = false ->
              isZero (entry matrix i j) = false.
Proof.
  intros [Hlen Hrows] H i j Hr Hc. unfold findUncoveredZero in H.
  rewrite for_return_None in H.
  destruct (decide (i < n /\ j < n)) as [[Hi Hj]|Hout].
  - specialize (H i). rewrite Hlen, Hr in H. specialize (H Hi). simpl in H.
    rewrite for_return_None in H.
    destruct (lookup_lt_is_Some_2 matrix i) as [row Hrow]; [lia|].
    rewrite (nth_lookup_Some _ _ _ _ Hrow), (Hrows _ _ Hrow) in H.
    specialize (H j Hj). rewrite Hc in H. simpl in H.
    destruct (isZero (entry matrix i j)); [discriminate|reflexivity].
  - unfold entry. rewrite (cell_out Inf n); [reflexivity|split; assumption|lia].
Qed.

(** What the minimum of the uncovered cells is: [Infinity] when all of
    them are, and otherwise the value of one of them. *)
Lemma findMinUncoveredValue_spec n matrix rowCover colCover :
  square n matrix ->
  match findMinUncoveredValue matrix rowCover colCover with
  | Inf => forall i j, i < n -> j < n -> covered rowCover i = false ->
                       covered colCover j = false -> entry matrix i j = Inf
  | Fin d => exists i j, i < n /\ j < n /\ covered rowCover i = false /\
                         covered colCover j = false /\ entry matrix i j = Fin d
  end.
Proof.
  intros [Hlen Hrows]. unfold findMinUncoveredValue. rewrite Hlen.
  pose (Q := fun (i j : nat) (acc : num) =>
    match acc with
    | Inf => forall i' j', (i' < i /\ j' < n) \/ (i' = i /\ j' < j) ->
               covered rowCover i' = false -> covered colCover j' = false ->
               entry matrix i' j' = Inf
    | Fin d => exists i' j', i' < n /\ j' < n /\ covered rowCover i' = false /\
                 covered colCover j' = false /\ entry matrix i' j' = Fin d
    end).
  assert (HQ : Q n 0 (for_range n (fun i minVal =>
    if negb (covered rowCover i) then
      for_range (length (nth i matrix [])) (fun j minVal =>
        if negb (covered colCover j) then min minVal (entry matrix i j) else minVal) minVal
    else minVal) Inf)).
  { apply (for_range_ind (fun i => Q i 0)).
    - simpl. intros i' j' Hb. lia.
    - intros i acc Hi HQ.
      destruct (lookup_lt_is_Some_2 matrix i) as [row Hrow]; [lia|].
      rewrite (nth_lookup_Some _ _ _ _ Hrow), (Hrows _ _ Hrow).
      destruct (covered rowCover i) eqn:Hr; simpl.
      + destruct acc as [d|]; simpl in *; [exact HQ|].
        intros i' j' Hb Hr' Hc'. destruct (decide (i' = i)) as [->|Hne];
          [congruence|]. apply HQ; [lia|assumption|assumption].
      + assert (HQn : Q i n (for_range n (fun j minVal =>
          if negb (covered colCover j) then min minVal (entry matrix i j) else minVal) acc)).
        { apply (for_range_ind (fun j => Q i j)); [exact HQ|].
          intros j acc' Hj HQ'. destruct (covered colCover j) eqn:Hc; simpl.
          - destruct acc' as [d|]; simpl in *; [exact HQ'|].
            intros i' j' Hb Hr' Hc'.
            destruct (decide (i' = i /\ j' = j)) as [[-> ->]|Hne]; [congruence|].
            apply HQ'; [lia|assumption|assumption].
          - destruct acc' as [d|]; simpl in *.
            + destruct (entry matrix i j) as [z|] eqn:Hz; simpl.
              * destruct (Z.min_spec d z) as [[_ ->]|[_ ->]]; [exact HQ'|].
                exists i, j. auto.
              * exact HQ'.
            + destruct (entry matrix i j) as [z|] eqn:Hz; simpl.
              * exists i, j. auto.
              * intros i' j' Hb Hr' Hc'.
                destruct (decide (i' = i /\ j' = j)) as [[-> ->]|Hne]; [exact Hz|].
                apply HQ'; [lia|assumption|assumption]. }
        destruct (for_range n _ acc) as [d|]; simpl in *; [exact HQn|].
        intros i' j' Hb. apply HQn. lia. }
  destruct (for_range n _ Inf) as [d|]; simpl in *; [exact HQ|].
  intros i j Hi Hj. apply HQ. lia.
Qed.

End HungarianFind.

(** ** The Hungarian solver: the invariants of the step machine *)
Module HungarianInv.
Import Num Loops LoopFacts NestedLoops Hungarian HungarianShape HungarianFind.
Local Open Scope nat_scope.

(** At most one star in a row, and in a column. *)
Definition independent (masks : list (list nat)) : Prop :=
  (forall i j j', mask masks i j = 1 -> mask masks i j' = 1 -> j = j') /\
  (forall i i' j, mask masks i j = 1 -> mask masks i' j = 1 -> i = i').

(** The stars and the primes sit on zeros of the matrix. *)
Definition marksOnZeros (matrix : list (list num)) (masks : list (list nat)) : Prop :=
  forall i j, mask masks i j = 1 \/ mask masks i j = 2 ->
              isZero (entry matrix i j) = true.

Record wf (cm : list (list Z)) (s : state) : Prop :=
  { wf_matrix : shaped cm (matrix s);
    wf_masks : square (side cm) (masks s);
    wf_rowCover : length (rowCover s) = side cm;
    wf_colCover : length (colCover s) = side cm;
    wf_indep : independent (masks s);
    wf_zeros : marksOnZeros (matrix s) (masks s) }.

(** The covered rows, in the order in which they were covered, the last
    one first: each has a prime, and a star in the column of that prime
    lies in a row that was covered before. *)
Fixpoint chain (masks : list (list nat)) (L : list nat) : Prop :=
  match L with
  | [] => True
  | r :: L' =>
      (r ∉ L') /\
      (exists c, findPrimeInRow masks r = Some c /\
                 forall s, mask masks s c = 1 -> s ∈ L') /\
      chain masks L'
  end.

(** Step 1: no line is covered by a row cover and no zero is primed. *)
Record covering (cm : list (list Z)) (s : state) : Prop :=
  { co_wf : wf cm s;
    co_rows : forall i, covered (rowCover s) i = false;
    co_noprime : forall i j, mask (masks s) i j <> 2 }.

(** The covers and the stars agree. *)
Record coverage (s : state) : Prop :=
  { cv_star : forall i j, mask (masks s) i j = 1 ->
                          covered (rowCover s) i = negb (covered (colCover s) j);
    cv_row : forall i, covered (rowCover s) i = true -> exists j, mask (masks s) i j = 1;
    cv_col : forall j, covered (colCover s) j = true -> exists i, mask (masks s) i j = 1;
    cv_chain : exists L, (forall i, covered (rowCover s) i = true <-> i ∈ L) /\
                         chain (masks s) L }.

(** Steps 2 and 6. *)
Record searching (cm : list (list Z)) (s : state) : Prop :=
  { se_wf : wf cm s;
    se_cov : coverage s;
    se_prime : forall i j, mask (masks s) i j = 2 ->
                           covered (rowCover s) i = true /\ covered (colCover s) j = false }.

(** Step 3: the path starts from a primed zero in a row without star. *)
Record augmenting (cm : list (list Z)) (s : state) : Prop :=
  { au_wf : wf cm s;
    au_cov : coverage s;
    au_start : exists r c, pathStart s = Some (r, c) /\ mask (masks s) r c = 2 /\
                           (forall j, mask (masks s) r j <> 1) /\
                           covered (rowCover s) r = false /\
                           covered (colCover s) c = false }.

(** Step 0: how the loop was left. *)
Definition allColumnsCovered (cm : list (list Z)) (s : state) : Prop :=
  forall j, j < side cm -> covered (colCover s) j = true.

Definition noFiniteUncovered (cm : list (list Z)) (s : state) : Prop :=
  forall i j, i < side cm -> j < side cm ->
    covered (rowCover s) i = false -> covered (colCover s) j = false ->
    entry (matrix s) i j = Inf.

Record finished (cm : list (list Z)) (s : state) : Prop :=
  { fi_wf : wf cm s;
    fi_row : forall i, covered (rowCover s) i = true -> exists j, mask (masks s) i j = 1;
    fi_col : forall j, covered (colCover s) j = true -> exists i, mask (masks s) i j = 1;
    fi_exit : allColumnsCovered cm s \/ noFiniteUncovered cm s }.

Definition invariant (cm : list (list Z)) (s : state) : Prop :=
  match step s with
  | 0 => finished cm s
  | 1 => covering cm s
  | 2 | 6 => searching cm s
  | 3 => augmenting cm s
  | _ => False
  end.

(** *** Step 1 *)

Definition coverStarred (n : nat) (masks : list (list nat)) (colCover : list bool)
  : list bool :=
  for_range n (fun i =>
    for_range n (fun j colCover =>
      if Nat.eqb (mask masks i j) 1 then <[j := true]> colCover else colCover))
    (fill colCover false).

Lemma coverStarred_spec n masks colCover :
  square n masks -> length colCover = n ->
  length (coverStarred n masks colCover) = n /\
  forall j, covered (coverStarred n masks colCover) j = true <->
            exists i, mask masks i j = 1.
Proof.
  intros Hsq Hlen. unfold coverStarred.
  pose (P := fun i j (cc : list bool) =>
    length cc = n /\
    forall j', covered cc j' = true <->
               exists i', before n i j i' j' /\ mask masks i' j' = 1).
  assert (HP : P n 0 (for_range n (fun i => for_range n (fun j colCover =>
      if Nat.eqb (mask masks i j) 1 then <[j := true]> colCover else colCover))
      (fill colCover false))).
  { apply for2_ind.
    - split; [rewrite length_fill; exact Hlen|]. intros j'. unfold covered.
      rewrite nth_fill_false. split; [discriminate|].
      intros (i' & Hb & _). exfalso. exact (before_0 _ _ _ Hb).
    - intros i j cc Hi Hj [Hl Hc].
      destruct (Nat.eqb_spec (mask masks i j) 1) as [Hm|Hm].
      + split; [rewrite length_insert; exact Hl|]. intros j'. unfold covered.
        rewrite nth_insert_bool. destruct (decide _) as [[<- _]|Hne].
        * split; [|reflexivity]. intros _. exists i. split; [|exact Hm].
          apply before_S_col. auto.
        * fold (covered cc j'). rewrite Hc. split.
          -- intros (i' & Hb & Hs). exists i'. split; [|exact Hs].
             apply before_S_col. auto.
          -- intros (i' & Hb & Hs). exists i'. split; [|exact Hs].
             apply before_S_col in Hb as [Hb|[-> ->]]; [exact Hb|].
             exfalso. apply Hne. split; [reflexivity|lia].
      + split; [exact Hl|]. intros j'. rewrite Hc. split.
        * intros (i' & Hb & Hs). exists i'. split; [|exact Hs].
          apply before_S_col. auto.
        * intros (i' & Hb & Hs). exists i'. split; [|exact Hs].
          apply before_S_col in Hb as [Hb|[-> ->]]; [exact Hb|]. congruence.
    - intros i cc Hi [Hl Hc]. split; [exact Hl|]. intros j'. rewrite Hc.
      split; intros (i' & Hb & Hs); exists i'; (split; [|exact Hs]);
        apply before_S_row; exact Hb. }
  destruct HP as [Hl Hc]. split; [exact Hl|]. intros j. rewrite Hc. split.
  - intros (i & _ & Hs). eauto.
  - intros (i & Hs). exists i. split; [|exact Hs]. apply before_end.
    apply (mask_bounds n masks); [exact Hsq|]. lia.
Qed.

Lemma filter_all_true (l : list bool) :
  length (filter (fun c => c = true) l) = length l -> forall k, k < length l -> nth k l false = true.
Proof.
  induction l as [|b l IH]; simpl; [lia|].
  pose proof (length_filter (fun c => c = true) l) as Hle.
  rewrite filter_cons. destruct (decide (b = true)) as [->|Hb]; simpl.
  - intros H [|k] Hk; [reflexivity|]. apply IH; lia.
  - intros H. lia.
Qed.

Lemma case1_invariant cm s :
  covering cm s -> invariant cm (case1 (side cm) s) /\
                   (step (case1 (side cm) s) = 0 \/ step (case1 (side cm) s) = 2) /\
                   masks (case1 (side cm) s) = masks s /\
                   rowCover (case1 (side cm) s) = rowCover s.
Proof.
  intros [Hwf Hrows Hnp]. destruct Hwf as [Hmat Hmk Hrl Hcl Hind Hz].
  destruct (coverStarred_spec (side cm) (masks s) (colCover s) Hmk Hcl) as [Hl Hc].
  unfold case1. fold (coverStarred (side cm) (masks s) (colCover s)).
  set (cc := coverStarred (side cm) (masks s) (colCover s)) in *.
  assert (Hwf' : forall st, wf cm {| matrix := matrix s; masks := masks s;
      rowCover := rowCover s; colCover := cc; pathStart := pathStart s; step := st |}).
  { intros st. constructor; simpl; assumption. }
  split; [|split; [|split; reflexivity]].
  - unfold invariant. simpl.
    destruct (Nat.eqb_spec (length (filter (fun c => c = true) cc)) (side cm)) as [Hall|Hnot].
    + constructor; simpl; [apply Hwf'| | |].
      * intros i Hi. rewrite Hrows in Hi. discriminate.
      * intros j Hj. apply Hc. exact Hj.
      * left. intros j Hj. simpl. apply filter_all_true; rewrite Hl; auto.
    + constructor; simpl; [apply Hwf'| |].
      * constructor; simpl.
        -- intros i j Hs. rewrite Hrows. symmetry. apply negb_false_iff.
           apply Hc. eauto.
        -- intros i Hi. rewrite Hrows in Hi. discriminate.
        -- intros j Hj. apply Hc. exact Hj.
        -- exists []. split; [|exact I]. intros i. rewrite Hrows.
           split; [discriminate|]. intros Hin. inversion Hin.
      * intros i j Hp. exfalso. exact (Hnp i j Hp).
  - simpl. destruct (Nat.eqb _ _); auto.
Qed.

(** *** Step 2 *)

Lemma mask_setCell n masks r c v i j :
  square n masks -> r < n -> c < n ->
  mask (setCell masks r c v) i j = if decide (r = i /\ c = j) then v else mask masks i j.
Proof.
  intros Hsq Hr Hc. unfold mask, setCell. apply (cell_modCell 0 n); assumption.
Qed.

Lemma covered_insert (cover : list bool) (i k : nat) (b : bool) :
  covered (<[i := b]> cover) k =
    if decide (i = k /\ i < length cover) then b else covered cover k.
Proof. apply nth_insert_bool. Qed.

Lemma covered_bound (cover : list bool) (i : nat) :
  covered cover i = true -> i < length cover.
Proof.
  unfold covered. intros H. destruct (decide (i < length cover)); [assumption|].
  rewrite nth_overflow in H by lia. discriminate.
Qed.

(** The chain depends on the stars and on the rows that it lists only. *)
Lemma chain_ext masks masks' L :
  (forall i j, mask masks' i j = 1 <-> mask masks i j = 1) ->
  (forall r j, r ∈ L -> mask masks' r j = mask masks r j) ->
  chain masks L -> chain masks' L.
Proof.
  intros Hstar. induction L as [|r L IH]; simpl; [auto|].
  intros Hrows (Hnin & (c & Hp & Hs) & Hch).
  split; [exact Hnin|]. split.
  - exists c. split.
    + apply findPrimeInRow_Some in Hp as [Hc Hlt].
      apply findPrimeInRow_first.
      * rewrite Hrows by left. exact Hc.
      * intros c' Hc'. rewrite Hrows by left. apply Hlt. exact Hc'.
    + intros s' Hs'. apply Hs. apply Hstar. exact Hs'.
  - apply IH; [|exact Hch]. intros r' j Hr'. apply Hrows. right. exact Hr'.
Qed.

Lemma case2_invariant cm s :
  searching cm s -> invariant cm (case2 s).
Proof.
  intros [Hwf Hcov Hprime]. destruct Hwf as [Hmat Hmk Hrl Hcl Hind Hz].
  destruct Hcov as [Hstar Hrow Hcol (L & HL & Hchain)].
  unfold case2.
  destruct (findUncoveredZero (matrix s) (rowCover s) (colCover s))
    as [[r c]|] eqn:Hfind.
  2:{ unfold invariant. simpl. constructor; simpl.
      - constructor; simpl; assumption.
      - constructor; simpl; [assumption|assumption|assumption|].
        exists L. split; assumption.
      - exact Hprime. }
  destruct (findUncoveredZero_Some (side cm) _ _ _ _ _ (proj1 Hmat) Hfind)
    as (Hr & Hc & Hzero & Hur & Huc).
  set (masks' := setCell (masks s) r c 2).
  assert (Hm' : forall i j, mask masks' i j =
            if decide (r = i /\ c = j) then 2 else mask (masks s) i j).
  { intros i j. apply (mask_setCell (side cm)); assumption. }
  assert (Hnostar : mask (masks s) r c <> 1).
  { intros H1. specialize (Hstar r c H1). rewrite Hur, Huc in Hstar. discriminate. }
  assert (Hstars : forall i j, mask masks' i j = 1 <-> mask (masks s) i j = 1).
  { intros i j. rewrite Hm'. destruct (decide _) as [[<- <-]|_]; [|reflexivity].
    split; [discriminate|]. intros H. exfalso. exact (Hnostar H). }
  assert (Hsq' : square (side cm) masks') by (apply square_modCell; exact Hmk).
  assert (Hind' : independent masks').
  { destruct Hind as [Hi1 Hi2]. split.
    - intros i j j' H1 H2. apply Hstars in H1, H2. eauto.
    - intros i i' j H1 H2. apply Hstars in H1, H2. eauto. }
  assert (Hz' : marksOnZeros (matrix s) masks').
  { intros i j. rewrite Hm'. destruct (decide _) as [[<- <-]|_]; [auto|apply Hz]. }
  assert (HrL : r ∉ L).
  { intros Hin. apply HL in Hin. congruence. }
  assert (Hchain' : chain masks' L).
  { apply (chain_ext (masks s)); [exact Hstars| |exact Hchain].
    intros r' j Hr'. rewrite Hm'. destruct (decide _) as [[<- _]|_]; [|reflexivity].
    exfalso. exact (HrL Hr'). }
  destruct (findStarInRow masks' r) as [sc|] eqn:Hsr.
  - (* the row of the zero has a star: cover the row, uncover the column *)
    apply findStarInRow_Some in Hsr. apply Hstars in Hsr.
    assert (Hsc : sc < side cm).
    { apply (mask_bounds (side cm) (masks s) r sc); [exact Hmk|lia]. }
    unfold invariant. simpl. constructor; simpl.
    + constructor; simpl; try assumption; rewrite length_insert; assumption.
    + constructor; simpl.
      * intros i j Hs. apply Hstars in Hs. rewrite !covered_insert, Hrl, Hcl.
        destruct (decide (r = i)) as [<-|Hne].
        -- assert (j = sc) by (eapply (proj1 Hind); eauto). subst j.
           rewrite !decide_True by auto. reflexivity.
        -- assert (sc <> j).
           { intros <-. apply Hne. eapply (proj2 Hind); eauto. }
           rewrite !decide_False by tauto. apply Hstar. exact Hs.
      * intros i. rewrite covered_insert.
        destruct (decide _) as [[<- _]|_].
        -- intros _. exists sc. apply Hstars. exact Hsr.
        -- intros Hi. destruct (Hrow i Hi) as [j Hj]. exists j. apply Hstars. exact Hj.
      * intros j. rewrite covered_insert.
        destruct (decide _) as [_|_]; [discriminate|].
        intros Hj. destruct (Hcol j Hj) as [i Hi]. exists i. apply Hstars. exact Hi.
      * exists (r :: L). split.
        -- intros i. rewrite covered_insert, Hrl, elem_of_cons, <- HL.
           destruct (decide _) as [[<- _]|Hne]; [tauto|].
           split; [tauto|]. intros [->|H]; [|exact H]. exfalso. apply Hne. auto.
        -- simpl. split; [exact HrL|]. split; [|exact Hchain'].
           exists c. split.
           ++ apply findPrimeInRow_first.
              ** rewrite Hm'. rewrite decide_True by auto. reflexivity.
              ** intros c' Hc'. rewrite Hm'. rewrite decide_False by lia.
                 intros Hp. apply Hprime in Hp as [Hp _]. congruence.
           ++ intros s' Hs'. apply Hstars in Hs'. apply HL.
              rewrite (Hstar _ _ Hs'), Huc. reflexivity.
    + intros i j. rewrite Hm', !covered_insert, Hrl, Hcl.
      destruct (decide (r = i /\ c = j)) as [[<- <-]|Hne].
      * intros _. rewrite decide_True by auto. split; [reflexivity|].
        destruct (decide _); [reflexivity|exact Huc].
      * intros Hp. apply Hprime in Hp as [Hp1 Hp2]. split.
        -- destruct (decide _); [reflexivity|exact Hp1].
        -- destruct (decide _); [reflexivity|exact Hp2].
  - (* no star in the row: the path starts here *)
    rewrite findStarInRow_None in Hsr.
    unfold invariant. simpl. constructor; simpl.
    + constructor; simpl; assumption.
    + constructor; simpl.
      * intros i j Hs. apply Hstars in Hs. apply Hstar. exact Hs.
      * intros i Hi. destruct (Hrow i Hi) as [j Hj]. exists j. apply Hstars. exact Hj.
      * intros j Hj. destruct (Hcol j Hj) as [i Hi]. exists i. apply Hstars. exact Hi.
      * exists L. split; assumption.
    + exists r, c. split; [reflexivity|]. split; [|auto].
      rewrite Hm'. rewrite decide_True by auto. reflexivity.
Qed.

(** *** Step 6 *)

(** What step 6 does to the entry in row [i] and column [j]. *)
Definition adjust (rowCover colCover : list bool) (minVal : Z) (i j : nat) (x : num)
  : num :=
  let x := if covered rowCover i then addFin x minVal else x in
  if negb (covered colCover j) then subFin x minVal else x.

Definition adjustMatrix (n : nat) (rowCover colCover : list bool) (minVal : Z)
    (matrix : list (list num)) : list (list num) :=
  for_range n (fun i =>
    for_range n (fun j matrix =>
      let matrix :=
        if covered rowCover i
        then modCell matrix i j (fun x => addFin x minVal) else matrix in
      if negb (covered colCover j)
      then modCell matrix i j (fun x => subFin x minVal) else matrix))
    matrix.

Lemma adjustMatrix_spec n rowCover colCover minVal matrix :
  square n matrix ->
  square n (adjustMatrix n rowCover colCover minVal matrix) /\
  forall i j, entry (adjustMatrix n rowCover colCover minVal matrix) i j =
              adjust rowCover colCover minVal i j (entry matrix i j).
Proof.
  intros Hsq. unfold adjustMatrix.
  destruct (for2_cellLocal Inf n n n
    (fun i j matrix =>
       let matrix := if covered rowCover i
                     then modCell matrix i j (fun x => addFin x minVal) else matrix in
       if negb (covered colCover j)
       then modCell matrix i j (fun x => subFin x minVal) else matrix)
    (adjust rowCover colCover minVal) matrix) as [Hsq' Hc]; [|lia|lia|exact Hsq|].
  - intros i j m Hm Hi Hj. unfold adjust. simpl.
    destruct (covered rowCover i), (covered colCover j); simpl.
    + split; [apply square_modCell; exact Hm|]. intros i' j'.
      apply (cell_modCell Inf n); assumption.
    + split; [do 2 apply square_modCell; exact Hm|]. intros i' j'.
      rewrite (cell_modCell Inf n) by (try apply square_modCell; assumption).
      rewrite !(cell_modCell Inf n) by assumption.
      rewrite (decide_True (P := i = i /\ j = j)) by auto.
      destruct (decide _); reflexivity.
    + split; [exact Hm|]. intros i' j'.
      destruct (decide _) as [[<- <-]|_]; reflexivity.
    + split; [apply square_modCell; exact Hm|]. intros i' j'.
      apply (cell_modCell Inf n); assumption.
  - split; [exact Hsq'|]. intros i j. unfold entry. rewrite Hc.
    destruct (decide _) as [_|Hout]; [reflexivity|].
    rewrite (cell_out Inf n) by (assumption || lia).
    unfold adjust. destruct (covered rowCover i), (covered colCover j); reflexivity.
Qed.

Lemma isFinite_adjust rc cc d i j x : isFinite (adjust rc cc d i j x) = isFinite x.
Proof. unfold adjust. destruct (covered rc i), (covered cc j), x; reflexivity. Qed.

Lemma adjust_row_covered rc cc d i j x :
  covered rc i = true -> covered cc j = false -> adjust rc cc d i j x = x.
Proof.
  unfold adjust. intros -> ->. destruct x as [z|]; simpl; [|reflexivity].
  f_equal. lia.
Qed.

Lemma adjust_col_covered rc cc d i j x :
  covered rc i = false -> covered cc j = true -> adjust rc cc d i j x = x.
Proof. unfold adjust. intros -> ->. reflexivity. Qed.

Lemma adjust_uncovered rc cc d i j :
  covered rc i = false -> covered cc j = false ->
  adjust rc cc d i j (Fin d) = Fin 0.
Proof. unfold adjust. intros -> ->. simpl. f_equal. lia. Qed.

Lemma case6_invariant cm s :
  searching cm s -> invariant cm (case6 (side cm) s).
Proof.
  intros [Hwf Hcov Hprime]. destruct Hwf as [Hmat Hmk Hrl Hcl Hind Hz].
  pose proof Hcov as [Hstar Hrow Hcol HL].
  pose proof (findMinUncoveredValue_spec (side cm) (matrix s) (rowCover s)
                (colCover s) (proj1 Hmat)) as Hmin.
  unfold case6.
  destruct (findMinUncoveredValue (matrix s) (rowCover s) (colCover s)) as [d|].
  - fold (adjustMatrix (side cm) (rowCover s) (colCover s) d (matrix s)).
    destruct (adjustMatrix_spec (side cm) (rowCover s) (colCover s) d (matrix s)
                (proj1 Hmat)) as [Hsq' He].
    unfold invariant. simpl. constructor; simpl.
    + constructor; simpl; try assumption.
      * split; [exact Hsq'|]. intros i j. rewrite He, isFinite_adjust.
        apply Hmat.
      * intros i j Hm. rewrite He. destruct Hm as [Hm|Hm].
        -- pose proof (Hstar i j Hm) as Hx.
           destruct (covered (rowCover s) i) eqn:Hr, (covered (colCover s) j) eqn:Hc;
             try discriminate.
           ++ rewrite adjust_row_covered by assumption. apply Hz. auto.
           ++ rewrite adjust_col_covered by assumption. apply Hz. auto.
        -- destruct (Hprime i j Hm) as [Hr Hc].
           rewrite adjust_row_covered by assumption. apply Hz. auto.
    + constructor; simpl; assumption.
    + exact Hprime.
  - unfold invariant. simpl. constructor; simpl; try assumption.
    + constructor; simpl; assumption.
    + right. exact Hmin.
Qed.

(** After the adjustment there is an uncovered zero. *)
Lemma case6_zero cm s :
  searching cm s -> step (case6 (side cm) s) = 2 ->
  findUncoveredZero (matrix (case6 (side cm) s)) (rowCover (case6 (side cm) s))
                    (colCover (case6 (side cm) s)) <> None.
Proof.
  intros [Hwf Hcov Hprime]. destruct Hwf as [Hmat Hmk Hrl Hcl Hind Hz].
  pose proof (findMinUncoveredValue_spec (side cm) (matrix s) (rowCover s)
                (colCover s) (proj1 Hmat)) as Hmin.
  unfold case6.
  destruct (findMinUncoveredValue (matrix s) (rowCover s) (colCover s)) as [d|];
    simpl; [|discriminate].
  intros _ Hnone.
  fold (adjustMatrix (side cm) (rowCover s) (colCover s) d (matrix s)) in Hnone.
  destruct (adjustMatrix_spec (side cm) (rowCover s) (colCover s) d (matrix s)
              (proj1 Hmat)) as [Hsq' He].
  destruct Hmin as (i & j & Hi & Hj & Hr & Hc & Hd).
  pose proof (findUncoveredZero_None (side cm) _ _ _ Hsq' Hnone i j Hr Hc) as Hnz.
  rewrite He, Hd, adjust_uncovered in Hnz by assumption. discriminate.
Qed.

End HungarianInv.

(** ** The Hungarian solver: the augmenting path *)
Module HungarianPath.
Import Num Loops LoopFacts NestedLoops Hungarian HungarianShape HungarianFind
       HungarianInv.
Local Open Scope nat_scope.

(** The cells that [findAugmentingPath] collects after the first one: a
    star in the current column, the prime of its row, and so on from the
    column of that prime.  The rows are met in the order of [L]. *)
Inductive altpath (masks : list (list nat)) : list nat -> nat -> list (nat * nat) -> Prop :=
| alt_nil L c :
    (forall s, mask masks s c <> 1) -> altpath masks L c []
| alt_cons L1 s L2 c c' path :
    mask masks s c = 1 -> mask masks s c' = 2 -> (s ∉ L2) ->
    altpath masks L2 c' path ->
    altpath masks (L1 ++ s :: L2) c ((s, c) :: (s, c') :: path).

Lemma chain_suffix masks L1 s L2 :
  chain masks (L1 ++ s :: L2) ->
  (s ∉ L2) /\
  (exists c, findPrimeInRow masks s = Some c /\ forall s', mask masks s' c = 1 -> s' ∈ L2) /\
  chain masks L2.
Proof.
  induction L1 as [|x L1 IH]; simpl.
  - intros H. exact H.
  - intros (_ & _ & H). apply IH. exact H.
Qed.

Lemma augmentFrom_total masks L : forall fuel c,
  chain masks L -> (forall s, mask masks s c = 1 -> s ∈ L) ->
  length L < fuel ->
  exists path, augmentFrom fuel masks c = Some path /\ altpath masks L c path.
Proof.
  induction L as [L IH] using (induction_ltof1 _ (@length nat)). unfold ltof in IH.
  intros fuel c Hch Hst Hfuel. destruct fuel as [|fuel]; [lia|]. simpl.
  destruct (findStarInCol masks c) as [s|] eqn:Hs.
  - apply findStarInCol_Some in Hs. pose proof (Hst s Hs) as Hin.
    apply list_elem_of_split in Hin as (L1 & L2 & ->).
    destruct (chain_suffix _ _ _ _ Hch) as (Hnin & (c' & Hp & Hst') & Hch').
    rewrite Hp. rewrite length_app in Hfuel. simpl in Hfuel.
    destruct (IH L2) with (fuel := fuel) (c := c') as (path & Hpath & Halt); auto.
    { rewrite length_app. simpl. lia. }
    { lia. }
    rewrite Hpath. eexists. split; [reflexivity|].
    apply findPrimeInRow_Some in Hp as [Hp _].
    apply alt_cons; assumption.
  - rewrite findStarInCol_None in Hs. exists []. split; [reflexivity|].
    apply alt_nil. exact Hs.
Qed.

(** The flip of one cell of the path, and of all of them. *)
Definition flipValue (x : nat) : nat := if Nat.eqb x 1 then 0 else 1.

Definition flipAll (masks : list (list nat)) (path : list (nat * nat)) : list (list nat) :=
  foldl (fun masks '(row, col) => modCell masks row col flipValue) masks path.

Lemma flipAll_spec n path : forall masks,
  square n masks -> NoDup path ->
  (forall i j, (i, j) ∈ path -> i < n /\ j < n) ->
  square n (flipAll masks path) /\
  forall i j, mask (flipAll masks path) i j =
    if decide ((i, j) ∈ path) then flipValue (mask masks i j) else mask masks i j.
Proof.
  induction path as [|[r c] path IH]; intros masks Hsq Hnd Hin.
  - split; [exact Hsq|]. intros i j. unfold flipAll. simpl foldl.
    destruct (decide ((i, j) ∈ [])) as [H|_]; [inversion H|reflexivity].
  - apply NoDup_cons in Hnd as [Hnin Hnd]. unfold flipAll. simpl foldl.
    fold (flipAll (modCell masks r c flipValue) path).
    assert (Hrc : r < n /\ c < n) by (apply Hin; left).
    destruct Hrc as [Hr Hc].
    destruct (IH (modCell masks r c flipValue)) as [Hsq' Hm].
    { apply square_modCell. exact Hsq. }
    { exact Hnd. }
    { intros i j Hij. apply Hin. right. exact Hij. }
    split; [exact Hsq'|]. intros i j. rewrite Hm.
    unfold mask. rewrite (cell_modCell 0 n) by assumption.
    destruct (decide ((i, j) ∈ path)) as [Hp|Hp];
      destruct (decide ((i, j) ∈ (r, c) :: path)) as [Hq|Hq];
      destruct (decide (r = i /\ c = j)) as [[<- <-]|Hne];
      try reflexivity; exfalso; set_solver.
Qed.

(** The marks after the flips, as a function of the cell. *)
Definition flipped (masks : list (list nat)) (path : list (nat * nat)) (i j : nat) : nat :=
  if decide ((i, j) ∈ path) then flipValue (mask masks i j) else mask masks i j.

Lemma flipped_nil masks i j : flipped masks [] i j = mask masks i j.
Proof.
  unfold flipped. rewrite decide_False; [reflexivity|]. intros H. inversion H.
Qed.

Lemma flipped_cons masks r c path i j :
  flipped masks ((r, c) :: path) i j =
    if decide (r = i /\ c = j) then flipValue (mask masks r c) else flipped masks path i j.
Proof.
  unfold flipped. destruct (decide (r = i /\ c = j)) as [[-> ->]|Hne].
  - rewrite decide_True by left. reflexivity.
  - destruct (decide ((i, j) ∈ path)) as [Hp|Hp].
    + rewrite decide_True by (right; exact Hp). reflexivity.
    + rewrite decide_False; [reflexivity|].
      intros H. apply elem_of_cons in H as [[= -> ->]|H]; [apply Hne; auto|exact (Hp H)].
Qed.

(** What holds of the marks once the cells after the first one are
    flipped. *)
Record flippedTail (masks : list (list nat)) (L : list nat) (c : nat)
    (path : list (nat * nat)) : Prop :=
  { ft_rows : forall i j, (i, j) ∈ path -> i ∈ L;
    ft_marked : forall i j, (i, j) ∈ path -> mask masks i j = 1 \/ mask masks i j = 2;
    ft_nodup : NoDup path;
    ft_row_indep : forall i j j', flipped masks path i j = 1 ->
                                  flipped masks path i j' = 1 -> j = j';
    ft_col_indep : forall i i' j, flipped masks path i j = 1 ->
                                  flipped masks path i' j = 1 -> i = i';
    ft_free : forall s, flipped masks path s c <> 1;
    ft_keep : forall j, j <> c -> (exists i, mask masks i j = 1) ->
                        exists i, flipped masks path i j = 1;
    ft_new : exists j, (forall i, mask masks i j <> 1) /\
                       (j = c \/ exists i, flipped masks path i j = 1);
    ft_from : forall i j, flipped masks path i j = 1 ->
                          mask masks i j = 1 \/ mask masks i j = 2 }.

Lemma altpath_flippedTail masks L c path :
  independent masks -> altpath masks L c path -> flippedTail masks L c path.
Proof.
  intros [Hrow Hcol] Halt. induction Halt as [L c Hfree|L1 s L2 c c' path Hs Hp Hnin Halt IH].
  - constructor.
    + intros i j H. inversion H.
    + intros i j H. inversion H.
    + constructor.
    + intros i j j'. rewrite !flipped_nil. apply Hrow.
    + intros i i' j. rewrite !flipped_nil. apply Hcol.
    + intros s. rewrite flipped_nil. apply Hfree.
    + intros j _ [i Hi]. exists i. rewrite flipped_nil. exact Hi.
    + exists c. split; [exact Hfree|]. left. reflexivity.
    + intros i j. rewrite flipped_nil. auto.
  - destruct IH as [Irows Imk Ind Irow Icol Ifree Ikeep Inew Ifrom].
    assert (Hcc : c <> c') by (intros ->; congruence).
    assert (Hrest : forall j, (s, j) ∉ path).
    { intros j Hj. apply Hnin. eapply Irows. exact Hj. }
    assert (Hsame : forall j, flipped masks path s j = mask masks s j).
    { intros j. unfold flipped. rewrite decide_False by apply Hrest. reflexivity. }
    assert (Hfl : forall i j, flipped masks ((s, c) :: (s, c') :: path) i j =
               if decide (s = i /\ c = j) then 0
               else if decide (s = i /\ c' = j) then 1 else flipped masks path i j).
    { intros i j. rewrite !flipped_cons, Hs, Hp. reflexivity. }
    constructor.
    + intros i j H. apply elem_of_cons in H as [[= -> ->]|H]; [set_solver|].
      apply elem_of_cons in H as [[= -> ->]|H]; [set_solver|].
      apply Irows in H. set_solver.
    + intros i j H. apply elem_of_cons in H as [[= -> ->]|H]; [auto|].
      apply elem_of_cons in H as [[= -> ->]|H]; [auto|]. eauto.
    + apply NoDup_cons. split.
      * intros H. apply elem_of_cons in H as [[= ?]|H]; [congruence|].
        exact (Hrest _ H).
      * apply NoDup_cons. split; [apply Hrest|exact Ind].
    + intros i j j'. rewrite !Hfl.
      destruct (decide (s = i)) as [<-|Hne].
      * assert (Hone : forall x, (if decide (s = s /\ c = x) then 0
                   else if decide (s = s /\ c' = x) then 1
                   else flipped masks path s x) = 1 -> x = c').
        { intros x. destruct (decide (s = s /\ c = x)) as [_|H1]; [discriminate|].
          destruct (decide (s = s /\ c' = x)) as [[_ <-]|H2]; [reflexivity|].
          rewrite Hsame. intros Hx. exfalso. apply H1. split; [reflexivity|].
          eapply Hrow; eauto. }
        intros H1 H2. rewrite (Hone _ H1), (Hone _ H2). reflexivity.
      * rewrite !(decide_False (P := s = i /\ _)) by lia. apply Irow.
    + intros i i' j. rewrite !Hfl.
      destruct (decide (c' = j)) as [<-|Hne].
      * assert (Hone : forall x, (if decide (s = x /\ c = c') then 0
                   else if decide (s = x /\ c' = c') then 1
                   else flipped masks path x c') = 1 -> x = s).
        { intros x. destruct (decide (s = x /\ c = c')) as [_|H1]; [discriminate|].
          destruct (decide (s = x /\ c' = c')) as [[<- _]|H2]; [reflexivity|].
          intros Hx. exfalso. exact (Ifree _ Hx). }
        intros H1 H2. rewrite (Hone _ H1), (Hone _ H2). reflexivity.
      * rewrite !(decide_False (P := _ /\ c' = j)) by lia.
        destruct (decide (s = i /\ c = j)); [discriminate|].
        destruct (decide (s = i' /\ c = j)); [discriminate|]. apply Icol.
    + intros x. rewrite Hfl.
      destruct (decide (s = x /\ c = c)) as [_|H1]; [discriminate|].
      rewrite decide_False by (intros [_ ?]; congruence).
      intros Hx. apply H1. split; [|reflexivity].
      eapply Icol; [|exact Hx]. rewrite Hsame. exact Hs.
    + intros j Hj Hex. destruct (decide (c' = j)) as [<-|Hne].
      * exists s. rewrite Hfl. rewrite decide_False by lia.
        rewrite decide_True by auto. reflexivity.
      * destruct (Ikeep j) as [i Hi]; [congruence|exact Hex|].
        exists i. rewrite Hfl. rewrite !decide_False by lia. exact Hi.
    + destruct Inew as (j & Hj & Hor). exists j. split; [exact Hj|]. right.
      assert (Hjc : j <> c) by (intros ->; exact (Hj _ Hs)).
      destruct Hor as [->|[i Hi]].
      * exists s. rewrite Hfl. rewrite decide_False by lia.
        rewrite decide_True by auto. reflexivity.
      * exists i. rewrite Hfl. rewrite decide_False by lia.
        destruct (decide _); [reflexivity|exact Hi].
    + intros i j. rewrite Hfl.
      destruct (decide (s = i /\ c = j)); [discriminate|].
      destruct (decide (s = i /\ c' = j)) as [[<- <-]|_]; [auto|]. apply Ifrom.
Qed.

Lemma chain_NoDup masks L : chain masks L -> NoDup L.
Proof.
  induction L as [|r L IH]; simpl; [constructor|].
  intros (Hnin & _ & Hch). apply NoDup_cons. auto.
Qed.

(** Distinct numbers below [n] are at most [n]. *)
Lemma NoDup_bounded_length (L : list nat) (n : nat) :
  NoDup L -> (forall x, x ∈ L -> x < n) -> length L <= n.
Proof.
  intros Hnd Hlt.
  assert (Hsub : L ⊆+ seq 0 n).
  { apply NoDup_submseteq; [exact Hnd|].
    intros x Hx. apply elem_of_seq. specialize (Hlt x Hx). lia. }
  apply submseteq_length in Hsub. rewrite length_seq in Hsub. exact Hsub.
Qed.

Definition clearPrimes (n : nat) (masks : list (list nat)) : list (list nat) :=
  for_range n (fun i =>
    for_range n (fun j masks =>
      if Nat.eqb (mask masks i j) 2 then setCell masks i j 0 else masks)) masks.

Lemma clearPrimes_spec n masks :
  square n masks ->
  square n (clearPrimes n masks) /\
  forall i j, mask (clearPrimes n masks) i j =
              if Nat.eqb (mask masks i j) 2 then 0 else mask masks i j.
Proof.
  intros Hsq. unfold clearPrimes.
  destruct (for2_cellLocal 0 n n n
    (fun i j masks => if Nat.eqb (mask masks i j) 2 then setCell masks i j 0 else masks)
    (fun _ _ x => if Nat.eqb x 2 then 0 else x) masks) as [Hsq' Hc];
    [|lia|lia|exact Hsq|].
  - intros i j m Hm Hi Hj. fold (mask m i j).
    destruct (Nat.eqb_spec (mask m i j) 2) as [H2|H2].
    + split; [apply square_modCell; exact Hm|]. intros i' j'.
      unfold setCell. rewrite (cell_modCell 0 n) by assumption. reflexivity.
    + split; [exact Hm|]. intros i' j'.
      destruct (decide _) as [[<- <-]|_]; reflexivity.
  - split; [exact Hsq'|]. intros i j. unfold mask at 1. rewrite Hc.
    fold (mask masks i j). destruct (decide _) as [_|Hout]; [reflexivity|].
    rewrite (mask_out n) by (assumption || lia). reflexivity.
Qed.

(** Step 3 succeeds, leaves the stars independent, keeps every starred
    column starred and stars a column that was not. *)
Lemma case3_invariant cm s fuel :
  augmenting cm s -> side cm < fuel ->
  exists s', case3 fuel (side cm) s = Some s' /\ step s' = 1 /\ covering cm s' /\
    (forall j, (exists i, mask (masks s) i j = 1) -> exists i, mask (masks s') i j = 1) /\
    (exists j, (forall i, mask (masks s) i j <> 1) /\ exists i, mask (masks s') i j = 1).
Proof.
  intros [Hwf Hcov Hstart] Hfuel. destruct Hwf as [Hmat Hmk Hrl Hcl Hind Hz].
  destruct Hcov as [Hstar Hrow Hcol (L & HL & Hchain)].
  destruct Hstart as (r0 & c0 & Hps & Hm0 & Hnostar & Hur & Huc).
  assert (HlenL : length L <= side cm).
  { apply NoDup_bounded_length; [eapply chain_NoDup; exact Hchain|].
    intros x Hx. apply HL in Hx. apply covered_bound in Hx. lia. }
  destruct (augmentFrom_total (masks s) L fuel c0) as (path & Hpath & Halt).
  { exact Hchain. }
  { intros s' Hs'. apply HL. rewrite (Hstar _ _ Hs'), Huc. reflexivity. }
  { lia. }
  destruct (altpath_flippedTail _ _ _ _ Hind Halt)
    as [Irows Imk Ind Irow Icol Ifree Ikeep Inew Ifrom].
  assert (Hr0L : r0 ∉ L) by (intros Hin; apply HL in Hin; congruence).
  assert (Hr0 : forall j, (r0, j) ∉ path).
  { intros j Hj. apply Hr0L. eapply Irows. exact Hj. }
  assert (Hsame : forall j, flipped (masks s) path r0 j = mask (masks s) r0 j).
  { intros j. unfold flipped. rewrite decide_False by apply Hr0. reflexivity. }
  destruct (flipAll_spec (side cm) ((r0, c0) :: path) (masks s)) as [Hsqf Hmf].
  { exact Hmk. }
  { apply NoDup_cons. split; [apply Hr0|exact Ind]. }
  { intros i j Hij. apply (mask_bounds (side cm) (masks s)); [exact Hmk|].
    apply elem_of_cons in Hij as [[= -> ->]|Hij]; [lia|].
    destruct (Imk _ _ Hij); lia. }
  assert (Hfl : forall i j, mask (flipAll (masks s) ((r0, c0) :: path)) i j =
             if decide (r0 = i /\ c0 = j) then 1 else flipped (masks s) path i j).
  { intros i j. rewrite Hmf.
    change (flipped (masks s) ((r0, c0) :: path) i j =
            if decide (r0 = i /\ c0 = j) then 1 else flipped (masks s) path i j).
    rewrite flipped_cons, Hm0. reflexivity. }
  destruct (clearPrimes_spec (side cm) _ Hsqf) as [Hsqc Hmc].
  set (masks1 := clearPrimes (side cm) (flipAll (masks s) ((r0, c0) :: path))) in *.
  assert (Hstar1 : forall i j, mask masks1 i j = 1 <->
             (r0 = i /\ c0 = j) \/ flipped (masks s) path i j = 1).
  { intros i j. rewrite Hmc, Hfl.
    destruct (decide (r0 = i /\ c0 = j)) as [Heq|Hne]; simpl; [tauto|].
    destruct (Nat.eqb_spec (flipped (masks s) path i j) 2) as [H2|H2].
    - split; [discriminate|]. intros [?|?]; [tauto|congruence].
    - tauto. }
  unfold case3. rewrite Hps. unfold findAugmentingPath. simpl snd. rewrite Hpath.
  eexists. split; [reflexivity|]. split; [reflexivity|].
  change (foldl _ (masks s) ((r0, c0) :: path))
    with (flipAll (masks s) ((r0, c0) :: path)).
  fold (clearPrimes (side cm) (flipAll (masks s) ((r0, c0) :: path))).
  fold masks1.
  split; [|split].
  - constructor; simpl.
    + constructor; simpl; try assumption.
      * rewrite length_fill. exact Hrl.
      * rewrite length_fill. exact Hcl.
      * split.
        -- intros i j j' H1 H2. apply Hstar1 in H1, H2.
           destruct H1 as [[<- <-]|H1], H2 as [[Hi <-]|H2]; try reflexivity.
           ++ rewrite Hsame in H2. exfalso. exact (Hnostar _ H2).
           ++ subst i. rewrite Hsame in H1. exfalso. exact (Hnostar _ H1).
           ++ eapply Irow; eauto.
        -- intros i i' j H1 H2. apply Hstar1 in H1, H2.
           destruct H1 as [[<- <-]|H1], H2 as [[<- Hj]|H2]; try reflexivity.
           ++ exfalso. exact (Ifree _ H2).
           ++ subst j. exfalso. exact (Ifree _ H1).
           ++ eapply Icol; eauto.
      * intros i j [H1|H2].
        -- apply Hstar1 in H1 as [[<- <-]|H1]; [apply Hz; auto|].
           apply Hz. apply Ifrom. exact H1.
        -- exfalso. rewrite Hmc in H2.
           destruct (Nat.eqb_spec (mask (flipAll (masks s) ((r0, c0) :: path)) i j) 2);
             congruence.
    + intros i. unfold covered. apply nth_fill_false.
    + intros i j. rewrite Hmc.
      destruct (Nat.eqb_spec (mask (flipAll (masks s) ((r0, c0) :: path)) i j) 2);
        congruence.
  - simpl. intros j [i Hi]. destruct (decide (c0 = j)) as [<-|Hne].
    + exists r0. apply Hstar1. auto.
    + destruct (Ikeep j) as [i' Hi']; [congruence|eauto|].
      exists i'. apply Hstar1. auto.
  - simpl. destruct Inew as (j & Hj & Hor). exists j. split; [exact Hj|].
    destruct Hor as [->|[i Hi]].
    + exists r0. apply Hstar1. auto.
    + exists i. apply Hstar1. auto.
Qed.

End HungarianPath.

(** ** The Hungarian solver: termination of the step machine *)
Module HungarianTermination.
Import Num Loops LoopFacts NestedLoops Hungarian HungarianShape HungarianFind
       HungarianInv HungarianPath.
Local Open Scope nat_scope.

Lemma filter_length_mono {A : Type} (P Q : A -> Prop)
    `{forall x, Decision (P x)} `{forall x, Decision (Q x)} (l : list A) :
  (forall x, x ∈ l -> P x -> Q x) ->
  length (filter P l) <= length (filter Q l).
Proof.
  induction l as [|a l IH]; intros Himp; [reflexivity|].
  rewrite !filter_cons.
  assert (IH' : length (filter P l) <= length (filter Q l)).
  { apply IH. intros x Hx. apply Himp. right. exact Hx. }
  destruct (decide (P a)) as [HP|HP], (decide (Q a)) as [HQ|HQ]; simpl; try lia.
  exfalso. apply HQ. apply Himp; [left|exact HP].
Qed.

Lemma filter_length_strict {A : Type} (P Q : A -> Prop)
    `{forall x, Decision (P x)} `{forall x, Decision (Q x)} (l : list A) :
  (forall x, x ∈ l -> P x -> Q x) ->
  (exists x, x ∈ l /\ Q x /\ ~ P x) ->
  length (filter P l) < length (filter Q l).
Proof.
  induction l as [|a l IH]; intros Himp (x & Hx & HQx & HPx); [inversion Hx|].
  rewrite !filter_cons.
  assert (Hmono : length (filter P l) <= length (filter Q l)).
  { apply filter_length_mono. intros y Hy. apply Himp. right. exact Hy. }
  apply elem_of_cons in Hx as [->|Hx].
  - rewrite (decide_True (P := Q a)) by exact HQx.
    rewrite (decide_False (P := P a)) by exact HPx. simpl. lia.
  - assert (IH' : length (filter P l) < length (filter Q l)).
    { apply IH; [|eauto]. intros y Hy. apply Himp. right. exact Hy. }
    destruct (decide (P a)) as [HP|HP], (decide (Q a)) as [HQ|HQ]; simpl; try lia.
    exfalso. apply HQ. apply Himp; [left|exact HP].
Qed.

(** The number of columns without star, and of rows without cover. *)
Definition unstarred (n : nat) (masks : list (list nat)) : nat :=
  length (filter (fun j => findStarInCol masks j = None) (seq 0 n)).

Definition uncoveredRows (n : nat) (rowCover : list bool) : nat :=
  length (filter (fun i => covered rowCover i = false) (seq 0 n)).

Lemma uncoveredRows_le n rowCover : uncoveredRows n rowCover <= n.
Proof.
  unfold uncoveredRows. etransitivity; [apply length_filter|].
  rewrite length_seq. reflexivity.
Qed.

Lemma unstarred_mono n masks masks' :
  (forall j, (exists i, mask masks i j = 1) -> exists i, mask masks' i j = 1) ->
  unstarred n masks' <= unstarred n masks.
Proof.
  intros Hkeep. unfold unstarred. apply filter_length_mono.
  intros j _. rewrite !findStarInCol_None. intros Hn s Hs.
  destruct (Hkeep j) as [i Hi]; [eauto|]. exact (Hn i Hi).
Qed.

Lemma unstarred_strict n masks masks' :
  square n masks' ->
  (forall j, (exists i, mask masks i j = 1) -> exists i, mask masks' i j = 1) ->
  (exists j, (forall i, mask masks i j <> 1) /\ exists i, mask masks' i j = 1) ->
  unstarred n masks' < unstarred n masks.
Proof.
  intros Hsq Hkeep (j & Hj & i & Hi). unfold unstarred. apply filter_length_strict.
  - intros j' _. rewrite !findStarInCol_None. intros Hn s Hs.
    destruct (Hkeep j') as [i' Hi']; [eauto|]. exact (Hn i' Hi').
  - exists j. split; [|split].
    + apply elem_of_seq. destruct (mask_bounds n masks' i j Hsq); lia.
    + apply findStarInCol_None. exact Hj.
    + rewrite findStarInCol_None. intros Hn. exact (Hn i Hi).
Qed.

Lemma uncoveredRows_cover n rowCover r :
  length rowCover = n -> r < n -> covered rowCover r = false ->
  uncoveredRows n (<[r := true]> rowCover) < uncoveredRows n rowCover.
Proof.
  intros Hlen Hr Hur. unfold uncoveredRows. apply filter_length_strict.
  - intros i _. rewrite covered_insert. destruct (decide _); [discriminate|auto].
  - exists r. split; [apply elem_of_seq; lia|]. split; [exact Hur|].
    rewrite covered_insert. rewrite decide_True by (split; [reflexivity|lia]).
    discriminate.
Qed.

(** The measure that decreases at each turn of the loop. *)
Definition weight (n : nat) (s : state) : nat :=
  let K := 3 * n + 5 in
  let U := unstarred n (masks s) in
  let V := uncoveredRows n (rowCover s) in
  match step s with
  | 0 => 0
  | 1 => K * U + 3 * n + 5
  | 2 => K * U + 3 * V + 2 +
         match findUncoveredZero (matrix s) (rowCover s) (colCover s) with
           | Some _ => 0 | None => 2 end
  | 3 => K * U + 3 * V + 1
  | 6 => K * U + 3 * V + 3
  | _ => 0
  end.

Lemma case1_weight cm s :
  covering cm s -> step s = 1 ->
  weight (side cm) (case1 (side cm) s) < weight (side cm) s.
Proof.
  intros Hco Hstep.
  destruct (case1_invariant cm s Hco) as (_ & Hst & Hmk & Hrc).
  unfold weight. rewrite Hmk, Hrc, Hstep.
  pose proof (uncoveredRows_le (side cm) (rowCover s)).
  destruct Hst as [-> | ->]; [lia|].
  destruct (findUncoveredZero _ _ _); lia.
Qed.

Lemma case2_weight cm s :
  searching cm s -> step s = 2 -> weight (side cm) (case2 s) < weight (side cm) s.
Proof.
  intros [Hwf Hcov Hprime] Hstep. destruct Hwf as [Hmat Hmk Hrl Hcl Hind Hz].
  destruct Hcov as [Hstar Hrow Hcol HL].
  unfold weight at 2. rewrite Hstep. unfold case2.
  destruct (findUncoveredZero (matrix s) (rowCover s) (colCover s))
    as [[r c]|] eqn:Hfind.
  2:{ unfold weight. simpl. lia. }
  destruct (findUncoveredZero_Some (side cm) _ _ _ _ _ (proj1 Hmat) Hfind)
    as (Hr & Hc & Hzero & Hur & Huc).
  set (masks' := setCell (masks s) r c 2).
  assert (Hstars : forall i j, mask masks' i j = 1 <-> mask (masks s) i j = 1).
  { intros i j. unfold masks'. rewrite (mask_setCell (side cm)) by assumption.
    destruct (decide _) as [[<- <-]|_]; [|reflexivity].
    split; [discriminate|]. intros H1. specialize (Hstar r c H1).
    rewrite Hur, Huc in Hstar. discriminate. }
  assert (HU : unstarred (side cm) masks' <= unstarred (side cm) (masks s)).
  { apply unstarred_mono. intros j [i Hi]. exists i. apply Hstars. exact Hi. }
  destruct (findStarInRow masks' r) as [sc|] eqn:Hsr.
  - unfold weight. simpl.
    pose proof (uncoveredRows_cover (side cm) (rowCover s) r Hrl Hr Hur) as HV.
    assert (HK : (3 * side cm + 5) * unstarred (side cm) masks'
                 <= (3 * side cm + 5) * unstarred (side cm) (masks s))
      by (apply Nat.mul_le_mono_l; exact HU).
    match goal with |- context [findUncoveredZero ?m ?a ?b] =>
      destruct (findUncoveredZero m a b) end; lia.
  - unfold weight. simpl.
    assert (HK : (3 * side cm + 5) * unstarred (side cm) masks'
                 <= (3 * side cm + 5) * unstarred (side cm) (masks s))
      by (apply Nat.mul_le_mono_l; exact HU).
    lia.
Qed.

Lemma case6_weight cm s :
  searching cm s -> step s = 6 ->
  weight (side cm) (case6 (side cm) s) < weight (side cm) s.
Proof.
  intros Hse Hstep. pose proof (case6_zero cm s Hse) as Hzero.
  unfold weight at 2. rewrite Hstep. revert Hzero. unfold case6.
  destruct (findMinUncoveredValue (matrix s) (rowCover s) (colCover s)) as [d|].
  - simpl. intros Hzero. specialize (Hzero eq_refl). unfold weight. simpl.
    destruct (findUncoveredZero _ _ _); [lia|congruence].
  - intros _. unfold weight. simpl. lia.
Qed.

(** One turn keeps the invariant and decreases the measure. *)
Lemma turn_progress cm s pathFuel :
  invariant cm s -> step s <> 0 -> side cm < pathFuel ->
  exists s', turn pathFuel (side cm) s = Some s' /\ invariant cm s' /\
             weight (side cm) s' < weight (side cm) s.
Proof.
  intros Hinv Hstep Hfuel. unfold invariant in Hinv. unfold turn.
  destruct (step s) as [|[|[|[|[|[|[|k]]]]]]] eqn:Hs; try contradiction.
  - eexists. split; [reflexivity|]. split.
    + apply case1_invariant. exact Hinv.
    + apply case1_weight; assumption.
  - eexists. split; [reflexivity|]. split.
    + apply case2_invariant. exact Hinv.
    + apply case2_weight; assumption.
  - destruct (case3_invariant cm s pathFuel Hinv Hfuel)
      as (s' & Hcase & Hstep' & Hco & Hkeep & Hnew).
    exists s'. split; [exact Hcase|]. split.
    + unfold invariant. rewrite Hstep'. exact Hco.
    + unfold weight. rewrite Hstep', Hs.
      pose proof (unstarred_strict (side cm) (masks s) (masks s')
                    (wf_masks _ _ (co_wf _ _ Hco)) Hkeep Hnew) as HU.
      assert (HK : (3 * side cm + 5) * S (unstarred (side cm) (masks s'))
                   <= (3 * side cm + 5) * unstarred (side cm) (masks s))
        by (apply Nat.mul_le_mono_l; lia).
      lia.
  - eexists. split; [reflexivity|]. split.
    + apply case6_invariant. exact Hinv.
    + apply case6_weight; assumption.
Qed.

Lemma run_terminates cm pathFuel : forall w s fuel,
  invariant cm s -> side cm < pathFuel -> weight (side cm) s <= w -> w <= fuel ->
  exists s', run pathFuel fuel (side cm) s = Some s' /\ step s' = 0 /\ finished cm s'.
Proof.
  induction w as [|w IH]; intros s fuel Hinv Hpf Hw Hfuel.
  - assert (Hstep : step s = 0).
    { destruct (decide (step s = 0)) as [H0|H0]; [exact H0|].
      destruct (turn_progress cm s pathFuel Hinv H0 Hpf) as (s' & _ & _ & Hlt). lia. }
    exists s. unfold invariant in Hinv. rewrite Hstep in Hinv.
    destruct fuel; simpl; rewrite Hstep; auto.
  - destruct (decide (step s = 0)) as [H0|H0].
    + exists s. unfold invariant in Hinv. rewrite H0 in Hinv.
      destruct fuel; simpl; rewrite H0; auto.
    + destruct (turn_progress cm s pathFuel Hinv H0 Hpf) as (s' & Hturn & Hinv' & Hlt).
      destruct fuel as [|fuel]; [lia|]. simpl.
      destruct (Nat.eqb_spec (step s) 0) as [|_]; [contradiction|].
      rewrite Hturn. apply IH; auto; lia.
Qed.

(** More fuel does not change the result. *)
Lemma augmentFrom_mono masks : forall fuel fuel' c path,
  augmentFrom fuel masks c = Some path -> fuel <= fuel' ->
  augmentFrom fuel' masks c = Some path.
Proof.
  induction fuel as [|fuel IH]; intros fuel' c path H Hle; [discriminate|].
  destruct fuel' as [|fuel']; [lia|]. simpl in *.
  destruct (findStarInCol masks c) as [s|]; [|exact H].
  destruct (findPrimeInRow masks s) as [c'|]; [|exact H].
  destruct (augmentFrom fuel masks c') as [p|] eqn:E; [|discriminate].
  rewrite (IH fuel' c' p E) by lia. exact H.
Qed.

End HungarianTermination.

(** ** The Hungarian solver: from the first state to the result *)
Module HungarianResult.
Import Num Loops LoopFacts NestedLoops Hungarian HungarianShape HungarianFind
       HungarianInv HungarianPath HungarianTermination.
Local Open Scope nat_scope.

(** *** The greedy starring of lines 54-62 *)

Record starred (n : nat) (matrix : list (list num))
    (st : list (list nat) * list bool * list bool) : Prop :=
  { sd_masks : square n st.1.1;
    sd_rows : length st.1.2 = n;
    sd_cols : length st.2 = n;
    sd_star : forall i j, mask st.1.1 i j = 1 ->
                covered st.1.2 i = true /\ covered st.2 j = true /\
                isZero (entry matrix i j) = true;
    sd_values : forall i j, mask st.1.1 i j = 0 \/ mask st.1.1 i j = 1;
    sd_indep : independent st.1.1 }.

Lemma starZeros_starred n matrix st :
  starred n matrix st -> starred n matrix (starZeros n matrix st).
Proof.
  intros Hst. unfold starZeros.
  apply (for_range_inv (starred n matrix)); [exact Hst|].
  intros i st1 Hi Hst1.
  apply (for_range_inv (starred n matrix)); [exact Hst1|].
  intros j [[mk rc] cc] Hj [Hsq Hrl Hcl Hstar Hval [Hrow Hcol]]. simpl in *.
  destruct (isZero (entry matrix i j)) eqn:Hz; simpl;
    [|constructor; simpl; auto; split; assumption].
  destruct (covered rc i) eqn:Hr; simpl;
    [constructor; simpl; auto; split; assumption|].
  destruct (covered cc j) eqn:Hc; simpl;
    [constructor; simpl; auto; split; assumption|].
  assert (Hm : forall a b, mask (setCell mk i j 1) a b =
             if decide (i = a /\ j = b) then 1 else mask mk a b).
  { intros a b. apply (mask_setCell n); assumption. }
  assert (Hrowfree : forall b, mask mk i b <> 1).
  { intros b Hb. destruct (Hstar _ _ Hb) as (H1 & _). congruence. }
  assert (Hcolfree : forall a, mask mk a j <> 1).
  { intros a Ha. destruct (Hstar _ _ Ha) as (_ & H1 & _). congruence. }
  constructor; simpl.
  - apply square_modCell. exact Hsq.
  - rewrite length_insert. exact Hrl.
  - rewrite length_insert. exact Hcl.
  - intros a b. rewrite Hm, !covered_insert, Hrl, Hcl.
    destruct (decide (i = a /\ j = b)) as [[<- <-]|Hne].
    + intros _. rewrite !decide_True by auto. auto.
    + intros Hab. destruct (Hstar _ _ Hab) as (H1 & H2 & H3).
      split; [|split; [|exact H3]].
      * destruct (decide _); [reflexivity|exact H1].
      * destruct (decide _); [reflexivity|exact H2].
  - intros a b. rewrite Hm. destruct (decide _); [auto|apply Hval].
  - split.
    + intros a b b'. rewrite !Hm.
      destruct (decide (i = a /\ j = b)) as [[Ha Hb]|H1];
        destruct (decide (i = a /\ j = b')) as [[Ha' Hb']|H2]; intros E1 E2.
      * congruence.
      * subst a. exfalso. exact (Hrowfree _ E2).
      * subst a. exfalso. exact (Hrowfree _ E1).
      * eapply Hrow; eauto.
    + intros a a' b. rewrite !Hm.
      destruct (decide (i = a /\ j = b)) as [[Ha Hb]|H1];
        destruct (decide (i = a' /\ j = b)) as [[Ha' Hb']|H2]; intros E1 E2.
      * congruence.
      * subst b. exfalso. exact (Hcolfree _ E2).
      * subst b. exfalso. exact (Hcolfree _ E1).
      * eapply Hcol; eauto.
Qed.

Lemma mask_replicate n i j : mask (replicate n (replicate n 0)) i j = 0.
Proof. unfold mask. rewrite cell_replicate. destruct (decide _); reflexivity. Qed.

Lemma initialState_covering (cm : list (list Z)) :
  rectangular cm -> covering cm (initialState cm) /\ step (initialState cm) = 1.
Proof.
  intros Hrect. unfold initialState. fold (side cm).
  pose proof (shaped_reduced cm Hrect) as Hshape.
  set (matrix := subtractColMinima (side cm) (subtractRowMinima (side cm) (padMatrix cm)))
    in *.
  assert (H0 : starred (side cm) matrix
            (replicate (side cm) (replicate (side cm) 0),
             replicate (side cm) false, replicate (side cm) false)).
  { constructor; simpl.
    - apply square_replicate.
    - apply length_replicate.
    - apply length_replicate.
    - intros i j. rewrite mask_replicate. discriminate.
    - intros i j. rewrite mask_replicate. auto.
    - split; intros ? ? ?; rewrite mask_replicate; discriminate. }
  apply starZeros_starred in H0.
  destruct (starZeros _ _ _) as [[mk rc] cc].
  destruct H0 as [Hsq Hrl Hcl Hstar Hval Hind]. simpl in *.
  split; [|reflexivity]. constructor; simpl.
  - constructor; simpl; try assumption.
    + rewrite length_fill. exact Hrl.
    + rewrite length_fill. exact Hcl.
    + intros i j [H1|H2]; [apply (Hstar _ _ H1)|].
      destruct (Hval i j); congruence.
  - intros i. unfold covered. apply nth_fill_false.
  - intros i j. destruct (Hval i j); congruence.
Qed.

(** The fuel that is enough for a matrix of side [n]. *)
Definition enoughFuel (n : nat) : nat := (3 * n + 5) * (n + 1) + 1.

Lemma unstarred_le n masks : unstarred n masks <= n.
Proof.
  unfold unstarred. etransitivity; [apply length_filter|].
  rewrite length_seq. reflexivity.
Qed.

Lemma run_initialState (cm : list (list Z)) (pathFuel fuel : nat) :
  rectangular cm -> side cm < pathFuel -> enoughFuel (side cm) <= fuel ->
  exists s, run pathFuel fuel (side cm) (initialState cm) = Some s /\
            step s = 0 /\ finished cm s.
Proof.
  intros Hrect Hpf Hfuel.
  destruct (initialState_covering cm Hrect) as [Hco Hstep].
  apply (run_terminates cm pathFuel (enoughFuel (side cm))); auto.
  - unfold invariant. rewrite Hstep. exact Hco.
  - unfold weight. rewrite Hstep. unfold enoughFuel.
    pose proof (unstarred_le (side cm) (masks (initialState cm))) as HU.
    assert ((3 * side cm + 5) * unstarred (side cm) (masks (initialState cm))
            <= (3 * side cm + 5) * side cm) by (apply Nat.mul_le_mono_l; exact HU).
    lia.
Qed.

(** *** More fuel, same result *)

Lemma turn_mono pathFuel pathFuel' n s s' :
  turn pathFuel n s = Some s' -> pathFuel <= pathFuel' ->
  turn pathFuel' n s = Some s'.
Proof.
  unfold turn. intros H Hle.
  destruct (step s) as [|[|[|[|[|[|[|k]]]]]]]; try exact H.
  unfold case3, findAugmentingPath in *.
  destruct (pathStart s) as [start|]; [|discriminate].
  destruct (augmentFrom pathFuel (masks s) (snd start)) as [path|] eqn:E;
    [|discriminate].
  rewrite (augmentFrom_mono _ _ _ _ _ E Hle). exact H.
Qed.

Lemma run_mono pathFuel pathFuel' n : forall fuel fuel' s s',
  run pathFuel fuel n s = Some s' -> pathFuel <= pathFuel' -> fuel <= fuel' ->
  run pathFuel' fuel' n s = Some s'.
Proof.
  induction fuel as [|fuel IH]; intros fuel' s s' H Hp Hf.
  - simpl in H. destruct (Nat.eqb (step s) 0) eqn:E; [|discriminate].
    destruct fuel'; simpl; rewrite E; exact H.
  - destruct fuel' as [|fuel']; [lia|]. simpl in *.
    destruct (Nat.eqb (step s) 0); [exact H|].
    destruct (turn pathFuel n s) as [s1|] eqn:E; [|discriminate].
    rewrite (turn_mono _ _ _ _ _ E Hp). apply IH; [exact H|exact Hp|lia].
Qed.

Lemma hungarian_mono fuel fuel' cm out :
  hungarian fuel cm = Some out -> fuel <= fuel' -> hungarian fuel' cm = Some out.
Proof.
  unfold hungarian. intros H Hle.
  destruct (run fuel fuel _ (initialState cm)) as [s|] eqn:E; [|discriminate].
  rewrite (run_mono _ _ _ _ _ _ _ E Hle Hle). exact H.
Qed.

(** *** The result read from the stars *)

(** The cost of an assignment in the original matrix, and of a list of
    them. *)
Definition costOf (cm : list (list Z)) (a : Assignment) : Z :=
  cell 0%Z cm (driver a) (passenger a).

Definition sumCosts (cm : list (list Z)) (l : list Assignment) : Z :=
  foldr (fun a acc => (costOf cm a + acc)%Z) 0%Z l.

Lemma sumCosts_snoc cm l a : sumCosts cm (l ++ [a]) = (sumCosts cm l + costOf cm a)%Z.
Proof.
  unfold sumCosts. induction l as [|b l IH]; simpl; [lia|]. rewrite IH. lia.
Qed.

Lemma extract_spec cm masks :
  (forall a, a ∈ assignments (extract cm masks) <->
             mask masks (driver a) (passenger a) = 1 /\
             real cm (driver a) (passenger a)) /\
  NoDup (assignments (extract cm masks)) /\
  totalCost (extract cm masks) = sumCosts cm (assignments (extract cm masks)).
Proof.
  unfold extract.
  pose (P := fun i j (st : list Assignment * Z) =>
    (forall a, a ∈ st.1 <->
       mask masks (driver a) (passenger a) = 1 /\
       before (colCount cm) i j (driver a) (passenger a)) /\
    NoDup st.1 /\ st.2 = sumCosts cm st.1).
  assert (HP : P (rowCount cm) 0
    (for_range (rowCount cm) (fun i =>
       for_range (colCount cm) (fun j '(assignments, totalCost) =>
         if Nat.eqb (mask masks i j) 1
         then (assignments ++ [{| driver := i; passenger := j |}],
               (totalCost + cell 0 cm i j)%Z)
         else (assignments, totalCost))) ([], 0%Z))).
  { apply for2_ind.
    - unfold P. simpl. split; [|split; [constructor|reflexivity]]. intros a. split.
      + intros H. inversion H.
      + intros [_ Hb]. exfalso. exact (before_0 _ _ _ Hb).
    - unfold P. intros i j [l tot] Hi Hj (Hmem & Hnd & Hsum). simpl in *.
      destruct (Nat.eqb_spec (mask masks i j) 1) as [Hm|Hm]; simpl.
      + split; [|split].
        * intros a. rewrite elem_of_app, Hmem, before_S_col, list_elem_of_singleton.
          split.
          -- intros [[H1 H2]| ->]; simpl; auto.
          -- intros [H1 [H2|[H2 H3]]]; [auto|]. right.
             destruct a as [d p]. simpl in *. congruence.
        * apply NoDup_app. split; [exact Hnd|]. split; [|apply NoDup_singleton].
          intros a Ha Hs. apply list_elem_of_singleton in Hs. subst a.
          apply Hmem in Ha as [_ Hb]. simpl in Hb. unfold before in Hb. lia.
        * rewrite sumCosts_snoc, Hsum. reflexivity.
      + split; [|split; assumption].
        intros a. rewrite Hmem, before_S_col. split; [tauto|].
        intros [H1 [H2|[H2 H3]]]; [auto|]. congruence.
    - unfold P. intros i [l tot] Hi (Hmem & Hnd & Hsum). simpl in *.
      split; [|split; assumption].
      intros a. rewrite Hmem, before_S_row. reflexivity. }
  unfold P in HP.
  destruct (for_range _ _ _) as [l tot]. destruct HP as (Hmem & Hnd & Hsum).
  simpl in *. split; [|split; assumption].
  intros a. rewrite Hmem, before_end. reflexivity.
Qed.

End HungarianResult.

(** ** The Hungarian solver: feasibility of the result *)
Module HungarianFeasible.
Import Num Loops LoopFacts NestedLoops Hungarian HungarianShape HungarianFind
       HungarianInv HungarianPath HungarianTermination HungarianResult.
Local Open Scope nat_scope.

Lemma enoughFuel_side n : n < enoughFuel n.
Proof. unfold enoughFuel. nia. Qed.

(** The loop stops, in the same state whatever the fuel past
    [enoughFuel]. *)
Lemma run_finished (cm : list (list Z)) :
  rectangular cm ->
  exists s, (forall fuel, enoughFuel (side cm) <= fuel ->
               run fuel fuel (side cm) (initialState cm) = Some s) /\
            step s = 0 /\ finished cm s.
Proof.
  intros Hrect.
  destruct (run_initialState cm (enoughFuel (side cm)) (enoughFuel (side cm)) Hrect)
    as (s & Hrun & Hstep & Hfin); [apply enoughFuel_side|reflexivity|].
  exists s. split; [|auto]. intros fuel Hfuel.
  eapply run_mono; eauto.
Qed.

Lemma covers_all (l : list nat) (n : nat) :
  (forall i, i < n -> i ∈ l) -> n <= length l.
Proof.
  intros H. assert (Hsub : seq 0 n ⊆+ l).
  { apply NoDup_submseteq; [apply NoDup_seq|].
    intros i Hi. apply H. apply elem_of_seq in Hi. lia. }
  apply submseteq_length in Hsub. rewrite length_seq in Hsub. exact Hsub.
Qed.

Lemma star_real cm s i j :
  wf cm s -> mask (masks s) i j = 1 -> real cm i j.
Proof.
  intros Hwf Hm. apply (wf_matrix _ _ Hwf). apply isZero_isFinite.
  apply (wf_zeros _ _ Hwf). auto.
Qed.

(** When the loop stops, every original row has a star or every original
    column has one. *)
Lemma finished_saturated cm s :
  finished cm s ->
  (forall i, i < rowCount cm -> exists j, mask (masks s) i j = 1) \/
  (forall j, j < colCount cm -> exists i, mask (masks s) i j = 1).
Proof.
  intros [Hwf Hrow Hcol Hexit]. destruct Hexit as [Hall|Hnone].
  - right. intros j Hj. apply Hcol. apply Hall. unfold side. lia.
  - assert (Hdec : forall i, {findStarInRow (masks s) i <> None} +
                             {findStarInRow (masks s) i = None}).
    { intros i. destruct (findStarInRow (masks s) i);
        [left; discriminate|right; reflexivity]. }
    destruct (Forall_Exists_dec _ _ Hdec (seq 0 (rowCount cm))) as [Hf|He].
    + left. intros i Hi. rewrite Forall_forall in Hf.
      specialize (Hf i). destruct (findStarInRow (masks s) i) as [j|] eqn:E.
      * exists j. apply findStarInRow_Some. exact E.
      * exfalso. apply Hf; [|reflexivity]. apply elem_of_seq. lia.
    + right. apply Exists_exists in He as (i0 & Hi0 & Hno).
      apply elem_of_seq in Hi0. rewrite findStarInRow_None in Hno.
      assert (Hur : covered (rowCover s) i0 = false).
      { destruct (covered (rowCover s) i0) eqn:E; [|reflexivity].
        destruct (Hrow i0 E) as [j Hj]. exfalso. exact (Hno j Hj). }
      intros j Hj. apply Hcol.
      destruct (covered (colCover s) j) eqn:Hc; [reflexivity|]. exfalso.
      assert (Hreal : real cm i0 j) by (split; lia).
      apply (wf_matrix _ _ Hwf) in Hreal.
      rewrite (Hnone i0 j) in Hreal; [discriminate| | |assumption|assumption];
        unfold side; lia.
Qed.

(** The assignments read from a final state. *)
Lemma finished_assignments cm s :
  finished cm s ->
  let out := extract cm (masks s) in
  length (assignments out) = Nat.min (rowCount cm) (colCount cm) /\
  NoDup (driver <$> assignments out) /\
  NoDup (passenger <$> assignments out) /\
  (forall a, a ∈ assignments out ->
             driver a < rowCount cm /\ passenger a < colCount cm) /\
  totalCost out = sumCosts cm (assignments out).
Proof.
  intros Hfin out. pose proof (fi_wf _ _ Hfin) as Hwf.
  destruct (extract_spec cm (masks s)) as (Hmem & Hnd & Hsum). fold out in Hmem, Hnd, Hsum.
  destruct (wf_indep _ _ Hwf) as [Hrow Hcol].
  assert (Hd : NoDup (driver <$> assignments out)).
  { apply NoDup_fmap_2_strong; [|exact Hnd].
    intros [d p] [d' p'] Ha Hb Heq. simpl in Heq. subst d'.
    apply Hmem in Ha as [Ha _], Hb as [Hb _]. simpl in *.
    f_equal. eapply Hrow; eauto. }
  assert (Hp : NoDup (passenger <$> assignments out)).
  { apply NoDup_fmap_2_strong; [|exact Hnd].
    intros [d p] [d' p'] Ha Hb Heq. simpl in Heq. subst p'.
    apply Hmem in Ha as [Ha _], Hb as [Hb _]. simpl in *.
    f_equal. eapply Hcol; eauto. }
  assert (Hreal : forall a, a ∈ assignments out ->
            driver a < rowCount cm /\ passenger a < colCount cm).
  { intros a Ha. apply Hmem in Ha as [_ Hr]. exact Hr. }
  split; [|auto].
  assert (Hle1 : length (assignments out) <= rowCount cm).
  { rewrite <- (length_fmap driver). apply NoDup_bounded_length; [exact Hd|].
    intros x Hx. apply list_elem_of_fmap in Hx as (a & -> & Ha). apply Hreal, Ha. }
  assert (Hle2 : length (assignments out) <= colCount cm).
  { rewrite <- (length_fmap passenger). apply NoDup_bounded_length; [exact Hp|].
    intros x Hx. apply list_elem_of_fmap in Hx as (a & -> & Ha). apply Hreal, Ha. }
  destruct (finished_saturated cm s Hfin) as [Hall|Hall].
  - assert (rowCount cm <= length (assignments out)); [|lia].
    rewrite <- (length_fmap driver). apply covers_all. intros i Hi.
    destruct (Hall i Hi) as [j Hj]. apply list_elem_of_fmap.
    exists {| driver := i; passenger := j |}. split; [reflexivity|].
    apply Hmem. simpl. split; [exact Hj|]. eapply star_real; eauto.
  - assert (colCount cm <= length (assignments out)); [|lia].
    rewrite <- (length_fmap passenger). apply covers_all. intros j Hj.
    destruct (Hall j Hj) as [i Hi]. apply list_elem_of_fmap.
    exists {| driver := i; passenger := j |}. split; [reflexivity|].
    apply Hmem. simpl. split; [exact Hi|]. eapply star_real; eauto.
Qed.

(** The solver returns, with the same result whatever the fuel past
    [enoughFuel], and the result is read from a final state. *)
Lemma hungarian_returns (cm : list (list Z)) :
  rectangular cm ->
  exists s, step s = 0 /\ finished cm s /\
    forall fuel, enoughFuel (side cm) <= fuel ->
      run fuel fuel (side cm) (initialState cm) = Some s /\
      hungarian fuel cm = Some (extract cm (masks s)).
Proof.
  intros Hrect. destruct (run_finished cm Hrect) as (s & Hrun & Hstep & Hfin).
  exists s. split; [exact Hstep|]. split; [exact Hfin|].
  intros fuel Hfuel. split; [apply Hrun; exact Hfuel|].
  unfold hungarian. fold (side cm). rewrite (Hrun fuel Hfuel). reflexivity.
Qed.

End HungarianFeasible.

(** ** The Hungarian solver: the square case *)
Module HungarianOptimal.
Import Num Loops LoopFacts NestedLoops Hungarian HungarianShape HungarianFind
       HungarianInv HungarianPath HungarianTermination HungarianResult
       HungarianFeasible.
Local Open Scope nat_scope.

(** *** The least finite value *)



Lemma entry_row (m : list (list num)) (i j : nat) (z : Z) :
  entry m i j = Fin z -> Fin z ∈ nth i m [].
Proof.
  unfold entry, cell. intros H. rewrite <- H. rewrite nth_lookup.
  destruct (nth i m [] !! j) as [x|] eqn:E.
  - simpl. eapply list_elem_of_lookup_2. exact E.
  - rewrite nth_lookup, E in H. discriminate.
Qed.


(** *** The reductions of the rows and of the columns *)



Lemma subtractFinite_Inf_l x : subtractFinite Inf x = x.
Proof. reflexivity. Qed.








(** *** The reduced matrix *)







(** *** Step 6 on a reduced matrix *)

Lemma min_le_l (acc x : num) (z : Z) :
  (exists d, acc = Fin d /\ (d <= z)%Z) -> exists d, min acc x = Fin d /\ (d <= z)%Z.
Proof.
  intros (d & -> & Hd). destruct x as [w|]; simpl; eexists; (split; [reflexivity|lia]).
Qed.

Lemma min_le_r (acc : num) (z : Z) : exists d, min acc (Fin z) = Fin d /\ (d <= z)%Z.
Proof. destruct acc as [w|]; simpl; eexists; (split; [reflexivity|lia]). Qed.

(** The value of [findMinUncoveredValue] is below every uncovered finite
    entry. *)
Lemma findMinUncoveredValue_le n matrix rowCover colCover :
  square n matrix ->
  forall i j z, i < n -> j < n -> covered rowCover i = false ->
    covered colCover j = false -> entry matrix i j = Fin z ->
    exists d, findMinUncoveredValue matrix rowCover colCover = Fin d /\ (d <= z)%Z.
Proof.
  intros [Hlen Hrows]. unfold findMinUncoveredValue. rewrite Hlen.
  pose (Q := fun (i j : nat) (acc : num) =>
    forall i' j' z, (i' < i /\ j' < n) \/ (i' = i /\ j' < j) ->
      covered rowCover i' = false -> covered colCover j' = false ->
      entry matrix i' j' = Fin z -> exists d, acc = Fin d /\ (d <= z)%Z).
  assert (HQ : Q n 0 (for_range n (fun i minVal =>
    if negb (covered rowCover i) then
      for_range (length (nth i matrix [])) (fun j minVal =>
        if negb (covered colCover j) then min minVal (entry matrix i j) else minVal) minVal
    else minVal) Inf)).
  { apply (for_range_ind (fun i => Q i 0)); unfold Q.
    - intros i' j' z Hb. lia.
    - intros i acc Hi HQ.
      destruct (lookup_lt_is_Some_2 matrix i) as [row Hrow]; [lia|].
      rewrite (nth_lookup_Some _ _ _ _ Hrow), (Hrows _ _ Hrow).
      destruct (covered rowCover i) eqn:Hr; simpl.
      + intros i' j' z Hb Hr' Hc'. destruct (decide (i' = i)) as [->|Hne];
          [congruence|]. apply HQ; [lia|assumption|assumption].
      + assert (HQn : Q i n (for_range n (fun j minVal =>
          if negb (covered colCover j) then min minVal (entry matrix i j) else minVal) acc)).
        { apply (for_range_ind (fun j => Q i j)); unfold Q; [exact HQ|].
          intros j acc' Hj HQ'. destruct (covered colCover j) eqn:Hc; simpl.
          - intros i' j' z Hb Hr' Hc'.
            destruct (decide (i' = i /\ j' = j)) as [[-> ->]|Hne]; [congruence|].
            apply HQ'; [lia|assumption|assumption].
          - intros i' j' z Hb Hr' Hc' Hz.
            destruct (decide (i' = i /\ j' = j)) as [[-> ->]|Hne].
            + rewrite Hz. apply min_le_r.
            + apply min_le_l. apply (HQ' i' j'); [lia|assumption|assumption|assumption]. }
        unfold Q in HQn. intros i' j' z Hb. apply HQn. lia. }
  intros i j z Hi Hj. apply HQ. lia.
Qed.



(** *** The loop keeps the matrix reduced *)




(** *** The cost of a complete matching *)

(** A complete matching of the cost matrix: as many pairs as the smaller
    side has lines, inside the matrix, no row and no column used twice. *)
Record completeMatching (cm : list (list Z)) (l : list Assignment) : Prop :=
  { cm_length : length l = Nat.min (rowCount cm) (colCount cm);
    cm_range : forall a, a ∈ l -> driver a < rowCount cm /\ passenger a < colCount cm;
    cm_rows : NoDup (driver <$> l);
    cm_cols : NoDup (passenger <$> l) }.








End HungarianOptimal.

(** ** The union-find structure *)
Module UnionFindFacts.
Import Kruskal.
Local Open Scope nat_scope.

(** The parent of a node; a node that is not registered is its own
    parent, as it is once [find] has registered it. *)
Definition next (uf : UnionFind) (x : string) : string :=
  default x (parent uf !! x).

(** [rootOf nx x r]: following the parents from [x] leads to the root
    [r]. *)
Inductive rootOf (nx : string -> string) : string -> string -> Prop :=
| root_self x : nx x = x -> rootOf nx x x
| root_step x r : nx x <> x -> rootOf nx (nx x) r -> rootOf nx x r.

(** Two nodes are in the same component. *)
Definition comp (uf : UnionFind) (x y : string) : Prop :=
  exists r, rootOf (next uf) x r /\ rootOf (next uf) y r.

Lemma rootOf_root nx x r : rootOf nx x r -> nx r = r.
Proof. induction 1; assumption. Qed.

Lemma rootOf_fun nx x r r' : rootOf nx x r -> rootOf nx x r' -> r = r'.
Proof.
  intros H. revert r'. induction H as [x Hx|x r Hx H IH]; intros r' H'.
  - inversion H'; subst; [reflexivity|contradiction].
  - inversion H'; subst; [contradiction|]. apply IH. assumption.
Qed.

Lemma rootOf_ext nx nx' x r :
  (forall y, nx y = nx' y) -> rootOf nx x r -> rootOf nx' x r.
Proof.
  intros Hext H. induction H as [x Hx|x r Hx H IH].
  - apply root_self. rewrite <- Hext. exact Hx.
  - apply root_step; rewrite <- Hext; assumption.
Qed.

(** Pointing [x] at its root changes no root. *)
Lemma rootOf_compress nx nx' x r :
  rootOf nx x r ->
  (forall y, nx' y = if decide (y = x) then r else nx y) ->
  forall y r', rootOf nx' y r' <-> rootOf nx y r'.
Proof.
  intros Hx Hnx'. pose proof (rootOf_root _ _ _ Hx) as Hr.
  assert (Hr' : nx' r = r).
  { rewrite Hnx'. destruct (decide (r = x)); [reflexivity|exact Hr]. }
  intros y r'. split.
  - intros H. induction H as [y Hy|y r' Hy H IH].
    + rewrite Hnx' in Hy. destruct (decide (y = x)) as [->|Hne].
      * subst r. exact Hx.
      * apply root_self. exact Hy.
    + rewrite Hnx' in Hy, IH. destruct (decide (y = x)) as [->|Hne].
      * assert (r' = r) by (eapply rootOf_fun; [exact IH|apply root_self; exact Hr]).
        subst r'. exact Hx.
      * apply root_step; assumption.
  - intros H. induction H as [y Hy|y r' Hy H IH].
    + apply root_self. rewrite Hnx'. destruct (decide (y = x)) as [->|Hne]; [|exact Hy].
      eapply rootOf_fun; [exact Hx|apply root_self; exact Hy].
    + destruct (decide (y = x)) as [->|Hne].
      * assert (r' = r).
        { eapply rootOf_fun; [|exact Hx]. apply root_step; assumption. }
        subst r'. apply root_step.
        -- rewrite Hnx', decide_True by reflexivity. intros ->. contradiction.
        -- rewrite Hnx', decide_True by reflexivity. apply root_self. exact Hr'.
      * apply root_step; rewrite Hnx', decide_False by exact Hne; assumption.
Qed.

(** Hanging the root [c] under another root [w] sends the nodes of [c] to
    [w] and leaves the others. *)
Lemma rootOf_link nx nx' c w :
  nx c = c -> nx w = w -> c <> w ->
  (forall y, nx' y = if decide (y = c) then w else nx y) ->
  forall y r', rootOf nx' y r' <->
               exists r0, rootOf nx y r0 /\ r' = if decide (r0 = c) then w else r0.
Proof.
  intros Hc Hw Hcw Hnx'.
  assert (Hw' : nx' w = w).
  { rewrite Hnx', decide_False by congruence. exact Hw. }
  intros y r'. split.
  - intros H. induction H as [y Hy|y r' Hy H IH].
    + rewrite Hnx' in Hy. destruct (decide (y = c)) as [->|Hne]; [congruence|].
      exists y. split; [apply root_self; exact Hy|].
      rewrite decide_False by exact Hne. reflexivity.
    + destruct IH as (r0 & H0 & Hr'). rewrite Hnx' in Hy, H0.
      destruct (decide (y = c)) as [->|Hne].
      * assert (r0 = w) by (eapply rootOf_fun; [exact H0|apply root_self; exact Hw]).
        subst r0. rewrite decide_False in Hr' by congruence. subst r'.
        exists c. split; [apply root_self; exact Hc|].
        rewrite decide_True by reflexivity. reflexivity.
      * exists r0. split; [|exact Hr']. apply root_step; assumption.
  - intros (r0 & H0 & ->). induction H0 as [y Hy|y r0 Hy H0 IH].
    + destruct (decide (y = c)) as [->|Hne].
      * apply root_step.
        -- rewrite Hnx', decide_True by reflexivity. congruence.
        -- rewrite Hnx', decide_True by reflexivity. apply root_self. exact Hw'.
      * apply root_self. rewrite Hnx', decide_False by exact Hne. exact Hy.
    + assert (Hne : y <> c) by (intros ->; contradiction).
      apply root_step; rewrite Hnx', decide_False by exact Hne; assumption.
Qed.

(** *** The invariant of the structure *)

Record ufInv (B : nat) (uf : UnionFind) : Prop :=
  { inv_dom : forall x, is_Some (parent uf !! x) <-> is_Some (rank uf !! x);
    inv_rank : forall x, next uf x <> x -> rankOf uf x < rankOf uf (next uf x);
    inv_bound : forall x, rankOf uf x <= B }.

Lemma ufInv_weaken B B' uf : ufInv B uf -> B <= B' -> ufInv B' uf.
Proof.
  intros [H1 H2 H3] Hle. constructor; auto. intros x. specialize (H3 x). lia.
Qed.

(** Every node has a root. *)
Lemma rootOf_total B uf x : ufInv B uf -> exists r, rootOf (next uf) x r.
Proof.
  intros Hinv. remember (B - rankOf uf x) as d eqn:Hd.
  revert x Hd. induction d as [d IH] using lt_wf_ind. intros x Hd.
  destruct (decide (next uf x = x)) as [Heq|Hne].
  - exists x. apply root_self. exact Heq.
  - pose proof (inv_rank _ _ Hinv x Hne) as Hlt.
    pose proof (inv_bound _ _ Hinv (next uf x)) as Hb.
    destruct (IH (B - rankOf uf (next uf x))) with (x := next uf x) as [r Hr];
      [lia|reflexivity|].
    exists r. apply root_step; assumption.
Qed.

Lemma rootOf_rank B uf x r :
  ufInv B uf -> rootOf (next uf) x r -> x <> r -> rankOf uf x < rankOf uf r.
Proof.
  intros Hinv H. induction H as [x Hx|x r Hx H IH]; [congruence|].
  intros _. pose proof (inv_rank _ _ Hinv x Hx) as Hlt.
  destruct (decide (next uf x = r)) as [<-|Hne]; [exact Hlt|].
  specialize (IH Hne). lia.
Qed.

Lemma comp_refl B uf x : ufInv B uf -> comp uf x x.
Proof. intros Hinv. destruct (rootOf_total B uf x Hinv) as [r Hr]. exists r. auto. Qed.

Lemma comp_sym uf x y : comp uf x y -> comp uf y x.
Proof. intros (r & H1 & H2). exists r. auto. Qed.

Lemma comp_trans uf x y z : comp uf x y -> comp uf y z -> comp uf x z.
Proof.
  intros (r & H1 & H2) (r' & H3 & H4).
  assert (r = r') by (eapply rootOf_fun; eauto). subst r'. exists r. auto.
Qed.

Lemma comp_root uf x y r :
  rootOf (next uf) x r -> comp uf x y <-> rootOf (next uf) y r.
Proof.
  intros Hx. split.
  - intros (r' & H1 & H2).
    assert (r = r') by (eapply rootOf_fun; eauto). subst r'. exact H2.
  - intros Hy. exists r. auto.
Qed.

Lemma rootOf_registered B uf x r :
  ufInv B uf -> rootOf (next uf) x r -> is_Some (parent uf !! x) ->
  is_Some (parent uf !! r).
Proof.
  intros Hinv H. induction H as [x Hx|x r Hx H IH]; [auto|].
  intros _. apply IH. apply (inv_dom _ _ Hinv).
  pose proof (inv_rank _ _ Hinv x Hx) as Hlt. unfold rankOf in Hlt at 2.
  destruct (rank uf !! next uf x); [eauto|simpl in Hlt; lia].
Qed.

(** *** [find] *)

(** Lines 28-31: the registration of a node that [find] meets for the
    first time. *)
Definition register (uf : UnionFind) (x : string) : UnionFind :=
  match parent uf !! x with
  | None => {| parent := <[x := x]> (parent uf); rank := <[x := 0]> (rank uf) |}
  | Some _ => uf
  end.

Lemma register_spec B uf x :
  ufInv B uf ->
  ufInv B (register uf x) /\
  (forall y, next (register uf x) y = next uf y) /\
  (forall y, rankOf (register uf x) y = rankOf uf y) /\
  (forall y, is_Some (parent uf !! y) -> is_Some (parent (register uf x) !! y)) /\
  parent (register uf x) !! x = Some (next uf x).
Proof.
  intros Hinv. unfold register.
  destruct (parent uf !! x) as [p|] eqn:Hp.
  - repeat split; try apply Hinv; auto. unfold next. rewrite Hp. reflexivity.
  - assert (Hr : rank uf !! x = None).
    { destruct (rank uf !! x) eqn:E; [|reflexivity].
      assert (is_Some (parent uf !! x)) as [? ?] by (apply (inv_dom _ _ Hinv); eauto).
      congruence. }
    assert (Hnext : forall y, next {| parent := <[x := x]> (parent uf);
                                      rank := <[x := 0]> (rank uf) |} y = next uf y).
    { intros y. unfold next. simpl. rewrite lookup_insert.
      destruct (decide (x = y)) as [<-|_]; [rewrite Hp|]; reflexivity. }
    assert (Hrank : forall y, rankOf {| parent := <[x := x]> (parent uf);
                                        rank := <[x := 0]> (rank uf) |} y = rankOf uf y).
    { intros y. unfold rankOf. simpl. rewrite lookup_insert.
      destruct (decide (x = y)) as [<-|_]; [rewrite Hr|]; reflexivity. }
    split; [|split; [exact Hnext|split; [exact Hrank|split]]].
    + constructor.
      * intros y. simpl. rewrite !lookup_insert.
        destruct (decide (x = y)); [split; eauto|apply Hinv].
      * intros y. rewrite Hnext, !Hrank. apply Hinv.
      * intros y. rewrite Hrank. apply Hinv.
    + intros y Hy. simpl. rewrite lookup_insert. destruct (decide (x = y)); eauto.
    + simpl. rewrite lookup_insert_eq. unfold next. rewrite Hp. reflexivity.
Qed.

Lemma find_unfold fuel uf x :
  find (S fuel) uf x =
    match parent (register uf x) !! x with
    | None => None
    | Some p =>
        if decide (p = x) then Some (x, register uf x)
        else match find fuel (register uf x) p with
             | None => None
             | Some (root, uf') =>
                 Some (root, {| parent := <[x := root]> (parent uf'); rank := rank uf' |})
             end
    end.
Proof. unfold register. simpl. destruct (parent uf !! x); reflexivity. Qed.

Lemma find_spec B : forall fuel uf x,
  ufInv B uf -> B - rankOf uf x < fuel ->
  exists r uf', find fuel uf x = Some (r, uf') /\
    rootOf (next uf) x r /\ ufInv B uf' /\
    (forall y, rankOf uf' y = rankOf uf y) /\
    (forall y r', rootOf (next uf') y r' <-> rootOf (next uf) y r') /\
    (forall y, is_Some (parent uf !! y) -> is_Some (parent uf' !! y)) /\
    is_Some (parent uf' !! x).
Proof.
  induction fuel as [|fuel IH]; intros uf x Hinv Hfuel; [lia|].
  rewrite find_unfold.
  destruct (register_spec B uf x Hinv) as (Hinv1 & Hnext1 & Hrank1 & Hdom1 & Hpx).
  set (uf1 := register uf x) in *. rewrite Hpx.
  destruct (decide (next uf x = x)) as [Heq|Hne].
  - exists x, uf1. split; [reflexivity|]. split; [apply root_self; exact Heq|].
    split; [exact Hinv1|]. split; [exact Hrank1|]. split; [|split; [exact Hdom1|]].
    + intros y r'. split; apply rootOf_ext; intros z; rewrite Hnext1; reflexivity.
    + rewrite Hpx. eauto.
  - pose proof (inv_rank _ _ Hinv x Hne) as Hlt.
    pose proof (inv_bound _ _ Hinv (next uf x)) as Hb.
    destruct (IH uf1 (next uf x) Hinv1) as
      (r & uf2 & Hfind & Hroot & Hinv2 & Hrank2 & Hroots2 & Hdom2 & _).
    { rewrite Hrank1. lia. }
    rewrite Hfind.
    set (uf3 := {| parent := <[x := r]> (parent uf2); rank := rank uf2 |}).
    assert (Hrx : rootOf (next uf) x r).
    { apply root_step; [exact Hne|].
      eapply rootOf_ext; [|exact Hroot]. exact Hnext1. }
    assert (Hrx2 : rootOf (next uf2) x r).
    { apply Hroots2. eapply rootOf_ext; [|exact Hrx].
      intros z. rewrite Hnext1. reflexivity. }
    assert (Hnext3 : forall y, next uf3 y = if decide (y = x) then r else next uf2 y).
    { intros y. unfold next, uf3. simpl. rewrite lookup_insert.
      destruct (decide (x = y)) as [<-|Hxy].
      - rewrite decide_True by reflexivity. reflexivity.
      - rewrite decide_False by congruence. reflexivity. }
    assert (Hx2 : is_Some (parent uf2 !! x)).
    { apply Hdom2. rewrite Hpx. eauto. }
    exists r, uf3. split; [reflexivity|]. split; [exact Hrx|]. split; [|split; [|split; [|split]]].
    + constructor.
      * intros y. unfold uf3. simpl. rewrite <- (inv_dom _ _ Hinv2 y), lookup_insert.
        destruct (decide (x = y)) as [<-|_]; [split; eauto|reflexivity].
      * intros y. rewrite Hnext3.
        change (rankOf uf3) with (rankOf uf2).
        destruct (decide (y = x)) as [->|Hyx].
        -- intros Hrne. eapply rootOf_rank; eauto.
        -- apply Hinv2.
      * intros y. change (rankOf uf3 y) with (rankOf uf2 y). apply Hinv2.
    + intros y. change (rankOf uf3 y) with (rankOf uf2 y).
      rewrite Hrank2. apply Hrank1.
    + intros y r'. rewrite (rootOf_compress (next uf2) (next uf3) x r Hrx2 Hnext3).
      rewrite Hroots2. split; apply rootOf_ext; intros z; rewrite Hnext1; reflexivity.
    + intros y Hy. unfold uf3. simpl. rewrite lookup_insert.
      destruct (decide (x = y)); eauto.
    + unfold uf3. simpl. rewrite lookup_insert_eq. eauto.
Qed.

Lemma is_Some_insert_same {A : Type} (m : gmap string A) (k : string) (a : A) (y : string) :
  is_Some (m !! k) -> is_Some (<[k := a]> m !! y) <-> is_Some (m !! y).
Proof.
  intros Hk. rewrite lookup_insert. destruct (decide (k = y)) as [<-|_]; [|reflexivity].
  split; eauto.
Qed.

(** *** [union] *)

(** Lines 46-53: the root [c] is hung under the root [w], whose rank
    is raised when [bump] is set. *)
Definition link (uf : UnionFind) (c w : string) (bump : bool) : UnionFind :=
  {| parent := <[c := w]> (parent uf);
     rank := if bump then <[w := S (rankOf uf w)]> (rank uf) else rank uf |}.

Lemma link_spec B uf (c w : string) (bump : bool) :
  ufInv B uf -> next uf c = c -> next uf w = w -> c <> w ->
  is_Some (parent uf !! c) -> is_Some (parent uf !! w) ->
  (if bump then rankOf uf c <= rankOf uf w else rankOf uf c < rankOf uf w) ->
  ufInv (S B) (link uf c w bump) /\
  forall y, next (link uf c w bump) y = if decide (y = c) then w else next uf y.
Proof.
  intros Hinv Hc Hw Hcw Hdc Hdw Hrk.
  assert (Hnext : forall y, next (link uf c w bump) y =
             if decide (y = c) then w else next uf y).
  { intros y. unfold next, link. simpl. rewrite lookup_insert.
    destruct (decide (c = y)) as [<-|Hne].
    - rewrite decide_True by reflexivity. reflexivity.
    - rewrite decide_False by congruence. reflexivity. }
  assert (Hrank : forall y, rankOf (link uf c w bump) y =
             if decide (y = w) then (if bump then S (rankOf uf w) else rankOf uf w)
             else rankOf uf y).
  { intros y. unfold rankOf at 1, link. simpl. destruct bump.
    - rewrite lookup_insert. destruct (decide (w = y)) as [<-|Hne].
      + rewrite decide_True by reflexivity. reflexivity.
      + rewrite decide_False by congruence. reflexivity.
    - destruct (decide (y = w)) as [->|_]; reflexivity. }
  split; [|exact Hnext]. constructor.
  - intros y. unfold link. simpl.
    assert (Hrw : is_Some (rank uf !! w)) by (apply (inv_dom _ _ Hinv); exact Hdw).
    rewrite (is_Some_insert_same _ _ _ _ Hdc).
    destruct bump; [rewrite (is_Some_insert_same _ _ _ _ Hrw)|]; apply Hinv.
  - intros y. rewrite Hnext, !Hrank.
    destruct (decide (y = c)) as [->|Hyc].
    + intros _. rewrite decide_False by exact Hcw.
      rewrite decide_True by reflexivity. destruct bump; lia.
    + intros Hne. pose proof (inv_rank _ _ Hinv y Hne) as Hlt.
      destruct (decide (y = w)) as [->|Hyw]; [contradiction|].
      destruct (decide (next uf y = w)) as [Heq|_]; [|exact Hlt].
      rewrite Heq in Hlt. destruct bump; lia.
  - intros y. rewrite Hrank. pose proof (inv_bound _ _ Hinv y) as Hy.
    pose proof (inv_bound _ _ Hinv w) as Hbw.
    destruct (decide (y = w)); [destruct bump; lia|lia].
Qed.

(** The components after a link of the roots of [a] and [b]. *)
Lemma comp_link uf uf' a b ra rb c w :
  rootOf (next uf) a ra -> rootOf (next uf) b rb -> ra <> rb ->
  (c = ra /\ w = rb) \/ (c = rb /\ w = ra) ->
  (forall y, next uf' y = if decide (y = c) then w else next uf y) ->
  forall y z, comp uf' y z <->
    comp uf y z \/ (comp uf y a /\ comp uf b z) \/ (comp uf y b /\ comp uf a z).
Proof.
  intros Ha Hb Hne Hcw Hnext y z.
  pose proof (rootOf_root _ _ _ Ha) as Hra. pose proof (rootOf_root _ _ _ Hb) as Hrb.
  assert (Hlink : forall y r', rootOf (next uf') y r' <->
            exists r0, rootOf (next uf) y r0 /\ r' = if decide (r0 = c) then w else r0).
  { apply rootOf_link; [| |
      |exact Hnext]; destruct Hcw as [[-> ->]|[-> ->]]; congruence. }
  unfold comp. split.
  - intros (r' & Hy & Hz). apply Hlink in Hy as (ry & Hy & Ery), Hz as (rz & Hz & Erz).
    destruct (decide (ry = rz)) as [Hyz|Hyz]; [left; exists ry; subst; auto|]. right.
    destruct (decide (ry = c)) as [Hyc|Hyc]; destruct (decide (rz = c)) as [Hzc|Hzc].
    + congruence.
    + assert (rz = w) by congruence.
      destruct Hcw as [[Hc Hw]|[Hc Hw]]; subst; [left|right];
        split; eexists; split; eassumption.
    + assert (ry = w) by congruence.
      destruct Hcw as [[Hc Hw]|[Hc Hw]]; subst; [right|left];
        split; eexists; split; eassumption.
    + congruence.
  - assert (Hsame : forall r1 r2, (r1 = ra \/ r1 = rb) -> (r2 = ra \/ r2 = rb) ->
              (if decide (r1 = c) then w else r1) = (if decide (r2 = c) then w else r2)).
    { intros r1 r2 H1 H2.
      destruct (decide (r1 = c)), (decide (r2 = c)); try reflexivity;
        destruct Hcw as [[-> ->]|[-> ->]], H1, H2; congruence. }
    intros [(r & Hy & Hz)|[[(r1 & Hy & Ha') (r2 & Hb' & Hz)]|[(r1 & Hy & Hb') (r2 & Ha' & Hz)]]].
    + exists (if decide (r = c) then w else r). split; apply Hlink; eauto.
    + assert (r1 = ra) by exact (rootOf_fun _ _ _ _ Ha' Ha).
      assert (r2 = rb) by exact (rootOf_fun _ _ _ _ Hb' Hb). subst r1 r2.
      exists (if decide (ra = c) then w else ra). split; apply Hlink.
      * eauto.
      * exists rb. split; [exact Hz|]. apply Hsame; auto.
    + assert (r1 = rb) by exact (rootOf_fun _ _ _ _ Hb' Hb).
      assert (r2 = ra) by exact (rootOf_fun _ _ _ _ Ha' Ha). subst r1 r2.
      exists (if decide (rb = c) then w else rb). split; apply Hlink.
      * eauto.
      * exists ra. split; [exact Hz|]. apply Hsame; auto.
Qed.

Lemma union_spec B fuel uf a b :
  ufInv B uf -> B < fuel ->
  exists res uf', union fuel uf a b = Some (res, uf') /\
    ufInv (S B) uf' /\
    (res = true <-> ~ comp uf a b) /\
    (forall y z, comp uf' y z <->
       comp uf y z \/ (comp uf y a /\ comp uf b z) \/ (comp uf y b /\ comp uf a z)).
Proof.
  intros Hinv Hfuel.
  destruct (find_spec B fuel uf a Hinv) as
    (ra & uf1 & Hfa & Hra & Hinv1 & Hrank1 & Hroots1 & Hdom1 & Hda); [lia|].
  destruct (find_spec B fuel uf1 b Hinv1) as
    (rb & uf2 & Hfb & Hrb & Hinv2 & Hrank2 & Hroots2 & Hdom2 & Hdb); [lia|].
  assert (Hroots : forall y r', rootOf (next uf2) y r' <-> rootOf (next uf) y r').
  { intros y r'. rewrite Hroots2. apply Hroots1. }
  assert (Hcomp : forall y z, comp uf2 y z <-> comp uf y z).
  { intros y z. unfold comp. split; intros (r & H1 & H2); exists r;
      split; apply Hroots; assumption. }
  assert (Hra2 : rootOf (next uf2) a ra) by (apply Hroots; exact Hra).
  assert (Hrb2 : rootOf (next uf2) b rb) by (apply Hroots2; exact Hrb).
  assert (Hab : comp uf a b <-> ra = rb).
  { rewrite (comp_root uf a b ra Hra). rewrite <- Hroots1. split.
    - intros H. eapply rootOf_fun; eauto.
    - intros ->. exact Hrb. }
  unfold union. rewrite Hfa, Hfb.
  destruct (decide (ra <> rb)) as [Hne|Heq].
  - assert (Hda2 : is_Some (parent uf2 !! ra)).
    { eapply rootOf_registered; [exact Hinv2|exact Hra2|]. apply Hdom2. exact Hda. }
    assert (Hdb2 : is_Some (parent uf2 !! rb)).
    { eapply rootOf_registered; [exact Hinv2|exact Hrb2|exact Hdb]. }
    pose proof (rootOf_root _ _ _ Hra2) as Hnra.
    pose proof (rootOf_root _ _ _ Hrb2) as Hnrb.
    assert (Hres : forall (c w : string) (bump : bool),
      (c = ra /\ w = rb) \/ (c = rb /\ w = ra) ->
      (if bump then rankOf uf2 c <= rankOf uf2 w else rankOf uf2 c < rankOf uf2 w) ->
      ufInv (S B) (link uf2 c w bump) /\
      (true = true <-> ~ comp uf a b) /\
      (forall y z, comp (link uf2 c w bump) y z <->
         comp uf y z \/ (comp uf y a /\ comp uf b z) \/ (comp uf y b /\ comp uf a z))).
    { intros c w bump Hcw Hrk.
      destruct (link_spec B uf2 c w bump Hinv2) as [Hinv' Hnext'];
        [destruct Hcw as [[-> ->]|[-> ->]]; assumption
        |destruct Hcw as [[-> ->]|[-> ->]]; assumption
        |destruct Hcw as [[-> ->]|[-> ->]]; congruence
        |destruct Hcw as [[-> ->]|[-> ->]]; assumption
        |destruct Hcw as [[-> ->]|[-> ->]]; assumption
        |exact Hrk|].
      split; [exact Hinv'|]. split.
      - rewrite Hab. tauto.
      - intros y z.
        rewrite (comp_link uf2 (link uf2 c w bump) a b ra rb c w Hra2 Hrb2 Hne Hcw Hnext').
        rewrite !Hcomp. reflexivity. }
    destruct (Nat.ltb_spec (rankOf uf2 rb) (rankOf uf2 ra)) as [H1|H1].
    + exists true, (link uf2 rb ra false). split; [reflexivity|].
      apply Hres; [right; auto|exact H1].
    + destruct (Nat.ltb_spec (rankOf uf2 ra) (rankOf uf2 rb)) as [H2|H2].
      * exists true, (link uf2 ra rb false). split; [reflexivity|].
        apply Hres; [left; auto|exact H2].
      * exists true, (link uf2 rb ra true). split; [reflexivity|].
        apply Hres; [right; auto|exact H2].
  - assert (ra = rb) by (destruct (decide (ra = rb)); [assumption|contradiction]).
    exists false, uf2. split; [reflexivity|]. split.
    { eapply ufInv_weaken; [exact Hinv2|lia]. }
    split.
    + rewrite Hab. split; [discriminate|]. intros Hn. contradiction.
    + intros y z. rewrite Hcomp. split; [auto|].
      assert (Hcab : comp uf a b) by (apply Hab; assumption).
      intros [H1|[[H1 H2]|[H1 H2]]]; [exact H1| |].
      * eapply comp_trans; [exact H1|]. eapply comp_trans; [exact Hcab|exact H2].
      * eapply comp_trans; [exact H1|]. eapply comp_trans; [|exact H2].
        apply comp_sym. exact Hcab.
Qed.

End UnionFindFacts.

(** ** Connectivity in an undirected graph given by a list of pairs *)
Module Connectivity.
Local Open Scope nat_scope.

(** One of the pairs joins [x] and [y], in either direction. *)
Definition adjacent (ps : list (string * string)) (x y : string) : Prop :=
  (x, y) ∈ ps \/ (y, x) ∈ ps.

(** [x] and [y] are joined by a path. *)
Definition linked (ps : list (string * string)) : string -> string -> Prop :=
  rtc (adjacent ps).


Lemma linked_trans ps x y z : linked ps x y -> linked ps y z -> linked ps x z.
Proof. intros H1 H2. etransitivity; eassumption. Qed.

Lemma adjacent_sym ps x y : adjacent ps x y -> adjacent ps y x.
Proof. unfold adjacent. tauto. Qed.

Lemma linked_sym ps x y : linked ps x y -> linked ps y x.
Proof.
  intros H. induction H as [x|x y z Hxy Hyz IH]; [apply rtc_refl|].
  eapply rtc_r; [exact IH|]. apply adjacent_sym. exact Hxy.
Qed.

Lemma linked_pair ps a b : (a, b) ∈ ps -> linked ps a b.
Proof. intros H. apply rtc_once. left. exact H. Qed.

Lemma linked_mono ps ps' x y :
  (forall p, p ∈ ps -> p ∈ ps') -> linked ps x y -> linked ps' x y.
Proof.
  intros Hsub. apply rtc_subrel. intros a b [H|H]; [left|right]; auto.
Qed.

Lemma linked_nil x y : linked [] x y <-> x = y.
Proof.
  split; [|intros ->; apply rtc_refl].
  intros H. apply rtc_inv in H as [H|(z & [Hz|Hz] & _)]; [exact H| |];
    inversion Hz.
Qed.

(** A path in the graph with one more pair either avoids that pair or
    crosses it. *)
Lemma linked_cons ps a b x y :
  linked ((a, b) :: ps) x y <->
  linked ps x y \/ (linked ps x a /\ linked ps b y) \/ (linked ps x b /\ linked ps a y).
Proof.
  split.
  - intros H. induction H as [x|x x1 y Hstep Hrest IH].
    + left. apply rtc_refl.
    + assert (Hcase : adjacent ps x x1 \/ (x = a /\ x1 = b) \/ (x = b /\ x1 = a)).
      { destruct Hstep as [H|H]; apply elem_of_cons in H as [[= -> ->]|H];
          unfold adjacent; auto. }
      destruct Hcase as [Hadj|[[-> ->]|[-> ->]]].
      * assert (Hl : linked ps x x1) by (apply rtc_once; exact Hadj).
        destruct IH as [H|[[H1 H2]|[H1 H2]]].
        -- left. eapply linked_trans; eauto.
        -- right. left. split; [eapply linked_trans; eauto|exact H2].
        -- right. right. split; [eapply linked_trans; eauto|exact H2].
      * destruct IH as [H|[[H1 H2]|[H1 H2]]].
        -- right. left. split; [apply rtc_refl|exact H].
        -- left. eapply linked_trans; [apply linked_sym; exact H1|exact H2].
        -- left. exact H2.
      * destruct IH as [H|[[H1 H2]|[H1 H2]]].
        -- right. right. split; [apply rtc_refl|exact H].
        -- left. exact H2.
        -- left. eapply linked_trans; [apply linked_sym; exact H1|exact H2].
  - assert (Hsub : forall u v, linked ps u v -> linked ((a, b) :: ps) u v).
    { intros u v. apply linked_mono. intros p Hp. right. exact Hp. }
    assert (Hab : linked ((a, b) :: ps) a b) by (apply linked_pair; left).
    intros [H|[[H1 H2]|[H1 H2]]].
    + apply Hsub. exact H.
    + eapply linked_trans; [apply Hsub; exact H1|].
      eapply linked_trans; [exact Hab|apply Hsub; exact H2].
    + eapply linked_trans; [apply Hsub; exact H1|].
      eapply linked_trans; [apply linked_sym; exact Hab|apply Hsub; exact H2].
Qed.

Lemma linked_snoc ps a b x y :
  linked (ps ++ [(a, b)]) x y <->
  linked ps x y \/ (linked ps x a /\ linked ps b y) \/ (linked ps x b /\ linked ps a y).
Proof.
  rewrite <- linked_cons. split; apply linked_mono; intros p; set_solver.
Qed.



End Connectivity.

(** ** Sequences of operations on the union-find structure *)
Module UnionFindRuns.
Import Kruskal UnionFindFacts Connectivity.
Local Open Scope nat_scope.

Lemma newUnionFind_spec (nodes : list string) :
  ufInv 0 (newUnionFind nodes) /\ forall y, next (newUnionFind nodes) y = y.
Proof.
  unfold newUnionFind.
  assert (H : forall uf,
    (ufInv 0 uf /\ forall y, next uf y = y) ->
    let uf' := foldl (fun uf node =>
                 {| parent := <[node := node]> (parent uf);
                    rank := <[node := 0]> (rank uf) |}) uf nodes in
    ufInv 0 uf' /\ forall y, next uf' y = y).
  { induction nodes as [|n nodes IH]; intros uf Huf; [exact Huf|].
    simpl. apply IH. destruct Huf as [[Hdom Hrk Hb] Hnext]. split.
    - constructor.
      + intros x. simpl. rewrite !lookup_insert.
        destruct (decide (n = x)); [split; eauto|apply Hdom].
      + intros x. unfold next. simpl. rewrite lookup_insert.
        destruct (decide (n = x)) as [<-|Hne]; simpl; [congruence|].
        intros Hx. exfalso. apply Hx. apply Hnext.
      + intros x. unfold rankOf. simpl. rewrite lookup_insert.
        destruct (decide (n = x)); simpl; [lia|apply Hb].
    - intros x. unfold next. simpl. rewrite lookup_insert.
      destruct (decide (n = x)) as [<-|Hne]; simpl; [reflexivity|apply Hnext]. }
  apply H. split.
  - constructor; simpl.
    + intros x. rewrite !lookup_empty. split; intros [? ?]; discriminate.
    + intros x. unfold next. simpl. rewrite lookup_empty. simpl. congruence.
    + intros x. unfold rankOf. simpl. rewrite lookup_empty. simpl. lia.
  - intros x. unfold next. simpl. rewrite lookup_empty. reflexivity.
Qed.

Lemma comp_identity uf x y : (forall z, next uf z = z) -> comp uf x y <-> x = y.
Proof.
  intros Hid.
  assert (Hroot : forall z r, rootOf (next uf) z r -> r = z).
  { intros z r H. inversion H; subst; [reflexivity|]. exfalso. auto. }
  split.
  - intros (r & H1 & H2). apply Hroot in H1, H2. congruence.
  - intros ->. exists y. split; apply root_self; apply Hid.
Qed.

(** The operations of the class. *)
Inductive operation : Type :=
| Find (nodeId : string)
| Union (nodeA nodeB : string).

(** A sequence of calls, each on the structure that the one before
    left. *)
Fixpoint perform (fuel : nat) (uf : UnionFind) (ops : list operation)
  : option UnionFind :=
  match ops with
  | [] => Some uf
  | Find x :: ops' =>
      match find fuel uf x with
      | Some (_, uf') => perform fuel uf' ops'
      | None => None
      end
  | Union a b :: ops' =>
      match union fuel uf a b with
      | Some (_, uf') => perform fuel uf' ops'
      | None => None
      end
  end.

(** The pairs that the unions of a sequence have joined. *)
Fixpoint unions (ops : list operation) : list (string * string) :=
  match ops with
  | [] => []
  | Find _ :: ops' => unions ops'
  | Union a b :: ops' => (a, b) :: unions ops'
  end.

Lemma comp_preserved uf uf' :
  (forall y r, rootOf (next uf') y r <-> rootOf (next uf) y r) ->
  forall x y, comp uf' x y <-> comp uf x y.
Proof.
  intros H x y. unfold comp. split; intros (r & H1 & H2); exists r;
    split; apply H; assumption.
Qed.

Lemma perform_spec : forall ops B uf ps fuel,
  ufInv B uf -> (forall x y, comp uf x y <-> linked ps x y) ->
  B + length ops < fuel ->
  exists uf', perform fuel uf ops = Some uf' /\
    ufInv (B + length ops) uf' /\
    forall x y, comp uf' x y <-> linked (ps ++ unions ops) x y.
Proof.
  induction ops as [|[x|a b] ops IH]; intros B uf ps fuel Hinv Hcomp Hfuel; simpl in *.
  - exists uf. split; [reflexivity|]. rewrite Nat.add_0_r, app_nil_r. auto.
  - destruct (find_spec B fuel uf x Hinv) as
      (r & uf1 & Hf & _ & Hinv1 & _ & Hroots & _); [lia|].
    rewrite Hf.
    destruct (IH B uf1 ps fuel Hinv1) as (uf' & Hp & Hinv' & Hcomp'); [|lia|].
    { intros y z. rewrite (comp_preserved uf uf1 Hroots). apply Hcomp. }
    exists uf'. split; [exact Hp|]. split; [|exact Hcomp'].
    eapply ufInv_weaken; [exact Hinv'|lia].
  - destruct (union_spec B fuel uf a b Hinv) as
      (res & uf1 & Hu & Hinv1 & _ & Hcomp1); [lia|].
    rewrite Hu.
    destruct (IH (S B) uf1 (ps ++ [(a, b)]) fuel Hinv1) as (uf' & Hp & Hinv' & Hcomp');
      [|lia|].
    { intros y z. rewrite Hcomp1, linked_snoc, !Hcomp. reflexivity. }
    exists uf'. split; [exact Hp|]. split.
    + eapply ufInv_weaken; [exact Hinv'|lia].
    + intros y z. rewrite Hcomp'. rewrite <- app_assoc. reflexivity.
Qed.

(** The structure after a sequence of calls on a new one. *)
Lemma perform_new nodes ops fuel :
  length ops < fuel ->
  exists uf, perform fuel (newUnionFind nodes) ops = Some uf /\
    ufInv (length ops) uf /\
    forall x y, comp uf x y <-> linked (unions ops) x y.
Proof.
  intros Hfuel. destruct (newUnionFind_spec nodes) as [Hinv Hid].
  destruct (perform_spec ops 0 (newUnionFind nodes) [] fuel Hinv) as (uf & Hp & Hi & Hc);
    [|simpl; lia|].
  - intros x y. rewrite (comp_identity _ _ _ Hid), linked_nil. reflexivity.
  - exists uf. auto.
Qed.

Lemma unions_of_pairs (ps : list (string * string)) :
  unions ((fun p : string * string => Union p.1 p.2) <$> ps) = ps.
Proof.
  induction ps as [|[a b] ps IH]; [reflexivity|].
  rewrite fmap_cons. simpl. f_equal. exact IH.
Qed.

(** Whether two nodes are linked by the pairs of a list is decided by a
    structure in which the pairs are joined. *)
Lemma linked_dec (ps : list (string * string)) (x y : string) :
  linked ps x y \/ ~ linked ps x y.
Proof.
  pose (ops := (fun p : string * string => Union p.1 p.2) <$> ps).
  assert (Hun : unions ops = ps) by apply unions_of_pairs.
  destruct (perform_new [] ops (S (length ops))) as (uf & _ & Hinv & Hcomp); [lia|].
  rewrite Hun in Hcomp.
  destruct (rootOf_total _ uf x Hinv) as [rx Hx].
  destruct (rootOf_total _ uf y Hinv) as [ry Hy].
  destruct (decide (rx = ry)) as [<-|Hne].
  - left. apply Hcomp. exists rx. auto.
  - right. intros Hl. apply Hcomp in Hl as (r & H1 & H2).
    apply Hne. transitivity r; [|symmetry]; eapply rootOf_fun; eauto.
Qed.

End UnionFindRuns.

(** ** Forests and the greedy selection of edges *)
Module Forests.
Import Kruskal UnionFindFacts Connectivity UnionFindRuns.
Local Open Scope nat_scope.

(** The two ends of an edge. *)
Definition ends (e : Edge) : string * string := (u e, v e).

(** Two nodes are joined by a path of edges of the list. *)
Definition connected (es : list Edge) (x y : string) : Prop :=
  linked (ends <$> es) x y.

(** The edges can be added one by one, each between two nodes that the
    edges before it do not join: the list has no cycle. *)
Fixpoint forest (es : list Edge) : Prop :=
  match es with
  | [] => True
  | e :: es' => ~ connected es' (u e) (v e) /\ forest es'
  end.

(** The sum of the weights. *)
Definition sumWeights (es : list Edge) : Z :=
  foldr (fun e acc => (weight e + acc)%Z) 0%Z es.


Lemma connected_sym es x y : connected es x y -> connected es y x.
Proof. apply linked_sym. Qed.

Lemma connected_trans es x y z : connected es x y -> connected es y z -> connected es x z.
Proof. apply linked_trans. Qed.







Lemma connected_dec es x y : connected es x y \/ ~ connected es x y.
Proof. apply linked_dec. Qed.




Lemma sumWeights_app es es' : sumWeights (es ++ es') = (sumWeights es + sumWeights es')%Z.
Proof. induction es as [|e es IH]; simpl; lia. Qed.



Lemma forest_app_l es es' : forest (es ++ es') -> forest es'.
Proof. induction es as [|e es IH]; simpl; [auto|]. intros [_ H]. auto. Qed.

(** *** The greedy selection

    [selects acc rest res]: going through [rest] and keeping, after the
    edges [acc], each edge whose ends the kept edges do not join yet,
    one ends with [res]. *)
Inductive selects : list Edge -> list Edge -> list Edge -> Prop :=
| sel_nil acc : selects acc [] acc
| sel_take acc e rest res :
    ~ connected acc (u e) (v e) -> selects (acc ++ [e]) rest res ->
    selects acc (e :: rest) res
| sel_skip acc e rest res :
    connected acc (u e) (v e) -> selects acc rest res ->
    selects acc (e :: rest) res.

Lemma selects_sublist acc rest res :
  selects acc rest res -> exists picked, res = acc ++ picked /\ picked `sublist_of` rest.
Proof.
  induction 1 as [acc|acc e rest res Hn Hs IH|acc e rest res Hc Hs IH].
  - exists []. rewrite app_nil_r. split; [reflexivity|constructor].
  - destruct IH as (picked & -> & Hsub). exists (e :: picked).
    rewrite <- app_assoc. split; [reflexivity|]. constructor. exact Hsub.
  - destruct IH as (picked & -> & Hsub). exists picked.
    split; [reflexivity|]. constructor. exact Hsub.
Qed.



(** *** The exchange of an edge of a forest for a new one *)


(** *** The selection from a sorted list is the lightest *)

Definition lighter (e f : Edge) : Prop := (weight e <= weight f)%Z.


End Forests.

(** ** Connected components and the run of Kruskal's algorithm *)
Module KruskalFacts.
Import Kruskal UnionFindFacts Connectivity UnionFindRuns Forests.
Local Open Scope nat_scope.

(** [reps] holds one node from each connected component of the graph
    with the nodes [nodes] and the edges [es]. *)
Record transversal (nodes : list string) (es : list Edge) (reps : list string) : Prop :=
  { tr_nodup : NoDup reps;
    tr_nodes : forall r, r ∈ reps -> r ∈ nodes;
    tr_apart : forall r r', r ∈ reps -> r' ∈ reps -> connected es r r' -> r = r';
    tr_cover : forall x, x ∈ nodes -> exists r, r ∈ reps /\ connected es x r }.

(** The number of connected components. *)
Definition componentCount (nodes : list string) (es : list Edge) (c : nat) : Prop :=
  exists reps, transversal nodes es reps /\ length reps = c.



(** Pairwise unrelated elements, each related to an element of a second
    list of pairwise unrelated elements, are no more than these. *)
Lemma apart_length (R : string -> string -> Prop) :
  (forall x y, R x y -> R y x) -> (forall x y z, R x y -> R y z -> R x z) ->
  forall l1 l2,
    NoDup l1 -> (forall x y, x ∈ l1 -> y ∈ l1 -> R x y -> x = y) ->
    (forall x, x ∈ l1 -> exists y, y ∈ l2 /\ R x y) ->
    length l1 <= length l2.
Proof.
  intros Hsym Htrans. induction l1 as [|a l1 IH]; intros l2 Hnd Hapart Hcover;
    [simpl; lia|].
  apply NoDup_cons in Hnd as [Hnin Hnd].
  destruct (Hcover a) as (b & Hb & Hab); [left|].
  apply list_elem_of_split in Hb as (k1 & k2 & ->).
  assert (Hle : length l1 <= length (k1 ++ k2)).
  { apply IH; [exact Hnd| |].
    - intros x y Hx Hy. apply Hapart; right; assumption.
    - intros x Hx. destruct (Hcover x) as (y & Hy & Hxy); [right; exact Hx|].
      exists y. split; [|exact Hxy].
      apply elem_of_app in Hy as [Hy|Hy]; [apply elem_of_app; auto|].
      apply elem_of_cons in Hy as [->|Hy]; [|apply elem_of_app; auto].
      exfalso. apply Hnin.
      assert (x = a); [|subst; exact Hx].
      apply Hapart; [right; exact Hx|left|]. eapply Htrans; [exact Hxy|].
      apply Hsym. exact Hab. }
  rewrite !length_app in *. simpl. lia.
Qed.

(** Two transversals of one graph have the same length: the number of
    components is determined. *)
Lemma transversal_length nodes es reps reps' :
  transversal nodes es reps -> transversal nodes es reps' ->
  length reps = length reps'.
Proof.
  assert (H : forall r1 r2, transversal nodes es r1 -> transversal nodes es r2 ->
                            length r1 <= length r2).
  { intros r1 r2 [N1 S1 A1 C1] [N2 S2 A2 C2].
    apply (apart_length (connected es)).
    - apply connected_sym.
    - apply connected_trans.
    - exact N1.
    - exact A1.
    - intros x Hx. apply C2. apply S1. exact Hx. }
  intros H1 H2. apply Nat.le_antisymm; apply H; assumption.
Qed.

Lemma componentCount_fun nodes es c c' :
  componentCount nodes es c -> componentCount nodes es c' -> c = c'.
Proof.
  intros (r & Hr & <-) (r' & Hr' & <-). eapply transversal_length; eauto.
Qed.



End KruskalFacts.

(** ** The run of [kruskal] *)
Module KruskalRun.
Import Kruskal UnionFindFacts Connectivity UnionFindRuns Forests KruskalFacts.
Local Open Scope nat_scope.

(** *** The sort *)

Lemma insertByWeight_perm e l : insertByWeight e l ≡ₚ e :: l.
Proof.
  induction l as [|x l IH]; simpl; [reflexivity|].
  destruct (weight e <=? weight x)%Z; [reflexivity|].
  rewrite IH. apply perm_swap.
Qed.

Lemma sortByWeight_perm l : sortByWeight l ≡ₚ l.
Proof.
  induction l as [|e l IH]; simpl; [reflexivity|].
  rewrite insertByWeight_perm, IH. reflexivity.
Qed.

Lemma insertByWeight_sorted e l :
  StronglySorted lighter l -> StronglySorted lighter (insertByWeight e l).
Proof.
  induction l as [|x l IH]; simpl; intros Hs.
  - repeat constructor.
  - apply StronglySorted_cons in Hs as [Hall Hs].
    destruct (Z.leb_spec (weight e) (weight x)) as [Hle|Hgt].
    + apply StronglySorted_cons. split; [|apply StronglySorted_cons; auto].
      constructor; [exact Hle|]. eapply Forall_impl; [exact Hall|].
      intros y Hy. unfold lighter in *. lia.
    + apply StronglySorted_cons. split; [|auto].
      rewrite insertByWeight_perm. constructor; [|exact Hall].
      unfold lighter. lia.
Qed.

Lemma sortByWeight_sorted l : StronglySorted lighter (sortByWeight l).
Proof.
  induction l as [|e l IH]; simpl; [constructor|].
  apply insertByWeight_sorted. exact IH.
Qed.

(** *** The loop *)

Lemma selects_fun acc rest r1 r2 :
  selects acc rest r1 -> selects acc rest r2 -> r1 = r2.
Proof.
  intros H. revert r2.
  induction H as [acc|acc e rest res Hn Hs IH|acc e rest res Hc Hs IH];
    intros r2 H2; inversion H2; subst; auto; contradiction.
Qed.

Lemma connected_snoc es e x y :
  connected (es ++ [e]) x y <->
  connected es x y \/ (connected es x (u e) /\ connected es (v e) y) \/
  (connected es x (v e) /\ connected es (u e) y).
Proof. unfold connected. rewrite fmap_app. apply linked_snoc. Qed.

Lemma kruskalLoop_selects : forall rest B uf mst total fuel,
  ufInv B uf -> (forall x y, comp uf x y <-> connected mst x y) ->
  B + length rest < fuel ->
  exists out, kruskalLoop fuel uf rest mst total = Some out /\
    selects mst rest (mstEdges out) /\
    (total = sumWeights mst -> totalWeight out = sumWeights (mstEdges out)).
Proof.
  induction rest as [|e rest IH]; intros B uf mst total fuel Hinv Hcomp Hfuel;
    simpl in *.
  - eexists. split; [reflexivity|]. split; [constructor|auto].
  - destruct (union_spec B fuel uf (u e) (v e) Hinv) as
      (res & uf' & Hu & Hinv' & Hres & Hcomp'); [lia|].
    rewrite Hu. destruct res.
    + assert (Hn : ~ connected mst (u e) (v e)).
      { rewrite <- Hcomp. apply Hres. reflexivity. }
      destruct (IH (S B) uf' (mst ++ [e]) (total + weight e)%Z fuel Hinv')
        as (out & Hk & Hsel & Htot); [|lia|].
      { intros x y. rewrite Hcomp', connected_snoc, !Hcomp. reflexivity. }
      exists out. split; [exact Hk|]. split; [apply sel_take; assumption|].
      intros ->. apply Htot. rewrite sumWeights_app. simpl. lia.
    + assert (Hc : connected mst (u e) (v e)).
      { destruct (connected_dec mst (u e) (v e)) as [Hc|Hn]; [exact Hc|].
        rewrite <- Hcomp in Hn. apply Hres in Hn. discriminate. }
      destruct (IH (S B) uf' mst total fuel Hinv') as (out & Hk & Hsel & Htot); [|lia|].
      { intros x y. rewrite Hcomp', <- Hcomp. split; [|auto].
        apply Hcomp in Hc.
        intros [H|[[H1 H2]|[H1 H2]]]; [exact H| |].
        - eapply comp_trans; [exact H1|]. eapply comp_trans; [exact Hc|exact H2].
        - eapply comp_trans; [exact H1|].
          eapply comp_trans; [apply comp_sym; exact Hc|exact H2]. }
      exists out. split; [exact Hk|]. split; [apply sel_skip; assumption|exact Htot].
Qed.

(** [kruskal] returns, whatever the fuel past the number of edges, the
    greedy selection from the sorted edges. *)
Lemma kruskal_selects (nodes : list string) (edges : list Edge) :
  exists out, (forall fuel, length edges < fuel -> kruskal fuel nodes edges = Some out) /\
    selects [] (sortByWeight edges) (mstEdges out) /\
    totalWeight out = sumWeights (mstEdges out).
Proof.
  destruct (newUnionFind_spec nodes) as [Hinv Hid].
  assert (Hcomp : forall x y, comp (newUnionFind nodes) x y <-> connected [] x y).
  { intros x y. rewrite (comp_identity _ _ _ Hid). unfold connected.
    rewrite fmap_nil, linked_nil. reflexivity. }
  assert (Hlen : length (sortByWeight edges) = length edges).
  { apply Permutation_length, sortByWeight_perm. }
  assert (Hrun : forall fuel, length edges < fuel ->
    exists out, kruskal fuel nodes edges = Some out /\
      selects [] (sortByWeight edges) (mstEdges out) /\
      totalWeight out = sumWeights (mstEdges out)).
  { intros fuel Hfuel. unfold kruskal.
    destruct (kruskalLoop_selects (sortByWeight edges) 0 (newUnionFind nodes) [] 0%Z fuel
                Hinv Hcomp) as (out & Hk & Hsel & Htot); [simpl; lia|].
    exists out. auto. }
  destruct (Hrun (S (length edges))) as (out & Hk & Hsel & Htot); [lia|].
  exists out. split; [|auto]. intros fuel Hfuel.
  destruct (Hrun fuel Hfuel) as (out' & Hk' & Hsel' & Htot').
  rewrite Hk'. f_equal. pose proof (selects_fun _ _ _ _ Hsel' Hsel) as Heq.
  destruct out as [m w], out' as [m' w']. simpl in *. subst m'. f_equal. congruence.
Qed.

End KruskalRun.

(** ** [kruskal] on the store of arrays *)
Module KruskalStore.
Import Kruskal UnionFindFacts Connectivity UnionFindRuns Forests KruskalFacts KruskalRun.
Local Open Scope nat_scope.

(** The loop on the store pushes onto the array at [mst] what the loop on
    values appends, and writes nowhere else. *)
Lemma kruskalLoopRef_spec fuel mst : forall rest uf acc total h out,
  h !! mst = Some (EdgeArray acc) ->
  kruskalLoop fuel uf rest acc total = Some out ->
  exists h', kruskalLoopRef fuel uf rest mst total h = Some (totalWeight out, h') /\
    h' !! mst = Some (EdgeArray (mstEdges out)) /\
    forall l, l <> mst -> h' !! l = h !! l.
Proof.
  induction rest as [|e rest IH]; intros uf acc total h out Hmst Hloop; simpl in *.
  - injection Hloop as <-. exists h. simpl. auto.
  - destruct (union fuel uf (u e) (v e)) as [[[] uf']|]; [| |discriminate].
    + rewrite Hmst.
      destruct (IH uf' (acc ++ [e]) (total + weight e)%Z
                  (<[mst := EdgeArray (acc ++ [e])]> h) out) as (h' & Hr & Hm & Hfr);
        [apply lookup_insert_eq|exact Hloop|].
      exists h'. split; [exact Hr|]. split; [exact Hm|].
      intros l Hl. rewrite (Hfr l Hl). apply lookup_insert_ne. congruence.
    + apply (IH uf' acc total h out Hmst Hloop).
Qed.

(** [kruskal] on the store returns what [kruskal] on the contents of the
    two arrays returns, in a new array, and leaves every array that
    existed before the call as it was. *)
Lemma kruskalRef_spec fuel nodes edges h ns es out :
  h !! nodes = Some (StringArray ns) -> h !! edges = Some (EdgeArray es) ->
  kruskal fuel ns es = Some out ->
  exists mst h', kruskalRef fuel nodes edges h = Some (mst, totalWeight out, h') /\
    h !! mst = None /\
    h' !! mst = Some (EdgeArray (mstEdges out)) /\
    forall l, is_Some (h !! l) -> h' !! l = h !! l.
Proof.
  intros Hn He Hk. unfold kruskalRef, alloc. rewrite Hn, He.
  set (l1 := fresh (dom h)).
  set (h1 := <[l1 := EdgeArray []]> h).
  set (l2 := fresh (dom h1)).
  set (h3 := <[l2 := EdgeArray (sortByWeight es)]> (<[l2 := EdgeArray es]> h1)).
  assert (Hl1 : h !! l1 = None).
  { apply not_elem_of_dom. apply is_fresh. }
  assert (Hl2 : h1 !! l2 = None).
  { apply not_elem_of_dom. apply is_fresh. }
  assert (Hne : l1 <> l2).
  { intros Heq. unfold h1 in Hl2. rewrite <- Heq, lookup_insert_eq in Hl2.
    discriminate. }
  assert (H3 : forall l, l <> l2 -> h3 !! l = h1 !! l).
  { intros l Hl. unfold h3. rewrite !lookup_insert_ne by congruence. reflexivity. }
  assert (H3s : h3 !! l2 = Some (EdgeArray (sortByWeight es))).
  { unfold h3. apply lookup_insert_eq. }
  fold h3. rewrite H3s.
  destruct (kruskalLoopRef_spec fuel l1 (sortByWeight es) (newUnionFind ns) [] 0%Z h3 out)
    as (h' & Hr & Hm & Hfr).
  { rewrite H3 by exact Hne. unfold h1. apply lookup_insert_eq. }
  { exact Hk. }
  rewrite Hr. exists l1, h'. split; [reflexivity|]. split; [exact Hl1|].
  split; [exact Hm|].
  intros l [a Ha].
  assert (l <> l1) by congruence.
  assert (l <> l2).
  { intros ->. unfold h1 in Hl2. rewrite lookup_insert_ne in Hl2 by congruence.
    congruence. }
  rewrite Hfr, H3 by assumption. unfold h1. apply lookup_insert_ne. congruence.
Qed.

End KruskalStore.

(** ** The shortest-path solver: termination and the keys of the result *)
Module DijkstraFacts.
Import Num Dijkstra.
Local Open Scope nat_scope.









Lemma loop_mono graph : forall fuel fuel' s s',
  loop fuel graph s = Some s' -> fuel <= fuel' -> loop fuel' graph s = Some s'.
Proof.
  induction fuel as [|fuel IH]; intros fuel' s s' H Hle.
  - simpl in H. destruct fuel'; simpl;
      destruct (sortByDistance (priorityQueue s)); try discriminate; exact H.
  - destruct fuel' as [|fuel']; [lia|]. simpl in *.
    destruct (sortByDistance (priorityQueue s)) as [|item rest]; [exact H|].
    destruct (decide (nodeId item ∈ visited s)); [apply IH; [exact H|lia]|].
    destruct (graph !! nodeId item); apply IH; (exact H || lia).
Qed.


End DijkstraFacts.

(** ** The shortest-path solver: graphs whose neighbours are all keys *)
Module DijkstraCorrect.
Import Num Dijkstra DijkstraFacts.

#[global] Instance queueEdge_eq_dec : EqDecision Edge.
Proof. solve_decision. Defined.

(** *** The order of the queue *)








(** *** One turn of the loop *)




(** *** Walks and the invariant of the loop *)

Section Graph.

Variable graph : gmap string (list Edge).
Variable startNode : string.

(** Every neighbour is a key of the graph, and no weight is negative. *)
Hypothesis closed : forall u es e,
  graph !! u = Some es -> e ∈ es -> neighborId e ∈ dom graph.
Hypothesis nonneg : forall u es e,
  graph !! u = Some es -> e ∈ es -> 0 <= weight e.











(** *** The result *)


End Graph.

End DijkstraCorrect.

(** ** The cost matrix and the naive pairing *)
Module CostMatrixFacts.
Import Num Loops LoopFacts Hungarian CostMatrix HungarianShape HungarianResult
       HungarianFeasible HungarianOptimal.
Local Open Scope nat_scope.

Section WithHaversine.

Variable haversineDistance : Z -> Z -> Z -> Z -> Z.

(** The cost of one pair. *)
Definition pairCost (options : BuildCostMatrixOptions) (driver passenger : Node) : Z :=
  (distanceFunc haversineDistance (default euclidean (method options))
     (lat driver) (lng driver) (lat passenger) (lng passenger)
   * default 2%Z (timePerKm options))%Z.

Definition pairOf (options : BuildCostMatrixOptions) (driver passenger : Node) : Pair :=
  {| driverId := id driver; passengerId := id passenger;
     cost := pairCost options driver passenger |}.

Lemma buildCostMatrix_spec drivers passengers options :
  buildCostMatrix haversineDistance drivers passengers options =
    ((fun driver => pairCost options driver <$> passengers) <$> drivers,
     drivers ≫= (fun driver => pairOf options driver <$> passengers)).
Proof.
  unfold buildCostMatrix.
  assert (Hin : forall driver ps row pairs,
    foldl (fun '(row, pairs) passenger =>
             let distance :=
               distanceFunc haversineDistance (default euclidean (method options))
                 (lat driver) (lng driver) (lat passenger) (lng passenger) in
             let cost := (distance * default 2 (timePerKm options))%Z in
             (row ++ [cost],
              pairs ++ [{| driverId := id driver; passengerId := id passenger;
                           cost := cost |}]))
          (row, pairs) ps =
    (row ++ (pairCost options driver <$> ps), pairs ++ (pairOf options driver <$> ps))).
  { intros driver ps. induction ps as [|p ps IH]; intros row pairs; simpl.
    - rewrite !app_nil_r. reflexivity.
    - rewrite IH, <- !app_assoc. reflexivity. }
  assert (Hout : forall ds matrix pairs,
    foldl (fun '(matrix, pairs) driver =>
             let '(row, pairs) :=
               foldl (fun '(row, pairs) passenger =>
                        let distance :=
                          distanceFunc haversineDistance
                            (default euclidean (method options))
                            (lat driver) (lng driver) (lat passenger) (lng passenger) in
                        let cost := (distance * default 2 (timePerKm options))%Z in
                        (row ++ [cost],
                         pairs ++ [{| driverId := id driver;
                                      passengerId := id passenger;
                                      cost := cost |}]))
                     ([], pairs) passengers in
             (matrix ++ [row], pairs))
          (matrix, pairs) ds =
    (matrix ++ ((fun driver => pairCost options driver <$> passengers) <$> ds),
     pairs ++ (ds ≫= (fun driver => pairOf options driver <$> passengers)))).
  { induction ds as [|d ds IH]; intros matrix pairs; simpl.
    - rewrite !app_nil_r. reflexivity.
    - rewrite Hin. rewrite IH, <- !app_assoc. reflexivity. }
  apply (Hout drivers [] []).
Qed.









End WithHaversine.

End CostMatrixFacts.

(* ===================================================================== *)
(** * Part III: the properties of the specification                        *)
(* ===================================================================== *)

(** ** The assignment solver *)
Module HungarianSpec.
Import Num Loops LoopFacts NestedLoops Hungarian HungarianShape HungarianFind
       HungarianInv HungarianPath HungarianTermination HungarianResult
       HungarianFeasible HungarianOptimal.
Local Open Scope nat_scope.

(** C1, on the input [[2, 1]] (one driver, two passengers): whatever the
    fuel from 8 on, [hungarian] assigns the driver to passenger 0 at the
    cost 2, while the assignment to passenger 1 is a complete matching of
    cost 1.  The returned total is not the minimum over the complete
    matchings. *)
Theorem hungarian_wide_matrix_not_minimal :
  (forall fuel, 8 <= fuel ->
     hungarian fuel [[2; 1]]%Z =
       Some {| assignments := [{| driver := 0; passenger := 0 |}];
               totalCost := 2 |}) /\
  completeMatching [[2; 1]]%Z [{| driver := 0; passenger := 1 |}] /\
  sumCosts [[2; 1]]%Z [{| driver := 0; passenger := 1 |}] = 1%Z.
Proof.
  split; [|split].
  - intros fuel Hfuel. apply (hungarian_mono 8); [|exact Hfuel].
    vm_compute. reflexivity.
  - constructor.
    + reflexivity.
    + intros a Ha. apply list_elem_of_singleton in Ha. subst a. simpl. lia.
    + apply NoDup_singleton.
    + apply NoDup_singleton.
  - reflexivity.
Qed.

(** The same on the tall matrix [[2], [1]]: the first driver is kept at
    the cost 2, the second one costs 1. *)
Example hungarian_tall_matrix_not_minimal :
  hungarian 8 [[2]; [1]]%Z =
    Some {| assignments := [{| driver := 0; passenger := 0 |}]; totalCost := 2 |} /\
  completeMatching [[2]; [1]]%Z [{| driver := 1; passenger := 0 |}] /\
  sumCosts [[2]; [1]]%Z [{| driver := 1; passenger := 0 |}] = 1%Z.
Proof.
  split; [vm_compute; reflexivity|]. split; [|reflexivity].
  constructor.
  - reflexivity.
  - intros a Ha. apply list_elem_of_singleton in Ha. subst a. simpl. lia.
  - apply NoDup_singleton.
  - apply NoDup_singleton.
Qed.

(** On a square matrix the result is of least cost
    ([HungarianOptimal.hungarian_square_minimal]); the 1 x 1 example of the
    specification: *)
Example hungarian_trivial : hungarian 8 [[5]]%Z =
  Some {| assignments := [{| driver := 0; passenger := 0 |}]; totalCost := 5 |}.
Proof. vm_compute. reflexivity. Qed.



(** C5: for every rectangular matrix the loop of the step machine stops:
    from the first state it reaches, in at most [enoughFuel n] turns, a
    state with [step = 0], in which either every one of the [n] columns
    is covered and holds a starred zero, or no uncovered entry is
    finite. *)
Theorem hungarian_loop_terminates (cm : list (list Z)) :
  rectangular cm ->
  exists s,
    (forall fuel, enoughFuel (side cm) <= fuel ->
       run fuel fuel (side cm) (initialState cm) = Some s) /\
    step s = 0 /\
    ((forall j, j < side cm ->
        covered (colCover s) j = true /\
        exists i, mask (masks s) i j = 1 /\ entry (matrix s) i j = Fin 0) \/
     (findMinUncoveredValue (matrix s) (rowCover s) (colCover s) = Inf /\
      forall i j, i < side cm -> j < side cm ->
        covered (rowCover s) i = false -> covered (colCover s) j = false ->
        entry (matrix s) i j = Inf)).
Proof.
  intros Hrect. destruct (hungarian_returns cm Hrect) as (s & Hstep & Hfin & Hrun).
  exists s. split; [intros fuel Hfuel; apply Hrun; exact Hfuel|].
  split; [exact Hstep|].
  destruct Hfin as [Hwf Hrow Hcol [Hall|Hnone]].
  - left. intros j Hj. split; [apply Hall; exact Hj|].
    destruct (Hcol j (Hall j Hj)) as [i Hi]. exists i. split; [exact Hi|].
    pose proof (wf_zeros _ _ Hwf i j (or_introl Hi)) as Hz.
    destruct (entry (matrix s) i j) as [z|]; [|discriminate].
    simpl in Hz. apply Z.eqb_eq in Hz. subst z. reflexivity.
  - right. split; [|exact Hnone].
    pose proof (findMinUncoveredValue_spec (side cm) (matrix s) (rowCover s)
                  (colCover s) (proj1 (wf_matrix _ _ Hwf))) as Hmin.
    destruct (findMinUncoveredValue _ _ _) as [d|]; [|reflexivity].
    destruct Hmin as (i & j & Hi & Hj & Hr & Hc & Hd).
    rewrite (Hnone i j Hi Hj Hr Hc) in Hd. discriminate.
Qed.

Lemma hungarian_loop_terminates_witness :
  rectangular [[2; 1]]%Z /\
  exists s,
    (forall fuel, enoughFuel 2 <= fuel ->
       run fuel fuel 2 (initialState [[2; 1]]%Z) = Some s) /\
    step s = 0 /\
    ((forall j, j < 2 ->
        covered (colCover s) j = true /\
        exists i, mask (masks s) i j = 1 /\ entry (matrix s) i j = Fin 0) \/
     (findMinUncoveredValue (matrix s) (rowCover s) (colCover s) = Inf /\
      forall i j, i < 2 -> j < 2 ->
        covered (rowCover s) i = false -> covered (colCover s) j = false ->
        entry (matrix s) i j = Inf)).
Proof.
  split.
  - repeat constructor.
  - apply (hungarian_loop_terminates [[2; 1]]%Z). repeat constructor.
Defined.

End HungarianSpec.

(** ** The union-find structure *)
Module UnionFindSpec.
Import Kruskal UnionFindFacts Connectivity UnionFindRuns.
Local Open Scope nat_scope.



End UnionFindSpec.

(** ** The minimum spanning tree solver *)
Module KruskalSpec.
Import Kruskal UnionFindFacts Connectivity UnionFindRuns Forests KruskalFacts
       KruskalRun KruskalStore.
Local Open Scope nat_scope.


(** The triangle of the specification: the edges A-B and B-C, of total
    weight 3. *)
Example kruskal_triangle :
  kruskal 4 ["A"; "B"; "C"]
    [ {| u := "A"; v := "B"; weight := 1 |};
      {| u := "B"; v := "C"; weight := 2 |};
      {| u := "A"; v := "C"; weight := 3 |} ] =
  Some {| mstEdges := [ {| u := "A"; v := "B"; weight := 1 |};
                        {| u := "B"; v := "C"; weight := 2 |} ];
          totalWeight := 3 |}.
Proof. vm_compute. reflexivity. Qed.


(** C10: [kruskal], called with the addresses of its two arrays in a
    store, leaves every array of the store as it was, the edges and the
    nodes among them (the sort works on a copy); the result is a new
    array, and holds a subsequence of the edges of the caller put in
    non-decreasing order of weight. *)
Theorem kruskal_leaves_inputs (h : gmap nat array) (nodes edges : nat)
    (ns : list string) (es : list Edge) (fuel : nat) :
  h !! nodes = Some (StringArray ns) -> h !! edges = Some (EdgeArray es) ->
  length es < fuel ->
  exists mst totalWeight h' result,
    kruskalRef fuel nodes edges h = Some (mst, totalWeight, h') /\
    h' !! edges = Some (EdgeArray es) /\
    h' !! nodes = Some (StringArray ns) /\
    (forall l, is_Some (h !! l) -> h' !! l = h !! l) /\
    h !! mst = None /\
    h' !! mst = Some (EdgeArray result) /\
    result `sublist_of` sortByWeight es /\
    sortByWeight es ≡ₚ es /\
    StronglySorted lighter (sortByWeight es).
Proof.
  intros Hn He Hfuel.
  destruct (kruskal_selects ns es) as (out & Hrun & Hsel & Htot).
  destruct (kruskalRef_spec fuel nodes edges h ns es out Hn He (Hrun fuel Hfuel))
    as (mst & h' & Hr & Hfresh & Hmst & Hframe).
  exists mst, (totalWeight out), h', (mstEdges out).
  split; [exact Hr|]. split; [rewrite Hframe; eauto|]. split; [rewrite Hframe; eauto|].
  split; [exact Hframe|]. split; [exact Hfresh|]. split; [exact Hmst|].
  split; [|split; [apply sortByWeight_perm|apply sortByWeight_sorted]].
  destruct (selects_sublist _ _ _ Hsel) as (picked & Hp & Hsub). simpl in Hp.
  rewrite Hp. exact Hsub.
Qed.

Lemma kruskal_leaves_inputs_witness :
  let es := [ {| u := "A"; v := "C"; weight := 3 |};
              {| u := "A"; v := "B"; weight := 1 |};
              {| u := "B"; v := "C"; weight := 2 |} ] in
  let h : gmap nat array :=
    <[1 := EdgeArray es]> {[0 := StringArray ["A"; "B"; "C"]]} in
  h !! 0 = Some (StringArray ["A"; "B"; "C"]) /\ h !! 1 = Some (EdgeArray es) /\
  length es < 4 /\
  exists mst totalWeight h' result,
    kruskalRef 4 0 1 h = Some (mst, totalWeight, h') /\
    h' !! 1 = Some (EdgeArray es) /\
    h' !! 0 = Some (StringArray ["A"; "B"; "C"]) /\
    (forall l, is_Some (h !! l) -> h' !! l = h !! l) /\
    h !! mst = None /\
    h' !! mst = Some (EdgeArray result) /\
    result `sublist_of` sortByWeight es /\
    sortByWeight es ≡ₚ es /\
    StronglySorted lighter (sortByWeight es).
Proof.
  intros es h.
  assert (H0 : h !! 0 = Some (StringArray ["A"; "B"; "C"])) by reflexivity.
  assert (H1 : h !! 1 = Some (EdgeArray es)) by reflexivity.
  assert (H2 : length es < 4) by (simpl; lia).
  split; [exact H0|]. split; [exact H1|]. split; [exact H2|].
  exact (kruskal_leaves_inputs h 0 1 ["A"; "B"; "C"] es 4 H0 H1 H2).
Defined.

End KruskalSpec.

(** ** The shortest-path solver *)
Module DijkstraSpec.
Import Num Dijkstra DijkstraFacts.
Local Open Scope nat_scope.


(** C4, on the graph [{A: [{B, 5}]}] with the start node A: whatever the
    fuel from 1 on, [dijkstra] returns the distances [{A: 0}] and the
    predecessors [{A: null}].  The neighbour B, which is not a key of the
    graph, gets no distance and no predecessor, where the specification has
    [{A: 0, B: 5}] and [{B: A}]. *)
Theorem dijkstra_single_hop_leaves_neighbour_out :
  forall fuel, 1 <= fuel ->
    dijkstra fuel {["A" := [{| neighborId := "B"; weight := 5 |}]]} "A" =
      Some {| distances := {["A" := Fin 0]}; predecessors := {["A" := None]} |}.
Proof.
  intros fuel Hfuel. unfold dijkstra.
  erewrite (loop_mono _ 1 fuel); [| |exact Hfuel]; [|vm_compute; reflexivity].
  vm_compute. reflexivity.
Qed.

Lemma dijkstra_single_hop_leaves_neighbour_out_witness :
  1 <= 1 /\
  dijkstra 1 {["A" := [{| neighborId := "B"; weight := 5 |}]]} "A" =
    Some {| distances := {["A" := Fin 0]}; predecessors := {["A" := None]} |}.
Proof.
  split; [lia|]. apply (dijkstra_single_hop_leaves_neighbour_out 1). lia.
Defined.

(** With B among the keys, the distances are the ones of the
    specification; on every graph whose neighbours are all keys the
    distances are the lengths of the shortest walks
    ([DijkstraCorrect.dijkstra_shortest]). *)
Example dijkstra_single_hop_closed :
  dijkstra 2 (<["B" := []]> {["A" := [{| neighborId := "B"; weight := 5 |}]]}) "A" =
    Some {| distances := <["B" := Fin 5]> {["A" := Fin 0]};
            predecessors := <["B" := Some "A"]> {["A" := None]} |}.
Proof. vm_compute. reflexivity. Qed.

End DijkstraSpec.

(** ** The cost matrix and the naive baseline *)
Module CostMatrixSpec.
Import Num Loops Hungarian CostMatrix HungarianShape HungarianResult HungarianFeasible.
Local Open Scope nat_scope.

Lemma buildCostMatrix_no_passengers haversineDistance drivers options :
  buildCostMatrix haversineDistance drivers [] options =
    (replicate (length drivers) [], []).
Proof.
  unfold buildCostMatrix.
  assert (H : forall matrix pairs,
    foldl (fun '(matrix, pairs) driver =>
             let '(row, pairs) :=
               foldl (fun '(row, pairs) passenger =>
                        let distance :=
                          distanceFunc haversineDistance
                            (default euclidean (method options))
                            (lat driver) (lng driver) (lat passenger) (lng passenger) in
                        let cost := (distance * default 2 (timePerKm options))%Z in
                        (row ++ [cost],
                         pairs ++ [{| driverId := id driver;
                                      passengerId := id passenger;
                                      cost := cost |}]))
                     ([], pairs) [] in
             (matrix ++ [row], pairs))
          (matrix, pairs) drivers =
    (matrix ++ replicate (length drivers) [], pairs)).
  { induction drivers as [|d drivers IH]; intros matrix pairs; simpl.
    - rewrite app_nil_r. reflexivity.
    - rewrite IH, <- app_assoc. reflexivity. }
  apply (H [] []).
Qed.

Lemma all_empty_rectangular (cm : list (list Z)) :
  Forall (fun row => row = []) cm ->
  rectangular cm /\ colCount cm = 0 /\ side cm = length cm.
Proof.
  intros Hall.
  assert (Hc : colCount cm = 0).
  { destruct Hall as [|row cm' Hrow _]; [reflexivity|]. subst row. reflexivity. }
  split; [|split; [exact Hc|unfold side, rowCount; lia]].
  unfold rectangular. rewrite Hc. eapply Forall_impl; [exact Hall|].
  intros row ->. reflexivity.
Qed.

(** C8: on a matrix without rows, and on a matrix whose rows are all
    empty, [hungarian] returns no assignment and the total cost 0;
    [buildCostMatrix] returns no row and no pair when there is no driver,
    and one empty row per driver and no pair when there is no passenger,
    and on these matrices too [hungarian] returns no assignment and the
    cost 0. *)
Theorem empty_inputs_give_empty_results (cm : list (list Z))
    (haversineDistance : Z -> Z -> Z -> Z -> Z) (drivers passengers : list Node)
    (options : BuildCostMatrixOptions) :
  Forall (fun row => row = []) cm ->
  (forall fuel, enoughFuel (length cm) <= fuel ->
     hungarian fuel cm = Some {| assignments := []; totalCost := 0 |}) /\
  buildCostMatrix haversineDistance [] passengers options = ([], []) /\
  buildCostMatrix haversineDistance drivers [] options =
    (replicate (length drivers) [], []) /\
  (forall fuel, enoughFuel (length drivers) <= fuel ->
     hungarian fuel (buildCostMatrix haversineDistance drivers [] options).1 =
       Some {| assignments := []; totalCost := 0 |}).
Proof.
  assert (Hempty : forall m : list (list Z),
    Forall (fun row => row = []) m ->
    forall fuel, enoughFuel (length m) <= fuel ->
      hungarian fuel m = Some {| assignments := []; totalCost := 0 |}).
  { intros m Hall fuel Hfuel.
    destruct (all_empty_rectangular m Hall) as (Hrect & Hc & Hside).
    destruct (hungarian_returns m Hrect) as (s & Hstep & Hfin & Hrun).
    rewrite Hside in Hrun. destruct (Hrun fuel Hfuel) as [_ Hh]. rewrite Hh.
    destruct (finished_assignments m s Hfin) as (Hlen & _ & _ & _ & Hsum).
    rewrite Hc, Nat.min_0_r in Hlen.
    destruct (extract m (masks s)) as [l t]. simpl in *.
    destruct l; [|discriminate]. subst t. reflexivity. }
  intros Hall. split; [apply Hempty; exact Hall|]. split; [reflexivity|].
  split; [apply buildCostMatrix_no_passengers|].
  intros fuel Hfuel. rewrite buildCostMatrix_no_passengers. simpl.
  apply Hempty.
  - apply Forall_forall. intros row Hrow.
    apply elem_of_replicate in Hrow as [-> _]. reflexivity.
  - rewrite length_replicate. exact Hfuel.
Qed.

Lemma empty_inputs_give_empty_results_witness :
  let d := [ {| id := "d0"; lat := 0; lng := 0 |}; {| id := "d1"; lat := 0; lng := 1 |} ] in
  let p := [ {| id := "p0"; lat := 0; lng := 2 |} ] in
  let o := {| method := None; timePerKm := None |} in
  Forall (fun row : list Z => row = []) [[]; []] /\
  (forall fuel, enoughFuel 2 <= fuel ->
     hungarian fuel [[]; []] = Some {| assignments := []; totalCost := 0 |}) /\
  buildCostMatrix euclideanDistance [] p o = ([], []) /\
  buildCostMatrix euclideanDistance d [] o = (replicate 2 [], []) /\
  (forall fuel, enoughFuel 2 <= fuel ->
     hungarian fuel (buildCostMatrix euclideanDistance d [] o).1 =
       Some {| assignments := []; totalCost := 0 |}).
Proof.
  intros d p o.
  assert (H : Forall (fun row : list Z => row = []) [[]; []]) by (repeat constructor).
  split; [exact H|].
  exact (empty_inputs_give_empty_results [[]; []] euclideanDistance d p o H).
Defined.

(** The three drivers and two passengers of the example below, on one
    line. *)
Definition threeDrivers : list Node :=
  [ {| id := "d0"; lat := 0; lng := 0 |};
    {| id := "d1"; lat := 0; lng := 1 |};
    {| id := "d2"; lat := 0; lng := 6 |} ].

Definition twoPassengers : list Node :=
  [ {| id := "p0"; lat := 0; lng := 2 |};
    {| id := "p1"; lat := 0; lng := 3 |} ].

(** C7, on three drivers at the longitudes 0, 1, 6 and two passengers at
    2 and 3, all at the latitude 0, with the Euclidean metric and the
    factor 2: the cost matrix is [[4, 6], [2, 4], [8, 6]], the naive
    pairing costs 4 + 4 = 8 and [hungarian] returns the pairs (0, 0) and
    (2, 1) of total cost 10.  The naive total is below the total of
    [hungarian]. *)
Theorem naive_total_below_hungarian (haversineDistance : Z -> Z -> Z -> Z -> Z) :
  let options := {| method := None; timePerKm := None |} in
  let matrix := (buildCostMatrix haversineDistance threeDrivers twoPassengers options).1 in
  matrix = [[4; 6]; [2; 4]; [8; 6]]%Z /\
  sumNaiveAssignments haversineDistance threeDrivers twoPassengers None = 8%Z /\
  forall fuel, 8 <= fuel ->
    hungarian fuel matrix =
      Some {| assignments := [ {| driver := 0; passenger := 0 |};
                               {| driver := 2; passenger := 1 |} ];
              totalCost := 10 |}.
Proof.
  intros options matrix.
  assert (Hm : matrix = [[4; 6]; [2; 4]; [8; 6]]%Z) by reflexivity.
  split; [exact Hm|]. split; [reflexivity|].
  intros fuel Hfuel. rewrite Hm. apply (hungarian_mono 8); [|exact Hfuel].
  vm_compute. reflexivity.
Qed.

End CostMatrixSpec.

(* ===================================================================== *)
(** * Part IV: the rest of the code                                       *)
(* ===================================================================== *)

From stdpp Require Import pretty.
Local Open Scope Z_scope.

(** ** [src/context/AppContext.tsx]: the state of the application *)
Module AppContext.
Import CostMatrix.

(** The two keys of [layers]. *)
Inductive Layer : Type := assignmentsLayer | mstLayer.

Record Layers : Type := { showAssignments : bool; showMst : bool }.

(** [layers[key]] and [{ ...layers, [key]: value }] *)
Definition getLayer (key : Layer) (l : Layers) : bool :=
  match key with assignmentsLayer => showAssignments l | mstLayer => showMst l end.

Definition setLayer (key : Layer) (value : bool) (l : Layers) : Layers :=
  match key with
  | assignmentsLayer => {| showAssignments := value; showMst := showMst l |}
  | mstLayer => {| showAssignments := showAssignments l; showMst := value |}
  end.

(** Lines 226-237.  [Driver] and [Passenger] are [Node]s, an
    [Assignment] is a [Pair], an [MSTEdge] is an [Edge] of [kruskal]. *)
Record AppState : Type :=
  { drivers : list Node;
    passengers : list Node;
    assignments : list Pair;
    mstEdges : list Kruskal.Edge;
    totalNaiveTime : Z;
    totalAssignedTime : Z;
    totalMSTWeight : Z;
    layers : Layers;
    autoRun : bool;
    lastUpdated : Z }.

(** Lines 241-250.  At run time an action is an object with a [type]
    string and a [payload]; the reducer looks at the string only.  The
    payloads are the ones of the typed code. *)
Inductive Payload : Type :=
| NodesPayload (nodes : list Node)
| PairsPayload (pairs : list Pair)
| EdgesPayload (edges : list Kruskal.Edge)
| TotalsPayload (naive assigned mst : Z)
| LayerPayload (key : Layer)
| BoolPayload (enabled : bool)
| NoPayload.

Record Action : Type := { type : string; payload : Payload }.

(** Lines 269-280.  [Date.now()] is read once, when the module is loaded;
    [loaded] is that reading. *)
Definition initialState (loaded : Z) : AppState :=
  {| drivers := []; passengers := []; assignments := []; mstEdges := [];
     totalNaiveTime := 0; totalAssignedTime := 0; totalMSTWeight := 0;
     layers := {| showAssignments := true; showMst := true |};
     autoRun := false; lastUpdated := loaded |}.

(** Lines 282-295.  [now] is the reading of [Date.now()] when the action
    is reduced.  A payload of another shape than its action type announces
    does not occur in the typed code; the state is then left as it is. *)
Definition appReducer (loaded now : Z) (state : AppState) (action : Action) : AppState :=
  if decide (type action = "SET_DRIVERS") then
    match payload action with
    | NodesPayload d =>
        {| drivers := d; passengers := passengers state;
           assignments := assignments state; mstEdges := mstEdges state;
           totalNaiveTime := totalNaiveTime state;
           totalAssignedTime := totalAssignedTime state;
           totalMSTWeight := totalMSTWeight state; layers := layers state;
           autoRun := autoRun state; lastUpdated := lastUpdated state |}
    | _ => state
    end
  else if decide (type action = "SET_PASSENGERS") then
    match payload action with
    | NodesPayload p =>
        {| drivers := drivers state; passengers := p;
           assignments := assignments state; mstEdges := mstEdges state;
           totalNaiveTime := totalNaiveTime state;
           totalAssignedTime := totalAssignedTime state;
           totalMSTWeight := totalMSTWeight state; layers := layers state;
           autoRun := autoRun state; lastUpdated := lastUpdated state |}
    | _ => state
    end
  else if decide (type action = "SET_ASSIGNMENTS") then
    match payload action with
    | PairsPayload a =>
        {| drivers := drivers state; passengers := passengers state;
           assignments := a; mstEdges := mstEdges state;
           totalNaiveTime := totalNaiveTime state;
           totalAssignedTime := totalAssignedTime state;
           totalMSTWeight := totalMSTWeight state; layers := layers state;
           autoRun := autoRun state; lastUpdated := lastUpdated state |}
    | _ => state
    end
  else if decide (type action = "SET_MST_EDGES") then
    match payload action with
    | EdgesPayload e =>
        {| drivers := drivers state; passengers := passengers state;
           assignments := assignments state; mstEdges := e;
           totalNaiveTime := totalNaiveTime state;
           totalAssignedTime := totalAssignedTime state;
           totalMSTWeight := totalMSTWeight state; layers := layers state;
           autoRun := autoRun state; lastUpdated := lastUpdated state |}
    | _ => state
    end
  else if decide (type action = "SET_TOTALS") then
    match payload action with
    | TotalsPayload naive assigned mst =>
        {| drivers := drivers state; passengers := passengers state;
           assignments := assignments state; mstEdges := mstEdges state;
           totalNaiveTime := naive; totalAssignedTime := assigned;
           totalMSTWeight := mst; layers := layers state;
           autoRun := autoRun state; lastUpdated := lastUpdated state |}
    | _ => state
    end
  else if decide (type action = "TOGGLE_LAYER") then
    match payload action with
    | LayerPayload key =>
        {| drivers := drivers state; passengers := passengers state;
           assignments := assignments state; mstEdges := mstEdges state;
           totalNaiveTime := totalNaiveTime state;
           totalAssignedTime := totalAssignedTime state;
           totalMSTWeight := totalMSTWeight state;
           layers := setLayer key (negb (getLayer key (layers state))) (layers state);
           autoRun := autoRun state; lastUpdated := lastUpdated state |}
    | _ => state
    end
  else if decide (type action = "SET_AUTORUN") then
    match payload action with
    | BoolPayload enabled =>
        {| drivers := drivers state; passengers := passengers state;
           assignments := assignments state; mstEdges := mstEdges state;
           totalNaiveTime := totalNaiveTime state;
           totalAssignedTime := totalAssignedTime state;
           totalMSTWeight := totalMSTWeight state; layers := layers state;
           autoRun := enabled; lastUpdated := lastUpdated state |}
    | _ => state
    end
  else if decide (type action = "UPDATE_TIMESTAMP") then
    {| drivers := drivers state; passengers := passengers state;
       assignments := assignments state; mstEdges := mstEdges state;
       totalNaiveTime := totalNaiveTime state;
       totalAssignedTime := totalAssignedTime state;
       totalMSTWeight := totalMSTWeight state; layers := layers state;
       autoRun := autoRun state; lastUpdated := now |}
  else if decide (type action = "RESET") then initialState loaded
  else state.

(** Lines 305-313: the functions that the provider hands out, each with
    the action that it dispatches. *)
Inductive Call : Type :=
| setDrivers (drivers : list Node)
| setPassengers (passengers : list Node)
| setAssignments (assignments : list Pair)
| setMstEdges (mstEdges : list Kruskal.Edge)
| setTotals (naive assigned mst : Z)
| toggleLayer (layer : Layer)
| setAutoRun (enabled : bool)
| updateTimestamp
| reset.

Definition dispatched (call : Call) : Action :=
  match call with
  | setDrivers d => {| type := "SET_DRIVERS"; payload := NodesPayload d |}
  | setPassengers p => {| type := "SET_PASSENGERS"; payload := NodesPayload p |}
  | setAssignments a => {| type := "SET_ASSIGNIMENTS"; payload := PairsPayload a |}
  | setMstEdges e => {| type := "SET_MST_EDGES"; payload := EdgesPayload e |}
  | setTotals naive assigned mst =>
      {| type := "SET_TOTALS"; payload := TotalsPayload naive assigned mst |}
  | toggleLayer layer => {| type := "TOGGLE_LAYER"; payload := LayerPayload layer |}
  | setAutoRun enabled => {| type := "SET_AUTORUN"; payload := BoolPayload enabled |}
  | updateTimestamp => {| type := "UPDATE_TIMESTAMP"; payload := NoPayload |}
  | reset => {| type := "RESET"; payload := NoPayload |}
  end.

(** [useReducer(appReducer, initialState)], line 302: the state after a
    sequence of calls, each with the reading of the clock at its time. *)
Definition stateAfter (loaded : Z) (calls : list (Z * Call)) : AppState :=
  foldl (fun state '(now, call) => appReducer loaded now state (dispatched call))
        (initialState loaded) calls.

End AppContext.

(** ** [src/components/MapView.tsx]: the colours and the lines of the map *)
Module MapView.
Import CostMatrix.

(** Lines 8-21 *)
Definition DRIVER_COLORS : list string :=
  [ "#FF6B6B"; "#4ECDC4"; "#45B7D1"; "#FFA07A"; "#98D8C8"; "#F7DC6F";
    "#BB8FCE"; "#85C1E2"; "#F8B739"; "#52B788"; "#E63946"; "#06FFA5" ].

(** Lines 24-27; [None] stands for [undefined]. *)
Definition getDriverColor (driverId : string) (index : nat) : option string :=
  DRIVER_COLORS !! (index mod length DRIVER_COLORS)%nat.

(** Lines 36-39 *)
Record Assignment : Type := { driver : string; passenger : string }.

(** [Array.from(new Set(l))]: the elements of [l], each once, in the
    order in which they first occur. *)
Definition arrayFromSet (l : list string) : list string :=
  foldl (fun acc x => if decide (x ∈ acc) then acc else acc ++ [x]) [] l.

(** Lines 138-142 *)
Definition uniqueDrivers (assignments : list Assignment) : list string :=
  arrayFromSet (driver <$> assignments).

Definition driverToColor (assignments : list Assignment) : gmap string (option string) :=
  foldl (fun m '(idx, driverId) =>
           <[driverId := DRIVER_COLORS !! (idx mod length DRIVER_COLORS)%nat]> m)
        ∅ (imap (fun idx driverId => (idx, driverId)) (uniqueDrivers assignments)).

(** Lines 100-109: the memoised map, filled through [getDriverColor]. *)
Definition driverColors (assignments : list Assignment) : gmap string (option string) :=
  foldl (fun m '(index, driverId) => <[driverId := getDriverColor driverId index]> m)
        ∅ (imap (fun index driverId => (index, driverId)) (uniqueDrivers assignments)).

(** Line 147: [driverToColor.get(assignment.driver) || '#FF0000']; an
    absent entry, [undefined] and the empty string are falsy. *)
Definition lineColor (assignments : list Assignment) (assignment : Assignment) : string :=
  match driverToColor assignments !! driver assignment with
  | Some (Some color) => if decide (color = "") then "#FF0000" else color
  | _ => "#FF0000"
  end.

(** Line 89: [new Map(allNodes.map(node => [node.id, node]))]; a later
    node replaces an earlier one with the same id. *)
Definition nodeMap (allNodes : list Node) : gmap string Node :=
  foldl (fun m node => <[id node := node]> m) ∅ allNodes.

Record Polyline : Type :=
  { positions : (Z * Z) * (Z * Z); color : string }.

(** Lines 136-162: one line per assignment whose two nodes are on the
    map, [null] for the others. *)
Definition assignmentPolylines (drivers passengers : list Node)
    (assignments : list Assignment) : list (option Polyline) :=
  let allNodes := drivers ++ passengers in
  (fun assignment =>
     match nodeMap allNodes !! driver assignment,
           nodeMap allNodes !! passenger assignment with
     | Some driverNode, Some passengerNode =>
         Some {| positions := ((lat driverNode, lng driverNode),
                               (lat passengerNode, lng passengerNode));
                 color := lineColor assignments assignment |}
     | _, _ => None
     end) <$> assignments.

(** Lines 166-182: one line per edge of the tree whose two nodes are on
    the map. *)
Definition mstPolylines (drivers passengers : list Node) (mstEdges : list Kruskal.Edge)
  : list (option Polyline) :=
  let allNodes := drivers ++ passengers in
  (fun edge =>
     match nodeMap allNodes !! Kruskal.u edge, nodeMap allNodes !! Kruskal.v edge with
     | Some uNode, Some vNode =>
         Some {| positions := ((lat uNode, lng uNode), (lat vNode, lng vNode));
                 color := "crimson" |}
     | _, _ => None
     end) <$> mstEdges.

End MapView.

(** ** [src/utils/randomUtils.ts]: the generation of the nodes *)
Module RandomUtils.
Import Loops.

Inductive NodeType : Type := driver | passenger.

(** The string of a type, as it enters the id of a node. *)
Definition typeName (type : NodeType) : string :=
  match type with driver => "driver" | passenger => "passenger" end.

Section WithNumbers.

(** The coordinates are floating-point numbers; their type and the three
    operations of [randomInRange] are parameters of the embedding, and so
    are the default bounds, which are not integers. *)
Variable number : Type.
Variables (add sub mul : number -> number -> number).

Record Bounds : Type :=
  { latMin : number; latMax : number; lngMin : number; lngMax : number }.

Variable defaultBounds : Bounds.

Record TypedNode : Type :=
  { id : string; lat : number; lng : number; type : NodeType }.

Record Node : Type := { nodeId : string; nodeLat : number; nodeLng : number }.

(** Lines 25-27, with [r] the value of [Math.random()]. *)
Definition randomInRange (r : number) (min max : number) : number :=
  add (mul r (sub max min)) min.

(** Lines 36-56.  [random k] is the value of the call number [k] of
    [Math.random()], and the second component of the result is the number
    of calls made so far.  The id is the template [`${type}-${i}`]; the
    loop runs for [i < count]. *)
Definition generateRandomNodes (random : nat -> number) (calls : nat) (count : Z)
    (type : NodeType) (bounds : option Bounds) : list TypedNode * nat :=
  let bounds := default defaultBounds bounds in
  for_range (Z.to_nat count) (fun i '(nodes, calls) =>
    (nodes ++ [{| id := typeName type +:+ "-" +:+ pretty i;
                  lat := randomInRange (random calls) (latMin bounds) (latMax bounds);
                  lng := randomInRange (random (S calls)) (lngMin bounds) (lngMax bounds);
                  type := type |}],
     S (S calls)))
    ([], calls).

(** Lines 71-79 *)
Definition regenerateDriversAndPassengers (random : nat -> number) (calls : nat)
    (driverCount passengerCount : Z) (bounds : option Bounds)
  : (list Node * list Node) * nat :=
  let '(drivers, calls) := generateRandomNodes random calls driverCount driver bounds in
  let drivers :=
    (fun n => {| nodeId := id n; nodeLat := lat n; nodeLng := lng n |}) <$> drivers in
  let '(passengers, calls) :=
    generateRandomNodes random calls passengerCount passenger bounds in
  let passengers :=
    (fun n => {| nodeId := id n; nodeLat := lat n; nodeLng := lng n |}) <$> passengers in
  ((drivers, passengers), calls).

End WithNumbers.

End RandomUtils.

(** ** [src/hooks/useGraph.ts]: the computation of the hook *)
Module UseGraph.
Import Loops CostMatrix.

(** Lines 18-28, the part of the result that [setResult] writes. *)
Record GraphResult : Type :=
  { costMatrix : list (list Z);
    assignments : list Pair;
    totalNaiveTime : Z;
    totalAssignedTime : Z;
    mstEdges : list Kruskal.Edge;
    totalMSTWeight : Z }.

(** The three state variables of the hook, lines 59-68. *)
Record HookState : Type :=
  { result : GraphResult; lastUpdated : Z; isCalculating : bool }.

(** A call returns, or throws a [TypeError] when it reads a property of
    [undefined]. *)
Inductive Outcome : Type :=
| Returned (s : HookState)
| Thrown.

(** Lines 47-48 *)
Definition KM_TO_MINUTES_FACTOR : Z := 2.
Definition distanceToTime (distanceInKm : Z) : Z := distanceInKm * KM_TO_MINUTES_FACTOR.

Section WithHaversine.

(** The local [haversineDistance] of lines 36-45, a parameter as in
    [CostMatrix]. *)
Variable haversineDistance : Z -> Z -> Z -> Z -> Z.

(** Lines 77-82 *)
Definition buildMatrix (drivers passengers : list Node) : list (list Z) :=
  (fun driver =>
     (fun passenger =>
        distanceToTime (haversineDistance (lat driver) (lng driver)
                                          (lat passenger) (lng passenger)))
     <$> passengers) <$> drivers.

(** Lines 86-90; the indices stay inside the matrix. *)
Definition naiveTotal (costMatrix : list (list Z)) (naiveCount : nat) : Z :=
  for_range naiveCount (fun i totalNaiveTime => totalNaiveTime + cell 0 costMatrix i i) 0.

(** Lines 94-98: [drivers[driver].id] throws when the index is outside
    the array. *)
Fixpoint namedAssignments (drivers passengers : list Node) (costMatrix : list (list Z))
    (assignedIndices : list Hungarian.Assignment) : option (list Pair) :=
  match assignedIndices with
  | [] => Some []
  | a :: rest =>
      match drivers !! Hungarian.driver a, passengers !! Hungarian.passenger a with
      | Some driver, Some passenger =>
          match namedAssignments drivers passengers costMatrix rest with
          | Some named =>
              Some ({| driverId := id driver; passengerId := id passenger;
                       cost := cell 0 costMatrix (Hungarian.driver a)
                                    (Hungarian.passenger a) |} :: named)
          | None => None
          end
      | _, _ => None
      end
  end.

(** Lines 104-112: one edge for each pair [i < j] of nodes. *)
Definition allEdgesOf (allNodes : list Node) : list Kruskal.Edge :=
  for_range (length allNodes) (fun i allEdges =>
    foldl (fun allEdges j =>
             match allNodes !! i, allNodes !! j with
             | Some u, Some v =>
                 allEdges ++
                 [{| Kruskal.u := id u; Kruskal.v := id v;
                     Kruskal.weight :=
                       distanceToTime (haversineDistance (lat u) (lng u) (lat v) (lng v)) |}]
             | _, _ => allEdges
             end)
          allEdges (seq (S i) (length allNodes - S i))) [].

(** Lines 70-127: [run].  It has no [await] and runs to its end in one
    go; [now] is the reading of [Date.now()] of line 124. *)
Definition run (fuel : nat) (now : Z) (drivers passengers : list Node) (s : HookState)
  : option Outcome :=
  if decide (length drivers = 0%nat \/ length passengers = 0%nat) then Some (Returned s)
  else
    let costMatrix := buildMatrix drivers passengers in
    let naiveCount := Nat.min (length drivers) (length passengers) in
    let totalNaiveTime := naiveTotal costMatrix naiveCount in
    match Hungarian.hungarian fuel costMatrix with
    | None => None
    | Some out =>
        match namedAssignments drivers passengers costMatrix
                (Hungarian.assignments out) with
        | None => Some Thrown
        | Some assignments =>
            let allNodes := drivers ++ passengers in
            let allNodeIds := id <$> allNodes in
            let allEdges := allEdgesOf allNodes in
            match Kruskal.kruskal fuel allNodeIds allEdges with
            | None => None
            | Some tree =>
                Some (Returned
                  {| result :=
                       {| costMatrix := costMatrix;
                          assignments := assignments;
                          totalNaiveTime := totalNaiveTime;
                          totalAssignedTime := Hungarian.totalCost out;
                          mstEdges := Kruskal.mstEdges tree;
                          totalMSTWeight := Kruskal.totalWeight tree |};
                     lastUpdated := now;
                     isCalculating := false |})
            end
        end
    end.

End WithHaversine.

End UseGraph.

(** ** [src/components/RouteLayer.tsx]: the colours of the routes *)
Module RouteLayer.





(** [s.startsWith(searchString)]. *)
Fixpoint startsWith (s searchString : string) : bool :=
  match searchString, s with
  | EmptyString, _ => true
  | String _ _, EmptyString => false
  | String a searchRest, String b rest =>
      if decide (a = b) then startsWith rest searchRest else false
  end.

(** The class [\d] of a regular expression. *)
Definition isDigit (c : Ascii.ascii) : bool :=
  (48 <=? Z.of_nat (Ascii.nat_of_ascii c)) && (Z.of_nat (Ascii.nat_of_ascii c) <=? 57).

(** The matches of [/\d+/g] in [s], from the left to the right, [current]
    being the digits of the match that is being read. *)
Fixpoint digitRuns (current s : string) : list string :=
  match s with
  | EmptyString => if decide (current = "") then [] else [current]
  | String c rest =>
      if isDigit c then digitRuns (current +:+ String c "") rest
      else (if decide (current = "") then [] else [current]) ++ digitRuns "" rest
  end.

(** [s.match(/\d+/g)], which is [null] when there is no match. *)
Definition matchDigits (s : string) : option (list string) :=
  match digitRuns "" s with
  | [] => None
  | found => Some found
  end.

(** [Number] on a string of digits (exact below [2 ^ 53]). *)
Definition digitValue (c : Ascii.ascii) : Z := Z.of_nat (Ascii.nat_of_ascii c) - 48.

Fixpoint numberFrom (value : Z) (digits : string) : Z :=
  match digits with
  | EmptyString => value
  | String c rest => numberFrom (10 * value + digitValue c) rest
  end.

Definition Number (digits : string) : Z := numberFrom 0 digits.

(** A value in a template literal: a number that holds an integer, or
    [undefined] for an element that the array of the matches does not
    have. *)
Definition inTemplate (value : option Z) : string :=
  match value with
  | Some z => pretty z
  | None => "undefined"
  end.

(** What [darkenColor] does: it returns a colour, or it throws a
    [TypeError], at [null.map]. *)
Inductive Darkened : Type :=
| Color (color : string)
| TypeError.

(** [darkenColor], with an amount that is an integer.  [undefined - amount]
    is [NaN], and so is then the maximum. *)
Definition darkenColor (color : string) (amount : Z) : Darkened :=
  if startsWith color "hsl" then
    match matchDigits color with
    | None => TypeError
    | Some found =>
        let numbers := Number <$> found in
        let h := numbers !! 0%nat in
        let s := numbers !! 1%nat in
        let l := numbers !! 2%nat in
        Color ("hsl(" +:+ inTemplate h +:+ ", " +:+ inTemplate s +:+ "%, " +:+
               match l with
               | Some l => pretty (Z.max 30 (l - amount))
               | None => "NaN"
               end +:+ "%)")
    end
  else Color color.

End RouteLayer.

(* ===================================================================== *)
(** * Part V: the theory of the rest of the code                          *)
(* ===================================================================== *)

(** ** More on the minimum spanning tree solver *)
Module KruskalMore.
Import Kruskal UnionFindFacts Connectivity UnionFindRuns Forests KruskalFacts KruskalRun.
Local Open Scope nat_scope.








(** *** The order of the result, and the edges that are left out *)




(** *** Path compression *)


End KruskalMore.

(** ** More on the shortest-path solver *)
Module DijkstraMore.
Import Num Dijkstra DijkstraFacts DijkstraCorrect.



(** *** What holds on every graph *)






End DijkstraMore.

(** ** More on the helpers of the assignment solver *)
Module HungarianMore.
Import Num Loops LoopFacts NestedLoops Hungarian HungarianShape HungarianFind
       HungarianOptimal.
Local Open Scope nat_scope.

(** A zero is an entry of the array. *)
Lemma zero_inside (matrix : list (list num)) (i j : nat) :
  isZero (entry matrix i j) = true -> i < length matrix /\ j < length (nth i matrix []).
Proof.
  unfold entry, cell. intros Hz.
  destruct (decide (j < length (nth i matrix []))) as [Hj|Hj].
  - split; [|exact Hj]. destruct (decide (i < length matrix)) as [Hi|Hi]; [exact Hi|].
    rewrite (nth_overflow matrix) in Hj by lia. simpl in Hj. lia.
  - rewrite (nth_overflow (nth i matrix [])) in Hz by lia. discriminate.
Qed.

(** The cell that row [i] offers: its first uncovered zero. *)
Definition rowSearch (matrix : list (list num)) (colCover : list bool) (i : nat)
  : option (nat * nat) :=
  for_return (length (nth i matrix [])) (fun j =>
    if isZero (entry matrix i j) && negb (covered colCover j) then Some (i, j) else None).

Lemma rowSearch_None matrix colCover i :
  rowSearch matrix colCover i = None <->
  forall j, covered colCover j = false -> isZero (entry matrix i j) = false.
Proof.
  unfold rowSearch. rewrite for_return_None. split.
  - intros H j Hc. destruct (isZero (entry matrix i j)) eqn:Hz; [|reflexivity].
    destruct (zero_inside _ _ _ Hz) as [_ Hj]. specialize (H j Hj).
    rewrite Hz, Hc in H. discriminate.
  - intros H j _. destruct (covered colCover j) eqn:Hc.
    + rewrite andb_false_r. reflexivity.
    + rewrite (H j Hc). reflexivity.
Qed.

Lemma rowSearch_Some matrix colCover i r c :
  rowSearch matrix colCover i = Some (r, c) ->
  r = i /\ isZero (entry matrix i c) = true /\ covered colCover c = false /\
  forall j, j < c -> covered colCover j = false -> isZero (entry matrix i j) = false.
Proof.
  unfold rowSearch. intros H. apply for_return_Some in H as (j & Hj & Hf & Hlt).
  destruct (isZero (entry matrix i j)) eqn:Hz; simpl in Hf; [|discriminate].
  destruct (covered colCover j) eqn:Hc; simpl in Hf; [discriminate|].
  injection Hf as <- <-. split; [reflexivity|]. split; [exact Hz|]. split; [exact Hc|].
  intros k Hk Hck. specialize (Hlt k Hk). rewrite Hck in Hlt.
  destruct (isZero (entry matrix i k)); [discriminate|reflexivity].
Qed.

Lemma findUncoveredZero_rows matrix rowCover colCover :
  findUncoveredZero matrix rowCover colCover =
    for_return (length matrix) (fun i =>
      if negb (covered rowCover i) then rowSearch matrix colCover i else None).
Proof. reflexivity. Qed.

Lemma findUncoveredZero_first matrix rowCover colCover r c :
  findUncoveredZero matrix rowCover colCover = Some (r, c) ->
  isZero (entry matrix r c) = true /\
  covered rowCover r = false /\ covered colCover c = false /\
  forall i j, i < r \/ (i = r /\ j < c) ->
    covered rowCover i = false -> covered colCover j = false ->
    isZero (entry matrix i j) = false.
Proof.
  rewrite findUncoveredZero_rows. intros H.
  apply for_return_Some in H as (i & Hi & Hf & Hlt).
  destruct (covered rowCover i) eqn:Hr; simpl in Hf; [discriminate|].
  apply rowSearch_Some in Hf as (-> & Hz & Hc & Hfirst).
  split; [exact Hz|]. split; [exact Hr|]. split; [exact Hc|].
  intros i' j [Hi'|[-> Hj]] Hr' Hc'.
  - specialize (Hlt i' Hi'). rewrite Hr' in Hlt. simpl in Hlt.
    rewrite rowSearch_None in Hlt. apply Hlt. exact Hc'.
  - apply Hfirst; assumption.
Qed.

Lemma findUncoveredZero_none matrix rowCover colCover :
  findUncoveredZero matrix rowCover colCover = None <->
  forall i j, covered rowCover i = false -> covered colCover j = false ->
              isZero (entry matrix i j) = false.
Proof.
  rewrite findUncoveredZero_rows, for_return_None. split.
  - intros H i j Hr Hc. destruct (isZero (entry matrix i j)) eqn:Hz; [|reflexivity].
    destruct (zero_inside _ _ _ Hz) as [Hi _]. specialize (H i Hi).
    rewrite Hr in H. simpl in H. rewrite rowSearch_None in H.
    rewrite (H j Hc) in Hz. discriminate.
  - intros H i _. destruct (covered rowCover i) eqn:Hr; [reflexivity|]. simpl.
    apply rowSearch_None. intros j Hc. apply H; assumption.
Qed.

End HungarianMore.

(** ** More on the cost matrix *)
Module CostMatrixMore.
Import Num Loops LoopFacts Hungarian CostMatrix HungarianShape HungarianResult
       HungarianOptimal CostMatrixFacts.
Local Open Scope nat_scope.

Lemma lookup_bind_uniform {A B : Type} (f : A -> list B) (n : nat) :
  (forall y, length (f y) = n) ->
  forall (l : list A) (i j : nat) (x : A),
    l !! i = Some x -> j < n -> (l ≫= f) !! (i * n + j) = f x !! j.
Proof.
  intros Hlen. induction l as [|y l IH]; intros i j x Hi Hj; [discriminate|].
  rewrite bind_cons. destruct i as [|i]; simpl in Hi.
  - injection Hi as ->. simpl. apply lookup_app_l. rewrite Hlen. exact Hj.
  - rewrite lookup_app_r by (rewrite Hlen; simpl; lia).
    rewrite Hlen. replace (S i * n + j - n) with (i * n + j) by (simpl; lia).
    apply IH; assumption.
Qed.

Lemma length_bind_uniform {A B : Type} (f : A -> list B) (n : nat) :
  (forall y, length (f y) = n) ->
  forall l : list A, length (l ≫= f) = length l * n.
Proof.
  intros Hlen. induction l as [|y l IH]; [reflexivity|].
  rewrite bind_cons, length_app, Hlen, IH. simpl. lia.
Qed.


Section WithHaversine.

Variable haversineDistance : Z -> Z -> Z -> Z -> Z.

(** The matrix and the list of pairs hold the same costs. *)
Lemma buildCostMatrix_pairs drivers passengers options :
  let matrix := (buildCostMatrix haversineDistance drivers passengers options).1 in
  let pairs := (buildCostMatrix haversineDistance drivers passengers options).2 in
  length matrix = length drivers /\
  Forall (fun row => length row = length passengers) matrix /\
  length pairs = length drivers * length passengers /\
  forall i j driver passenger,
    drivers !! i = Some driver -> passengers !! j = Some passenger ->
    pairs !! (i * length passengers + j) =
      Some {| driverId := id driver; passengerId := id passenger;
              cost := cell 0%Z matrix i j |}.
Proof.
  rewrite buildCostMatrix_spec. simpl.
  split; [apply length_fmap|]. split; [|split].
  - apply Forall_forall. intros row Hrow.
    apply list_elem_of_fmap in Hrow as (d & -> & _). apply length_fmap.
  - apply length_bind_uniform. intros d. apply length_fmap.
  - intros i j d p Hd Hp.
    rewrite (lookup_bind_uniform _ (length passengers)) with (x := d);
      [|intros y; apply length_fmap|exact Hd|eapply lookup_lt_Some; exact Hp].
    rewrite list_lookup_fmap, Hp. simpl. unfold pairOf. do 2 f_equal.
    rewrite cell_lookup2. unfold lookup2. rewrite list_lookup_fmap, Hd. simpl.
    rewrite list_lookup_fmap, Hp. reflexivity.
Qed.


End WithHaversine.

(** *** The Euclidean distance *)

Lemma euclideanDistance_sym lat1 lng1 lat2 lng2 :
  euclideanDistance lat1 lng1 lat2 lng2 = euclideanDistance lat2 lng2 lat1 lng1.
Proof. unfold euclideanDistance. simpl. f_equal. lia. Qed.



(** With the Euclidean metric the naive total does not depend on which
    list is taken for the drivers. *)
Lemma sumNaiveAssignments_swap haversineDistance (drivers passengers : list Node) :
  sumNaiveAssignments haversineDistance drivers passengers None =
  sumNaiveAssignments haversineDistance passengers drivers None.
Proof.
  unfold sumNaiveAssignments. rewrite (Nat.min_comm (length passengers)).
  set (n := Nat.min (length drivers) (length passengers)).
  apply (for_range_ind (fun k total =>
    total = for_range k (fun i totalCost =>
      match passengers !! i, drivers !! i with
      | Some driver, Some passenger =>
          (totalCost +
           distanceFunc haversineDistance (default euclidean None)
             (lat driver) (lng driver) (lat passenger) (lng passenger) * 2)%Z
      | _, _ => totalCost
      end) 0%Z)).
  - reflexivity.
  - intros i total Hi ->. rewrite for_range_S.
    destruct (drivers !! i) as [d|], (passengers !! i) as [p|]; try reflexivity.
    simpl. rewrite (euclideanDistance_sym (lat d)). reflexivity.
Qed.

End CostMatrixMore.

(** ** The state of the application *)
Module AppContextFacts.
Import CostMatrix AppContext.

(** The tests of the reducer on the type of an action that is known. *)
Ltac reduce_type :=
  unfold appReducer, dispatched; simpl type; simpl payload;
  repeat match goal with
  | |- context [decide (?a = ?b)] =>
      first [ rewrite (decide_True (P := a = b)) by reflexivity
            | rewrite (decide_False (P := a = b)) by discriminate ]
  end.

(** No call changes the assignments of a state. *)
Lemma call_keeps_assignments loaded now state call :
  assignments state = [] ->
  assignments (appReducer loaded now state (dispatched call)) = [].
Proof.
  intros Ha. destruct call; reduce_type; simpl; (exact Ha || reflexivity).
Qed.

Lemma stateAfter_assignments loaded calls :
  assignments (stateAfter loaded calls) = [].
Proof.
  unfold stateAfter.
  assert (H : forall state, assignments state = [] ->
    assignments (foldl (fun state '(now, call) =>
                          appReducer loaded now state (dispatched call)) state calls) = []).
  { induction calls as [|[now call] calls IH]; intros state Ha; simpl; [exact Ha|].
    apply IH. apply call_keeps_assignments. exact Ha. }
  apply H. reflexivity.
Qed.

(** The action with the type that the reducer knows does set them. *)
Lemma SET_ASSIGNMENTS_sets loaded now state a :
  assignments (appReducer loaded now state
                 {| type := "SET_ASSIGNMENTS"; payload := PairsPayload a |}) = a.
Proof. reduce_type. reflexivity. Qed.

Lemma toggle_twice loaded now now' state layer :
  appReducer loaded now' (appReducer loaded now state (dispatched (toggleLayer layer)))
             (dispatched (toggleLayer layer)) = state.
Proof.
  destruct state as [d p a e tn ta tm [la lm] ar lu].
  destruct layer; reduce_type; simpl; rewrite negb_involutive; reflexivity.
Qed.

Lemma toggle_layers loaded now state layer :
  getLayer layer (layers (appReducer loaded now state (dispatched (toggleLayer layer)))) =
    negb (getLayer layer (layers state)) /\
  forall other, other <> layer ->
    getLayer other (layers (appReducer loaded now state (dispatched (toggleLayer layer)))) =
      getLayer other (layers state).
Proof.
  destruct state as [d p a e tn ta tm [la lm] ar lu].
  destruct layer; reduce_type; simpl; (split; [reflexivity|]);
    intros [|] Hne; (reflexivity || contradiction).
Qed.

Lemma toggle_commute loaded now now' state layer layer' :
  layers (appReducer loaded now' (appReducer loaded now state (dispatched (toggleLayer layer)))
                     (dispatched (toggleLayer layer'))) =
  layers (appReducer loaded now' (appReducer loaded now state (dispatched (toggleLayer layer')))
                     (dispatched (toggleLayer layer))).
Proof.
  destruct state as [d p a e tn ta tm [la lm] ar lu].
  destruct layer, layer'; reduce_type; reflexivity.
Qed.

End AppContextFacts.

(** ** The colours and the lines of the map *)
Module MapViewFacts.
Import CostMatrix MapView.
Local Open Scope nat_scope.

(** *** [Array.from(new Set(l))] *)

Lemma arrayFromSet_from (l acc : list string) :
  NoDup acc ->
  NoDup (foldl (fun acc x => if decide (x ∈ acc) then acc else acc ++ [x]) acc l) /\
  forall x, x ∈ foldl (fun acc x => if decide (x ∈ acc) then acc else acc ++ [x]) acc l
            <-> x ∈ acc \/ x ∈ l.
Proof.
  revert acc. induction l as [|y l IH]; intros acc Hnd; simpl.
  - split; [exact Hnd|]. intros x. rewrite elem_of_nil. tauto.
  - destruct (decide (y ∈ acc)) as [Hin|Hnin].
    + destruct (IH acc Hnd) as [H1 H2]. split; [exact H1|].
      intros x. rewrite H2, elem_of_cons. split; [tauto|].
      intros [H|[->|H]]; auto.
    + destruct (IH (acc ++ [y])) as [H1 H2].
      { apply NoDup_app. split; [exact Hnd|]. split; [|apply NoDup_singleton].
        intros x Hx Hs. apply list_elem_of_singleton in Hs. subst x. contradiction. }
      split; [exact H1|]. intros x.
      rewrite H2, elem_of_app, list_elem_of_singleton, elem_of_cons. tauto.
Qed.

Lemma arrayFromSet_spec (l : list string) :
  NoDup (arrayFromSet l) /\ forall x, x ∈ arrayFromSet l <-> x ∈ l.
Proof.
  destruct (arrayFromSet_from l [] (NoDup_nil_2)) as [H1 H2].
  split; [exact H1|]. intros x. unfold arrayFromSet. rewrite H2, elem_of_nil. tauto.
Qed.

(** *** The map from the drivers to the colours *)

Definition colourAt (idx : nat) : option string :=
  DRIVER_COLORS !! (idx mod length DRIVER_COLORS).

Definition colourMap (U : list string) : gmap string (option string) :=
  foldl (fun m '(idx, driverId) => <[driverId := colourAt idx]> m)
        ∅ (imap (fun idx driverId => (idx, driverId)) U).

Lemma colourMap_snoc U x :
  colourMap (U ++ [x]) = <[x := colourAt (length U)]> (colourMap U).
Proof.
  unfold colourMap. rewrite imap_app, foldl_app. simpl.
  rewrite Nat.add_0_r. reflexivity.
Qed.

Lemma colourMap_lookup : forall U,
  NoDup U ->
  (forall k d, U !! k = Some d -> colourMap U !! d = Some (colourAt k)) /\
  (forall d, d ∉ U -> colourMap U !! d = None).
Proof.
  induction U as [|x U IH] using rev_ind; intros Hnd.
  - split; [intros k d H; discriminate|]. intros d _. apply lookup_empty.
  - apply NoDup_app in Hnd as (HndU & Hdisj & _).
    destruct (IH HndU) as [IH1 IH2]. rewrite colourMap_snoc. split.
    + intros k d Hk. destruct (decide (k < length U)) as [Hlt|Hge].
      * rewrite lookup_app_l in Hk by exact Hlt.
        assert (d <> x).
        { intros ->. apply (Hdisj x); [|apply list_elem_of_singleton; reflexivity].
          eapply list_elem_of_lookup_2. exact Hk. }
        rewrite lookup_insert_ne by auto. apply IH1. exact Hk.
      * rewrite lookup_app_r in Hk by lia.
        destruct (k - length U) as [|k'] eqn:E; [|destruct k'; discriminate].
        injection Hk as <-. assert (k = length U) by lia. subst k.
        apply lookup_insert_eq.
    + intros d Hd. rewrite elem_of_app, list_elem_of_singleton in Hd.
      rewrite lookup_insert_ne by (intros ->; tauto). apply IH2. tauto.
Qed.

Lemma driverToColor_colourMap assignments :
  driverToColor assignments = colourMap (uniqueDrivers assignments).
Proof. reflexivity. Qed.

(** The memoised map of lines 100-109 is the same map. *)
Lemma driverColors_colourMap assignments :
  driverColors assignments = colourMap (uniqueDrivers assignments).
Proof. reflexivity. Qed.

(** *** The palette *)

Lemma palette_NoDup : NoDup DRIVER_COLORS.
Proof. apply (bool_decide_unpack (NoDup DRIVER_COLORS)). vm_compute. exact I. Qed.

Lemma palette_nonempty : Forall (fun c => c <> "") DRIVER_COLORS.
Proof. unfold DRIVER_COLORS. repeat constructor; discriminate. Qed.

Lemma colourAt_palette idx :
  exists c, colourAt idx = Some c /\ c ∈ DRIVER_COLORS /\ c <> "".
Proof.
  unfold colourAt.
  destruct (lookup_lt_is_Some_2 DRIVER_COLORS (idx mod length DRIVER_COLORS)) as [c Hc].
  { apply Nat.mod_upper_bound. discriminate. }
  exists c. split; [exact Hc|].
  assert (Hin : c ∈ DRIVER_COLORS) by (eapply list_elem_of_lookup_2; exact Hc).
  split; [exact Hin|]. pose proof palette_nonempty as Hne.
  rewrite Forall_forall in Hne. auto.
Qed.

Lemma colourAt_inj i j :
  i < length DRIVER_COLORS -> j < length DRIVER_COLORS ->
  colourAt i = colourAt j -> i = j.
Proof.
  intros Hi Hj. unfold colourAt. rewrite !Nat.mod_small by assumption.
  destruct (lookup_lt_is_Some_2 DRIVER_COLORS i Hi) as [c Hc]. rewrite Hc.
  intros Heq. symmetry in Heq.
  exact (NoDup_lookup _ _ _ _ palette_NoDup Hc Heq).
Qed.

(** The colour of the line of an assignment of the list. *)
Lemma lineColor_spec assignments a :
  a ∈ assignments ->
  exists k, uniqueDrivers assignments !! k = Some (driver a) /\
            colourAt k = Some (lineColor assignments a) /\
            lineColor assignments a ∈ DRIVER_COLORS.
Proof.
  intros Ha. destruct (arrayFromSet_spec (driver <$> assignments)) as [Hnd Hmem].
  fold (uniqueDrivers assignments) in Hnd, Hmem.
  assert (Hin : driver a ∈ uniqueDrivers assignments).
  { apply Hmem. apply list_elem_of_fmap_2. exact Ha. }
  apply list_elem_of_lookup in Hin as [k Hk]. exists k. split; [exact Hk|].
  unfold lineColor. rewrite driverToColor_colourMap.
  rewrite (proj1 (colourMap_lookup _ Hnd) k _ Hk).
  destruct (colourAt_palette k) as (c & Hc & Hpal & Hne). rewrite Hc.
  rewrite decide_False by exact Hne. auto.
Qed.

(** *** The map from the ids to the nodes *)

Lemma nodeMap_snoc nodes n : nodeMap (nodes ++ [n]) = <[id n := n]> (nodeMap nodes).
Proof. unfold nodeMap. rewrite foldl_app. reflexivity. Qed.

(** The node of an id is the last node of the list with that id. *)
Lemma nodeMap_lookup : forall nodes i,
  nodeMap nodes !! i = last (filter (fun n => id n = i) nodes).
Proof.
  induction nodes as [|n nodes IH] using rev_ind; intros i.
  - apply lookup_empty.
  - rewrite nodeMap_snoc, filter_app. destruct (decide (id n = i)) as [<-|Hne].
    + rewrite lookup_insert_eq, filter_cons, filter_nil.
      rewrite decide_True by reflexivity. rewrite last_snoc. reflexivity.
    + rewrite lookup_insert_ne by exact Hne.
      rewrite filter_cons, filter_nil, decide_False by exact Hne.
      rewrite app_nil_r. apply IH.
Qed.

Lemma nodeMap_is_Some nodes i : is_Some (nodeMap nodes !! i) <-> i ∈ id <$> nodes.
Proof.
  rewrite nodeMap_lookup. split.
  - intros [n Hn]. apply last_Some in Hn as [l Hl].
    assert (Hin : n ∈ filter (fun n => id n = i) nodes).
    { rewrite Hl. apply elem_of_app. right. apply list_elem_of_singleton. reflexivity. }
    apply list_elem_of_filter in Hin as [<- Hin]. apply list_elem_of_fmap_2. exact Hin.
  - intros Hin. apply list_elem_of_fmap in Hin as (n & -> & Hn).
    destruct (filter (fun n0 => id n0 = id n) nodes) as [|x l] eqn:E.
    + exfalso. assert (Hin : n ∈ filter (fun n0 => id n0 = id n) nodes).
      { apply list_elem_of_filter. auto. }
      rewrite E in Hin. inversion Hin.
    + destruct (last_is_Some (x :: l)) as [_ H]. apply H. discriminate.
Qed.

(** With distinct ids, the node of an id is the node itself. *)
Lemma nodeMap_NoDup nodes n :
  NoDup (id <$> nodes) -> n ∈ nodes -> nodeMap nodes !! id n = Some n.
Proof.
  induction nodes as [|x nodes IH] using rev_ind; intros Hnd Hn; [inversion Hn|].
  rewrite fmap_app in Hnd. apply NoDup_app in Hnd as (Hnd & Hdisj & _).
  rewrite nodeMap_snoc. apply elem_of_app in Hn as [Hn|Hn].
  - assert (id x <> id n).
    { intros Heq. apply (Hdisj (id n)); [apply list_elem_of_fmap_2; exact Hn|].
      rewrite <- Heq. simpl. apply list_elem_of_singleton. reflexivity. }
    rewrite lookup_insert_ne by auto. apply IH; assumption.
  - apply list_elem_of_singleton in Hn. subst x. apply lookup_insert_eq.
Qed.

End MapViewFacts.

(** ** The generation of the nodes *)
Module RandomUtilsFacts.
Import Loops LoopFacts RandomUtils.
Local Open Scope nat_scope.

(** The id of the node number [i] of a type. *)
Definition idOf (type : NodeType) (i : nat) : string :=
  typeName type +:+ "-" +:+ pretty i.

Lemma idOf_inj type type' i j : idOf type i = idOf type' j -> type = type' /\ i = j.
Proof.
  unfold idOf. destruct type, type'; simpl; intros H; try discriminate.
  - split; [reflexivity|]. injection H as H. exact (pretty_nat_inj _ _ H).
  - split; [reflexivity|]. injection H as H. exact (pretty_nat_inj _ _ H).
Qed.

Lemma idOf_NoDup type n : NoDup (idOf type <$> seq 0 n).
Proof.
  apply NoDup_fmap_2_strong; [|apply NoDup_seq].
  intros i j _ _ H. apply idOf_inj in H. tauto.
Qed.

Section WithNumbers.

Variable number : Type.
Variables (add sub mul : number -> number -> number).
Variable defaultBounds : Bounds number.

(** The node number [i] of a call that starts after [calls] calls of
    [Math.random()]. *)
Definition nodeAt (random : nat -> number) (calls : nat) (type : NodeType)
    (bounds : option (Bounds number)) (i : nat) : TypedNode number :=
  let b := default defaultBounds bounds in
  {| id := idOf type i;
     lat := randomInRange number add sub mul (random (calls + 2 * i))
              (latMin number b) (latMax number b);
     lng := randomInRange number add sub mul (random (S (calls + 2 * i)))
              (lngMin number b) (lngMax number b);
     type := type |}.

Lemma generateRandomNodes_spec random calls count type bounds :
  generateRandomNodes number add sub mul defaultBounds random calls count type bounds =
    (nodeAt random calls type bounds <$> seq 0 (Z.to_nat count),
     calls + 2 * Z.to_nat count).
Proof.
  unfold generateRandomNodes.
  apply (for_range_ind (fun k st =>
    st = (nodeAt random calls type bounds <$> seq 0 k, calls + 2 * k))).
  - rewrite Nat.mul_0_r, Nat.add_0_r. reflexivity.
  - intros i st Hi ->. rewrite seq_S, fmap_app.
    replace (calls + 2 * S i) with (S (S (calls + 2 * i))) by lia. reflexivity.
Qed.

Lemma regenerate_spec random calls driverCount passengerCount bounds :
  let strip := fun n : TypedNode number =>
    {| nodeId := id number n; nodeLat := lat number n; nodeLng := lng number n |} in
  regenerateDriversAndPassengers number add sub mul defaultBounds random calls
    driverCount passengerCount bounds =
    ((strip <$> (nodeAt random calls driver bounds <$> seq 0 (Z.to_nat driverCount)),
      strip <$> (nodeAt random (calls + 2 * Z.to_nat driverCount) passenger bounds
                 <$> seq 0 (Z.to_nat passengerCount))),
     calls + 2 * Z.to_nat driverCount + 2 * Z.to_nat passengerCount).
Proof.
  unfold regenerateDriversAndPassengers. rewrite !generateRandomNodes_spec.
  reflexivity.
Qed.

Lemma regenerate_ids random calls driverCount passengerCount bounds :
  let r := regenerateDriversAndPassengers number add sub mul defaultBounds random calls
             driverCount passengerCount bounds in
  nodeId number <$> r.1.1 = idOf driver <$> seq 0 (Z.to_nat driverCount) /\
  nodeId number <$> r.1.2 = idOf passenger <$> seq 0 (Z.to_nat passengerCount).
Proof.
  simpl. rewrite regenerate_spec. simpl.
  rewrite <- !list_fmap_compose. split; reflexivity.
Qed.

Lemma regenerate_NoDup random calls driverCount passengerCount bounds :
  let r := regenerateDriversAndPassengers number add sub mul defaultBounds random calls
             driverCount passengerCount bounds in
  NoDup (nodeId number <$> (r.1.1 ++ r.1.2)).
Proof.
  simpl. rewrite fmap_app.
  destruct (regenerate_ids random calls driverCount passengerCount bounds) as [-> ->].
  apply NoDup_app. split; [apply idOf_NoDup|]. split; [|apply idOf_NoDup].
  intros x Hd Hp.
  apply list_elem_of_fmap in Hd as (i & -> & _).
  apply list_elem_of_fmap in Hp as (j & Heq & _).
  apply idOf_inj in Heq as [Heq _]. discriminate.
Qed.

End WithNumbers.

End RandomUtilsFacts.

(** ** The spanning tree of a connected graph *)
Module SpanningTree.
Import Kruskal UnionFindFacts Connectivity UnionFindRuns Forests KruskalFacts KruskalRun
       KruskalMore.
Local Open Scope nat_scope.


End SpanningTree.

(** ** The computation of the hook *)
Module UseGraphFacts.
Import Num Loops LoopFacts Hungarian CostMatrix HungarianShape HungarianResult
       HungarianFeasible HungarianOptimal CostMatrixFacts UseGraph.
Import Forests SpanningTree.
Local Open Scope nat_scope.


Section WithHaversine.

Variable haversineDistance : Z -> Z -> Z -> Z -> Z.

(** *** The matrix *)



(** *** The named assignments *)


(** *** The edges between all the nodes *)








(** *** The call *)



End WithHaversine.

End UseGraphFacts.

(** ** The colours of the routes *)
Module RouteLayerFacts.
Import RouteLayer.

(** *** Strings *)





Lemma append_nil_inv s t : s +:+ t = "" -> s = "" /\ t = "".
Proof. destruct s; [auto|discriminate]. Qed.


Fixpoint hasDigit (s : string) : bool :=
  match s with
  | EmptyString => false
  | String c rest => isDigit c || hasDigit rest
  end.

(** *** The decimal digits of a number *)







(** *** The matches *)




Lemma digitRuns_nil s : forall current,
  digitRuns current s = [] <-> current = "" /\ hasDigit s = false.
Proof.
  induction s as [|c s IH]; intros current; simpl.
  - destruct (decide (current = "")); split; try tauto; discriminate.
  - destruct (isDigit c); simpl.
    + rewrite IH. split; [|intros [_ ?]; discriminate].
      intros [H _]. apply append_nil_inv in H as [_ H]. discriminate.
    + destruct (decide (current = "")) as [->|Hn]; simpl.
      * rewrite IH. tauto.
      * split; [discriminate|]. intros [? _]. contradiction.
Qed.

Lemma matchDigits_None s : matchDigits s = None <-> hasDigit s = false.
Proof.
  unfold matchDigits. pose proof (digitRuns_nil s "") as H.
  destruct (digitRuns "" s); split; try discriminate; try tauto.
  intros Hd. destruct H as [_ H]. discriminate H. auto.
Qed.

(** *** A colour of three numbers *)





End RouteLayerFacts.

(* ===================================================================== *)
(** * Part VI: further properties of the code                              *)
(* ===================================================================== *)

(** ** The assignment solver and its helpers *)
Module HungarianProperties.
Import Num Loops LoopFacts Hungarian HungarianShape HungarianFind HungarianResult
       HungarianFeasible HungarianOptimal HungarianMore.
Local Open Scope nat_scope.



(** X2: [findUncoveredZero] returns [null] exactly when no zero of the
    matrix lies in an uncovered row and an uncovered column; otherwise it
    returns such a zero, the first one in the order of the rows and then
    of the columns. *)
Theorem findUncoveredZero_first_uncovered (matrix : list (list num))
    (rowCover colCover : list bool) :
  (findUncoveredZero matrix rowCover colCover = None <->
   forall i j, covered rowCover i = false -> covered colCover j = false ->
               isZero (entry matrix i j) = false) /\
  (forall r c, findUncoveredZero matrix rowCover colCover = Some (r, c) ->
     isZero (entry matrix r c) = true /\
     covered rowCover r = false /\ covered colCover c = false /\
     forall i j, i < r \/ (i = r /\ j < c) ->
       covered rowCover i = false -> covered colCover j = false ->
       isZero (entry matrix i j) = false).
Proof.
  split; [apply findUncoveredZero_none|]. intros r c. apply findUncoveredZero_first.
Qed.

(** X3: on a square matrix [findMinUncoveredValue] returns [Infinity]
    when every entry in an uncovered row and an uncovered column is
    [Infinity]; otherwise it returns the least finite one of these
    entries. *)
Theorem findMinUncoveredValue_least (n : nat) (matrix : list (list num))
    (rowCover colCover : list bool) :
  square n matrix ->
  match findMinUncoveredValue matrix rowCover colCover with
  | Inf => forall i j, i < n -> j < n -> covered rowCover i = false ->
                       covered colCover j = false -> entry matrix i j = Inf
  | Fin d =>
      (exists i j, i < n /\ j < n /\ covered rowCover i = false /\
                   covered colCover j = false /\ entry matrix i j = Fin d) /\
      (forall i j z, i < n -> j < n -> covered rowCover i = false ->
                     covered colCover j = false -> entry matrix i j = Fin z ->
                     (d <= z)%Z)
  end.
Proof.
  intros Hsq.
  pose proof (findMinUncoveredValue_spec n matrix rowCover colCover Hsq) as Hspec.
  pose proof (findMinUncoveredValue_le n matrix rowCover colCover Hsq) as Hle.
  destruct (findMinUncoveredValue matrix rowCover colCover) as [d|]; [|exact Hspec].
  split; [exact Hspec|]. intros i j z Hi Hj Hr Hc Hz.
  destruct (Hle i j z Hi Hj Hr Hc Hz) as (d' & Hd' & Hdz). injection Hd' as <-. exact Hdz.
Qed.

Lemma findMinUncoveredValue_least_witness :
  square 2 [[Fin 3; Fin 0]; [Fin 5; Inf]] /\
  match findMinUncoveredValue [[Fin 3; Fin 0]; [Fin 5; Inf]] [false; false] [false; true]
  with
  | Inf => forall i j, i < 2 -> j < 2 -> covered [false; false] i = false ->
                       covered [false; true] j = false ->
                       entry [[Fin 3; Fin 0]; [Fin 5; Inf]] i j = Inf
  | Fin d =>
      (exists i j, i < 2 /\ j < 2 /\ covered [false; false] i = false /\
                   covered [false; true] j = false /\
                   entry [[Fin 3; Fin 0]; [Fin 5; Inf]] i j = Fin d) /\
      (forall i j z, i < 2 -> j < 2 -> covered [false; false] i = false ->
                     covered [false; true] j = false ->
                     entry [[Fin 3; Fin 0]; [Fin 5; Inf]] i j = Fin z -> (d <= z)%Z)
  end.
Proof.
  assert (H : square 2 [[Fin 3; Fin 0]; [Fin 5; Inf]]).
  { split; [reflexivity|]. intros [|[|i]] row Hrow; simpl in Hrow;
      try discriminate; injection Hrow as <-; reflexivity. }
  split; [exact H|].
  exact (findMinUncoveredValue_least 2 [[Fin 3; Fin 0]; [Fin 5; Inf]]
           [false; false] [false; true] H).
Defined.

End HungarianProperties.

(** ** The spanning-tree solver and the union-find structure *)
Module KruskalProperties.
Import Kruskal UnionFindFacts Connectivity UnionFindRuns Forests KruskalFacts KruskalRun
       KruskalMore.
Local Open Scope nat_scope.






End KruskalProperties.

(** ** The shortest-path solver *)
Module DijkstraProperties.
Import Num Dijkstra DijkstraFacts DijkstraCorrect DijkstraMore.







End DijkstraProperties.

(** ** The cost matrix and the naive pairing *)
Module CostMatrixProperties.
Import Num Loops LoopFacts Hungarian CostMatrix HungarianShape HungarianResult
       HungarianFeasible HungarianOptimal CostMatrixFacts CostMatrixMore.
Local Open Scope nat_scope.

(** X10: [buildCostMatrix] returns one row per driver, each with one
    cost per passenger, and one pair per driver and passenger, in the
    order of the rows: the pair of driver [i] and passenger [j] is at the
    index [i * |passengers| + j], with their two ids and the cost of the
    cell [(i, j)] of the matrix. *)
Theorem buildCostMatrix_pairs_agree (haversineDistance : Z -> Z -> Z -> Z -> Z)
    (drivers passengers : list Node) (options : BuildCostMatrixOptions) :
  let matrix := (buildCostMatrix haversineDistance drivers passengers options).1 in
  let pairs := (buildCostMatrix haversineDistance drivers passengers options).2 in
  length matrix = length drivers /\
  Forall (fun row => length row = length passengers) matrix /\
  length pairs = length drivers * length passengers /\
  forall i j driver passenger,
    drivers !! i = Some driver -> passengers !! j = Some passenger ->
    pairs !! (i * length passengers + j) =
      Some {| driverId := id driver; passengerId := id passenger;
              cost := cell 0%Z matrix i j |}.
Proof. apply buildCostMatrix_pairs. Qed.






(** X14: with the default (Euclidean) metric, [sumNaiveAssignments]
    returns the same total when the list of drivers and the list of
    passengers are exchanged. *)
Theorem sumNaiveAssignments_exchange (haversineDistance : Z -> Z -> Z -> Z -> Z)
    (drivers passengers : list Node) :
  sumNaiveAssignments haversineDistance drivers passengers None =
  sumNaiveAssignments haversineDistance passengers drivers None /\
  sumNaiveAssignments haversineDistance drivers passengers (Some euclidean) =
  sumNaiveAssignments haversineDistance passengers drivers (Some euclidean).
Proof.
  split; [apply sumNaiveAssignments_swap|].
  exact (sumNaiveAssignments_swap haversineDistance drivers passengers).
Qed.

End CostMatrixProperties.

(** ** The state of the application *)
Module AppContextProperties.
Import CostMatrix AppContext AppContextFacts.

(** X15: the function [setAssignments] of the provider dispatches an
    action of the type [SET_ASSIGNIMENTS], which the reducer does not
    know, while the type that it knows is [SET_ASSIGNMENTS]: whatever
    sequence of calls of the functions of the provider is made, the
    assignments of the state stay the empty list of the initial state;
    an action of the known type would set them. *)
Theorem setAssignments_never_stores (loaded : Z) (calls : list (Z * Call)) :
  assignments (stateAfter loaded calls) = [] /\
  forall now state a,
    assignments (appReducer loaded now state
      {| type := "SET_ASSIGNMENTS"; payload := PairsPayload a |}) = a.
Proof.
  split; [apply stateAfter_assignments|]. intros now state a.
  apply SET_ASSIGNMENTS_sets.
Qed.

(** X16: [TOGGLE_LAYER] negates the flag of its layer and leaves the
    flag of the other layer; two toggles of the same layer give back the
    state, and toggles of the two layers give the same flags in either
    order. *)
Theorem toggleLayer_involution (loaded now now' : Z) (state : AppState) (layer : Layer) :
  appReducer loaded now' (appReducer loaded now state (dispatched (toggleLayer layer)))
             (dispatched (toggleLayer layer)) = state /\
  getLayer layer (layers (appReducer loaded now state (dispatched (toggleLayer layer)))) =
    negb (getLayer layer (layers state)) /\
  (forall other, other <> layer ->
     getLayer other (layers (appReducer loaded now state (dispatched (toggleLayer layer))))
     = getLayer other (layers state)) /\
  (forall layer',
     layers (appReducer loaded now'
               (appReducer loaded now state (dispatched (toggleLayer layer)))
               (dispatched (toggleLayer layer'))) =
     layers (appReducer loaded now'
               (appReducer loaded now state (dispatched (toggleLayer layer')))
               (dispatched (toggleLayer layer)))).
Proof.
  split; [apply toggle_twice|].
  destruct (toggle_layers loaded now state layer) as [H1 H2].
  split; [exact H1|]. split; [exact H2|]. intros layer'. apply toggle_commute.
Qed.

End AppContextProperties.

(** ** The map *)
Module MapViewProperties.
Import CostMatrix MapView MapViewFacts.
Local Open Scope nat_scope.

(** X17: the colour of the line of an assignment of the list is the
    colour of the palette at the index, modulo 12, at which its driver
    first occurs among the drivers of the list, never the fallback
    colour; and when the list has at most 12 different drivers, two lines
    have the same colour only if they have the same driver. *)
Theorem lineColor_distinct (assignments : list Assignment) (a b : Assignment) :
  a ∈ assignments -> b ∈ assignments ->
  (exists k, uniqueDrivers assignments !! k = Some (driver a) /\
             DRIVER_COLORS !! (k mod 12) = Some (lineColor assignments a)) /\
  lineColor assignments a <> "#FF0000" /\
  (length (uniqueDrivers assignments) <= 12 ->
   lineColor assignments a = lineColor assignments b -> driver a = driver b).
Proof.
  intros Ha Hb.
  destruct (lineColor_spec assignments a Ha) as (k & Hk & Hc & Hpal).
  destruct (lineColor_spec assignments b Hb) as (k' & Hk' & Hc' & _).
  split; [exists k; split; [exact Hk|exact Hc]|]. split.
  - intros Heq. rewrite Heq in Hpal. revert Hpal.
    apply (bool_decide_unpack (("#FF0000" : string) ∉ DRIVER_COLORS)).
    vm_compute. exact I.
  - intros Hlen Heq.
    assert (k = k').
    { apply colourAt_inj.
      - apply lookup_lt_Some in Hk. simpl. lia.
      - apply lookup_lt_Some in Hk'. simpl. lia.
      - rewrite Hc, Hc', Heq. reflexivity. }
    subst k'. rewrite Hk in Hk'. injection Hk' as ->. reflexivity.
Qed.

Lemma lineColor_distinct_witness :
  let assignments := [ {| driver := "d0"; passenger := "p1" |};
                       {| driver := "d1"; passenger := "p0" |} ] in
  let a := {| driver := "d0"; passenger := "p1" |} in
  let b := {| driver := "d1"; passenger := "p0" |} in
  a ∈ assignments /\ b ∈ assignments /\
  (exists k, uniqueDrivers assignments !! k = Some (driver a) /\
             DRIVER_COLORS !! (k mod 12) = Some (lineColor assignments a)) /\
  lineColor assignments a <> "#FF0000" /\
  (length (uniqueDrivers assignments) <= 12 ->
   lineColor assignments a = lineColor assignments b -> driver a = driver b).
Proof.
  intros assignments a b.
  assert (Ha : a ∈ assignments) by (left).
  assert (Hb : b ∈ assignments) by (right; left).
  split; [exact Ha|]. split; [exact Hb|].
  exact (lineColor_distinct assignments a b Ha Hb).
Defined.

(** X18: a line is drawn for an assignment exactly when its driver id
    and its passenger id are ids of nodes of the map; when the ids of the
    nodes are pairwise different, the line of the assignment of a driver
    node to a passenger node joins the positions of these two nodes. *)
Theorem assignmentPolylines_drawn (drivers passengers : list Node)
    (assignments : list Assignment) (k : nat) (a : Assignment) :
  assignments !! k = Some a ->
  exists line,
    assignmentPolylines drivers passengers assignments !! k = Some line /\
    (is_Some line <->
     driver a ∈ id <$> (drivers ++ passengers) /\
     passenger a ∈ id <$> (drivers ++ passengers)) /\
    (NoDup (id <$> (drivers ++ passengers)) ->
     forall d p, d ∈ drivers ++ passengers -> p ∈ drivers ++ passengers ->
       driver a = id d -> passenger a = id p ->
       line = Some {| positions := ((lat d, lng d), (lat p, lng p));
                      color := lineColor assignments a |}).
Proof.
  intros Hk. unfold assignmentPolylines. rewrite list_lookup_fmap, Hk. simpl.
  eexists. split; [reflexivity|]. split.
  - rewrite <- !nodeMap_is_Some.
    destruct (nodeMap (drivers ++ passengers) !! driver a) as [dn|],
             (nodeMap (drivers ++ passengers) !! passenger a) as [pn|]; split;
      try (intros [? ?]; discriminate || eauto; fail);
      try (intros [[? ?] [? ?]]; discriminate || eauto; fail);
      intros; eauto.
  - intros Hnd d p Hd Hp -> ->.
    rewrite (nodeMap_NoDup _ d Hnd Hd), (nodeMap_NoDup _ p Hnd Hp). reflexivity.
Qed.

Lemma assignmentPolylines_drawn_witness :
  let drivers := [ {| id := "d0"; lat := 1; lng := 2 |} ]%Z in
  let passengers := [ {| id := "p0"; lat := 3; lng := 4 |} ]%Z in
  let a := {| driver := "d0"; passenger := "p0" |} in
  [a] !! 0 = Some a /\
  exists line,
    assignmentPolylines drivers passengers [a] !! 0 = Some line /\
    (is_Some line <->
     driver a ∈ id <$> (drivers ++ passengers) /\
     passenger a ∈ id <$> (drivers ++ passengers)) /\
    (NoDup (id <$> (drivers ++ passengers)) ->
     forall d p, d ∈ drivers ++ passengers -> p ∈ drivers ++ passengers ->
       driver a = id d -> passenger a = id p ->
       line = Some {| positions := ((lat d, lng d), (lat p, lng p));
                      color := lineColor [a] a |}).
Proof.
  intros drivers passengers a.
  assert (H : [a] !! 0 = Some a) by reflexivity.
  split; [exact H|].
  exact (assignmentPolylines_drawn drivers passengers [a] 0 a H).
Defined.

End MapViewProperties.

(** ** The generation of the nodes *)
Module RandomUtilsProperties.
Import RandomUtils RandomUtilsFacts.
Local Open Scope nat_scope.

(** X19: whatever the random values, the bounds and the two counts,
    [regenerateDriversAndPassengers] returns as many drivers and as many
    passengers as asked for (none for a negative count), with the ids
    [driver-0], [driver-1], ... and [passenger-0], [passenger-1], ...; the
    ids of all these nodes are pairwise different, and two calls of
    [Math.random()] are made for each node. *)
Theorem regenerate_distinct_ids (number : Type) (add sub mul : number -> number -> number)
    (defaultBounds : Bounds number) (random : nat -> number) (calls : nat)
    (driverCount passengerCount : Z) (bounds : option (Bounds number)) :
  let r := regenerateDriversAndPassengers number add sub mul defaultBounds random calls
             driverCount passengerCount bounds in
  length r.1.1 = Z.to_nat driverCount /\
  length r.1.2 = Z.to_nat passengerCount /\
  (forall i n, r.1.1 !! i = Some n -> nodeId number n = "driver-" +:+ pretty i) /\
  (forall i n, r.1.2 !! i = Some n -> nodeId number n = "passenger-" +:+ pretty i) /\
  NoDup (nodeId number <$> (r.1.1 ++ r.1.2)) /\
  r.2 = calls + 2 * (length r.1.1 + length r.1.2).
Proof.
  intros r.
  pose proof (regenerate_NoDup number add sub mul defaultBounds random calls
                driverCount passengerCount bounds) as Hnd.
  fold r in Hnd. simpl in Hnd.
  pose proof (regenerate_spec number add sub mul defaultBounds random calls
                driverCount passengerCount bounds) as Hspec.
  fold r in Hspec. simpl in Hspec.
  split; [|split; [|split; [|split; [|split; [exact Hnd|]]]]].
  - rewrite Hspec. simpl. rewrite !length_fmap, length_seq. reflexivity.
  - rewrite Hspec. simpl. rewrite !length_fmap, length_seq. reflexivity.
  - intros i n Hi. rewrite Hspec in Hi. simpl in Hi.
    rewrite !list_lookup_fmap in Hi.
    destruct (seq 0 (Z.to_nat driverCount) !! i) as [j|] eqn:Hj; [|discriminate].
    apply lookup_seq in Hj as [-> _]. simpl in Hi. injection Hi as <-. reflexivity.
  - intros i n Hi. rewrite Hspec in Hi. simpl in Hi.
    rewrite !list_lookup_fmap in Hi.
    destruct (seq 0 (Z.to_nat passengerCount) !! i) as [j|] eqn:Hj; [|discriminate].
    apply lookup_seq in Hj as [-> _]. simpl in Hi. injection Hi as <-. reflexivity.
  - rewrite Hspec. simpl. rewrite !length_fmap, !length_seq. lia.
Qed.

End RandomUtilsProperties.

(** ** The computation of the hook *)
Module UseGraphProperties.
Import Num Loops LoopFacts CostMatrix HungarianShape HungarianResult
       HungarianFeasible HungarianOptimal CostMatrixFacts UseGraph UseGraphFacts.
Import Forests KruskalRun KruskalMore SpanningTree.
Local Open Scope nat_scope.







End UseGraphProperties.

(** ** The colours of the routes *)
Module RouteLayerProperties.
Import RouteLayer RouteLayerFacts.


(** X24: [darkenColor] throws exactly on the colours that start with
    [hsl] and hold no digit (the match is [null] then); it returns
    unchanged every colour that does not start with [hsl]. *)
Theorem darkenColor_throws (color : string) (amount : Z) :
  (darkenColor color amount = TypeError <->
   startsWith color "hsl" = true /\ hasDigit color = false) /\
  (startsWith color "hsl" = false -> darkenColor color amount = Color color).
Proof.
  unfold darkenColor. destruct (startsWith color "hsl").
  - split; [|discriminate]. rewrite <- matchDigits_None.
    destruct (matchDigits color); split.
    + discriminate.
    + intros [_ ?]. discriminate.
    + auto.
    + reflexivity.
  - split; [|reflexivity]. split; [discriminate|]. intros [? _]. discriminate.
Qed.



End RouteLayerProperties.

